(* ===== verification/_CoqProject ===== *)
-Q . S2P
Prelude.v
Json.v
JsonRead.v
Cron.v
Serverless.v
Effects.v
Scheduler.v
Fixture.v
Resolver.v
Engine.v
Spec.v
Process.v
Lifecycle.v
Timer.v
Restart.v
Tests.v
