(* ===== verification/Prelude.v ===== *)
(** * Verification of serverless-offline-schedule: the offline scheduler

    The program ([src/src/scheduler.ts], class [OfflineScheduler]) reads the
    functions of a Serverless service, turns every [schedule] event into a
    list of cron expressions, registers one node-schedule job per expression
    and invokes the function whenever a job fires.  In standalone mode it
    then waits for SIGINT or SIGTERM and exits.  Its parts and the files
    that model them, in the order of their dependencies:

    - [Prelude] (this file): what every component shares.  JavaScript strings
      are [string]; [join] is [Array.prototype.join]; [N_to_string] and
      [N_of_string] print and read decimal numerals.  A JavaScript call
      either returns or throws: [Completion].  Code with side effects is a
      computation [Eff Ev St A]: from the state of the environment it
      produces a completion, the list of effects it emitted (in the order
      they happened, kept when it throws) and the next state.  [bind],
      [throw], [tryCatch], [forEach] and [mapE] are sequencing, [throw],
      [try]/[catch], [Array.prototype.forEach] and [Array.prototype.map].
      Computations are compared pointwise ([eff_equiv], a setoid with
      [Proper] instances for [bind], [tryCatch] and [forEach]).  Four
      predicates carry the reasoning about loops: [total_eff] (the
      computation returns), [follows m out] (it emits a prefix of [out],
      and all of [out] when it returns), [throws_only P] and
      [falls_short size m out] (when it throws, what it emitted is smaller
      than [out]); each has its lemma for [bind] and for [forEach].
      The hint database [eff] and the tactics [eff_unfold] and
      [eff_total] automate the common cases.

    - [Json]: the values an event's [input] can hold ([json]), JavaScript
      truthiness ([truthy], used by [input || {}]: [orElse]) and
      [JSON.stringify] ([stringify]) with the escapes of ECMAScript's
      QuoteJSONString.  Numbers are integers ([Z]); non-integral numbers
      are not modelled.

    - [JsonRead]: a reader of the text [stringify] prints ([parse_json]),
      by recursive descent; it is no part of the program, which never
      parses JSON, and serves to state that the text of a notice
      determines the input it shows.

    - [Cron]: [convertExpressionToCron] of [src/utils], which is not among
      the sources.  The scheduler is verified against an interface: the
      class [Normalizer] is the function and the class [NormalizerSpec]
      the contract of the specification (section 4.1): a rate expression
      [rate(<n> <unit>)] becomes the five-field schedule with the step
      [*/n] in the field of the unit, every result is such a schedule,
      and a failure is an [InvalidExpression].  Every theorem about the
      resolver, the engine and the process holds for every normalizer that
      keeps the contract; [normalize], which accepts rate expressions and
      nothing else, is the instance the witnesses run.  [parse_cron] reads
      a canonical schedule back.

    - [Serverless]: the data of the service as the scheduler reads it: a
      JavaScript object as the list of its properties in the order
      [Object.keys] enumerates them ([JsObject], [keys], [get]; [object_wf]
      says the names are distinct, as they are in an object), the functions
      with their events ([ServerlessFunction], [Event], [Schedule], [Rate])
      and the plugin's options ([ScheduleConfigOptions]).

    - [Effects]: the three things the scheduler does to its environment,
      as the effects of [Eff]: a notice written with [this.log] ([Log]), a
      call of [slsInvokeFunction] ([Invoke]) and a job registered with
      [schedule.scheduleJob] ([ScheduleJob]).  The invoker is a black box
      behind an interface: the type class [Invoker W] gives, for a state
      [W] of the outside world, the outcome of a call (it returned, or it
      threw) and the next state.  Everything about the scheduler is proved
      for every instance; the instances [always_returns], [always_throws]
      and [scripted] give the witnesses their invokers.

    - [Scheduler]: the types of lines 6-20 and the class with its
      constructor (lines 22-32): [OfflineScheduler], [new_OfflineScheduler].

    - [Fixture]: the functions and the schedulers the test suite builds.

    - [Resolver]: [getFunctionConfigurations] (lines 69-91), statement by
      statement ([functionConfigurations] and [eventConfiguration] are the
      callbacks of its two [map]s), a pure reference function [resolve],
      its closed form ([resolved], [firstInvalid]) and the theorem that the
      method computes it without any effect.

    - [Engine]: [scheduleEvents] (lines 39-67) with its two [forEach]
      callbacks ([scheduleConfiguration], [scheduleCron]) and the callback
      of a job ([jobCallback], lines 57-64, run when the job fires); the
      notices, with a reader of the scheduling notice
      ([readSchedulingMessage], no part of the program); the options'
      guards.

    - [Spec]: the specification's view of [Start] (section 4.3): the
      sequence of effects a list of resolved tasks must produce
      ([startScript]), as a pure function, and the refinement theorems
      that [scheduleEvents] emits a prefix of it, and all of it when no
      immediate invocation throws.

    - [Process]: [scheduleEventsStandalone], [listenForTermination] and
      the continuation of its race, [onTermination] (lines 34-37 and
      93-108), and around them the environment as a labelled transition
      system over the phases of the process ([step], [Step],
      [Reachable]): the two calls of a host, the continuation of the
      resolved promise, the firing of any registered job by
      node-schedule, the delivery of a signal.  The transitions run the
      scheduler's code and take the phase its completion gives: an
      exception of a start leaves the process [Failed], an exception
      that leaves a callback would leave it [Crashed] ([resumed]).  The
      invariant [Shape] gives the history of every reachable state and
      [trace_of] the sequences of transitions that lead to each phase.

    - [Lifecycle]: the state machine of the specification (section 4.3:
      Idle, Registering, Running, Terminating, Exited) with the set of
      timers it owns, the abstraction of a process to it ([abstract],
      [implements]) and the simulation diagram.

    - [Timer]: when registered jobs are due.  node-schedule is outside
      the repository; the canonical schedules of the specification get the
      conventional meaning of five-field schedules with step syntax
      ([due], [job_due]), and a clock drives the process: [tick] fires the
      jobs due at one time, in the order of their registration, and
      [clock] goes through a list of times.

    - [Restart]: an embedded scheduler whose host calls [scheduleEvents]
      more than once (the method is public, line 39): the transition
      system [restart] of calls in any number interleaved with firings,
      of which the embedded runs of [Process] are the special case of one
      call.

    - [Tests]: the seven tests of [src/tests/scheduler.spec.ts] run on the
      model, the mocks being projections of the effects; they are
      examples, closed computations, beside the theorems.

    What the theorems show, by group.

    - Resolver, for every normalizer that keeps the contract: the method
      is pure, keeps the order of functions, events and rates, fails as a
      whole on the first expression the normalizer refuses, replaces a
      falsy input by the empty object, and returns well-formed
      configurations whose cron expressions read back as the schedules of
      their rates.

    - Json and the notices: what [stringify] prints reads back as the
      value printed, and a scheduling notice reads back, from its text
      alone, as the name, the cron expressions and the input it was
      written for, when the name has no closing bracket.

    - Engine and Spec: a start follows the specification's script whatever
      the invoker does, and completes it when no immediate invocation can
      throw; a bad expression stops it before any effect; a service
      without schedules has no effect at all; a skipped function
      contributes its skip notice and nothing else; an immediate run that
      throws aborts the start with the later jobs unregistered (the
      specification says otherwise, as it does on the default of a falsy
      input); the callback of a job never throws and writes exactly one
      notice; with [runImmediately] every registration comes right after
      the invocation of its function; a second call of [scheduleEvents]
      registers every job again (the specification wants registration
      idempotent).

    - Process: every reachable history is the banner, a start, firings of
      registered jobs and the stop notice, and every run is one start,
      firings and, for a standalone process, the continuation right after
      the start and one signal at the end; only functions of the service
      that are not skipped are ever invoked; jobs are registered by a
      start only; no exception ever leaves a callback, so no process
      crashes, and any sequence of firings, failed or not, runs and
      leaves every job able to fire again (this rests on the [try] of
      the callback: without it the first failure would end the process);
      the process exits on a signal only, with status 0 and exactly one
      stop notice, and takes no transition afterwards; the registry only
      ever holds well-formed jobs; every notice goes to the [log] the
      scheduler was constructed with; the transitions that are not
      firings are at most three in any run.

    - Lifecycle: every run of a process whose start did not throw is a run
      of the specification's machine, and its registry is exactly the
      timers of the resolved tasks; a start that threw is outside the
      machine.

    - Timer: the job of a rate is due by the field of its unit alone, so a
      rate in hours or days fires at every minute of a matching hour or
      day and a rate of sixty minutes or more once an hour; a tick fires
      each due job once, in order, and a process driven by the clock stays
      reachable; end to end, a started service invokes, as the clock goes
      through any times, the functions of the due jobs of its resolved
      configurations and nothing else.

    - Restart: after any sequence of starts and firings the registry
      holds one round of jobs per start, each an initial segment of the
      timers of the tasks and all of them when no immediate run can
      throw; the registry stays well formed, and at each due time a
      function then runs once for every start.

    - Tests: the seven tests of the suite pass on the model.

    The program needs no fuel: every loop of it is a traversal of a list,
    modelled by structural recursion, and [scheduleEvents] is proved to
    return under its hypotheses rather than assumed to.  The reader of
    [JsonRead] recurses on a fuel; [parse_json] takes the length of the
    text, and [json_fuel_length] shows that a printed value never needs
    more.  Numbers in rate expressions are unbounded naturals ([N]), as
    the decimal digits of the source string.

    What the environment is assumed to do.  The transition system is
    modelled from the specification and from what Node.js and
    node-schedule are known to do, not from code under [src/]: a host
    starts a scheduler once ([Restart] lifts this for an embedded
    scheduler); once registered, a timer fires whether or not the call
    that registered it returned, so jobs fire after a start that threw
    (a host that exits instead takes no further transition, which is a
    run of the model too); an exception that leaves a callback has
    nothing outside the callback to catch it and ends the process (the
    pessimistic reading: a timer library that swallowed it would only
    make the process more robust).

    Not modelled: the times at which node-schedule fires a job (the
    environment chooses which job fires next, and firings are atomic: an
    invocation is a synchronous call; [Timer] gives the choice a clock
    makes, to the minute, without seconds, time zones or the lengths of
    months); a second start of a standalone process (the transition
    system of [Process] starts a process once, which is what the host of
    the plugin does; [Restart] covers the embedded scheduler that is
    started again, and a standalone process that is started again would
    install a second pair of signal handlers, which the phases do not
    count); the code of [convertExpressionToCron] (behind [Normalizer]);
    the child process [slsInvokeFunction] spawns (behind [Invoker]);
    [console.log]'s output device (the notices are the [Log] effects),
    and a [log] function that throws (writing a notice returns, as
    [console.log] and the mock of the tests do);
    cancellation of jobs (the program has none); the identity of the
    [input] object (a job closes over the object of the configuration,
    which nothing in the program mutates: the model keeps its value);
    a provider with a state of its own (the provider of the model
    returns the same functions at every call, so the tasks of a second
    start are those of the first);
    signals that arrive while no handler is installed (before
    [listenForTermination] ran, or in an embedded scheduler: they are the
    host's); and services whose [schedule] is not an object with a [rate]
    that is a string or an array of strings (the short form
    [schedule: 'rate(...)'] makes the program convert [undefined], and
    what [convertExpressionToCron] does with it is outside the sources).
    The plugin's entry point, its commands and the parsing of
    [serverless.yml] are not among the sources: the provider and the
    options are the inputs of the model. *)

From Stdlib Require Import String Ascii NArith ZArith Lia DecimalString DecimalN.
From stdpp Require Import base tactics option list strings.

Declare Scope js_scope.
Delimit Scope js_scope with js.

(** ** Strings *)

(** The double quote, as a one-character string. *)
Definition dquote : string := String "034"%char EmptyString.

(** The backslash, as a one-character string. *)
Definition bslash : string := String "092"%char EmptyString.

(** [Array.prototype.join]: the elements separated by [sep]; the empty
    string for the empty array. *)
Definition join (sep : string) (xs : list string) : string :=
  String.concat sep xs.

(** [s.startsWith(p)] and the rest of [s] after [p]. *)
Fixpoint strip_prefix (p s : string) : option string :=
  match p, s with
  | EmptyString, _ => Some s
  | String a p', String b s' => if decide (a = b) then strip_prefix p' s' else None
  | String _ _, EmptyString => None
  end.

(** The longest prefix of [s] whose characters satisfy [f], and the rest. *)
Fixpoint span (f : ascii -> bool) (s : string) : string * string :=
  match s with
  | EmptyString => (EmptyString, EmptyString)
  | String a s' =>
      if f a then let '(l, r) := span f s' in (String a l, r)
      else (EmptyString, s)
  end.

(** Every character of [s] satisfies [f]. *)
Fixpoint string_forallb (f : ascii -> bool) (s : string) : bool :=
  match s with
  | EmptyString => true
  | String a s' => f a && string_forallb f s'
  end.

(** [s.split(sep)] for a one-character separator: the pieces of [s]
    between the occurrences of [sep]; one piece, [s] itself, when [sep]
    does not occur. *)
Fixpoint split_on (sep : ascii) (s : string) : list string :=
  match s with
  | EmptyString => [EmptyString]
  | String a s' =>
      if decide (a = sep) then EmptyString :: split_on sep s'
      else match split_on sep s' with
           | piece :: pieces => String a piece :: pieces
           | [] => [String a EmptyString]
           end
  end.

Definition is_digit (a : ascii) : bool :=
  match Ascii.is_nat a with Some _ => true | None => false end.

(** ** Decimal numerals *)

(** [String(n)] for a natural number. *)
Definition N_to_string (n : N) : string :=
  NilEmpty.string_of_uint (N.to_uint n).

(** The number a non-empty string of decimal digits denotes. *)
Definition N_of_string (s : string) : option N :=
  match s with
  | EmptyString => None
  | _ => N.of_uint <$> NilEmpty.uint_of_string s
  end.

(** ** Completions: a call returns or throws *)

(** The exceptions of the program: a schedule expression that is no rate
    expression, a failure of the invoked function (carrying the thrown
    value as [String(err)] renders it), and the runtime's own TypeError. *)
Inductive JsError : Type :=
| InvalidExpression (expression : string)
| InvocationError (err : string)
| TypeError (msg : string).

Inductive Completion (A : Type) : Type :=
| Normal (a : A)
| Throw (e : JsError).
Arguments Normal {A} a.
Arguments Throw {A} e.

#[export] Instance JsError_eq_dec : EqDecision JsError.
Proof. solve_decision. Defined.

#[export] Instance Completion_eq_dec `{EqDecision A} : EqDecision (Completion A).
Proof. solve_decision. Defined.

Definition is_normal {A} (c : Completion A) : bool :=
  match c with Normal _ => true | Throw _ => false end.

(** Sequencing of pure code that may throw. *)
Definition cbind {A B} (c : Completion A) (k : A -> Completion B) : Completion B :=
  match c with
  | Normal a => k a
  | Throw e => Throw e
  end.

(** [xs.map(f)] for a callback without effects that may throw: the first
    throw ends the traversal. *)
Fixpoint mapC {A B} (f : A -> Completion B) (xs : list A) : Completion (list B) :=
  match xs with
  | [] => Normal []
  | x :: xs' => cbind (f x) (fun y => cbind (mapC f xs') (fun ys => Normal (y :: ys)))
  end.

(** ** Computations with effects *)

(** What a run produced: how it completed, the effects it emitted, oldest
    first, and the state of the environment it left. *)
Record Run (Ev St A : Type) : Type := MkRun {
  outcome : Completion A;
  emitted : list Ev;
  final : St;
}.
Arguments MkRun {Ev St A} outcome emitted final.
Arguments outcome {Ev St A} r.
Arguments emitted {Ev St A} r.
Arguments final {Ev St A} r.

Definition Eff (Ev St A : Type) : Type := St -> Run Ev St A.

(** Two computations are equivalent when they run alike from every state. *)
#[export] Instance eff_equiv {Ev St A} : Equiv (Eff Ev St A) :=
  fun m1 m2 => forall s, m1 s = m2 s.

Section Eff.
Context {Ev St : Type}.

Definition ret {A} (a : A) : Eff Ev St A :=
  fun s => MkRun (Normal a) [] s.

Definition throw {A} (e : JsError) : Eff Ev St A :=
  fun s => MkRun (Throw e) [] s.

(** [m; k]: when [m] throws, [k] does not run, and what [m] emitted and
    the state it left stay. *)
Definition bind {A B} (m : Eff Ev St A) (k : A -> Eff Ev St B) : Eff Ev St B :=
  fun s =>
    let r := m s in
    match outcome r with
    | Normal a =>
        let r' := k a (final r) in
        MkRun (outcome r') (emitted r ++ emitted r') (final r')
    | Throw e => MkRun (Throw e) (emitted r) (final r)
    end.

(** [try { m } catch (e) { h e }]. *)
Definition tryCatch {A} (m : Eff Ev St A) (h : JsError -> Eff Ev St A) : Eff Ev St A :=
  fun s =>
    let r := m s in
    match outcome r with
    | Normal a => r
    | Throw e =>
        let r' := h e (final r) in
        MkRun (outcome r') (emitted r ++ emitted r') (final r')
    end.

(** One effect on the environment, recorded. *)
Definition emit (e : Ev) : Eff Ev St unit :=
  fun s => MkRun (Normal tt) [e] s.

(** Pure code that may throw, as a computation. *)
Definition liftC {A} (c : Completion A) : Eff Ev St A :=
  fun s => MkRun c [] s.

(** [xs.forEach(f)]. *)
Fixpoint forEach {A} (f : A -> Eff Ev St unit) (xs : list A) : Eff Ev St unit :=
  match xs with
  | [] => ret tt
  | x :: xs' => bind (f x) (fun _ => forEach f xs')
  end.

(** [xs.map(f)]. *)
Fixpoint mapE {A B} (f : A -> Eff Ev St B) (xs : list A) : Eff Ev St (list B) :=
  match xs with
  | [] => ret []
  | x :: xs' => bind (f x) (fun y => bind (mapE f xs') (fun ys => ret (y :: ys)))
  end.

(** A computation is pure when it emits nothing and leaves the state. *)
Definition pure_eff {A} (m : Eff Ev St A) : Prop :=
  forall s, emitted (m s) = [] /\ final (m s) = s.

(** A computation never throws. *)
Definition total_eff {A} (m : Eff Ev St A) : Prop :=
  forall s, is_normal (outcome (m s)) = true.

(** A computation only throws exceptions that satisfy [P]. *)
Definition throws_only {A} (P : JsError -> Prop) (m : Eff Ev St A) : Prop :=
  forall s e, outcome (m s) = Throw e -> P e.

(** A computation that throws falls short of the script [out] by the
    measure [size]: what it emitted then weighs strictly less than [out]. *)
Definition falls_short {A} (size : list Ev -> nat) (m : Eff Ev St A) (out : list Ev)
    : Prop :=
  forall s, is_normal (outcome (m s)) = false -> size (emitted (m s)) < size out.

(** A computation follows the script [out]: from every state it emits a
    prefix of [out], and all of [out] when it returns. *)
Definition follows {A} (m : Eff Ev St A) (out : list Ev) : Prop :=
  forall s, emitted (m s) `prefix_of` out /\
            (is_normal (outcome (m s)) = true -> emitted (m s) = out).

End Eff.

Notation "x <- m ;; k" := (bind m (fun x => k))
  (at level 100, m at next level, right associativity) : js_scope.
Notation "m ;; k" := (bind m (fun _ => k))
  (at level 100, right associativity) : js_scope.

Create HintDb eff discriminated.
Create Rewrite HintDb eff.

Lemma string_app_cons (a : ascii) (s1 s2 : string) :
  String a s1 +:+ s2 = String a (s1 +:+ s2).
Proof. done. Qed.

Lemma string_app_nil_l (s : string) : "" +:+ s = s.
Proof. done. Qed.

Lemma string_app_nil_r (s : string) : s +:+ "" = s.
Proof. induction s as [|a s IH]; [done|]. by rewrite string_app_cons, IH. Qed.

Lemma string_app_assoc (s1 s2 s3 : string) :
  (s1 +:+ s2) +:+ s3 = s1 +:+ (s2 +:+ s3).
Proof. induction s1 as [|a s1 IH]; [done|]. by rewrite !string_app_cons, IH. Qed.

Lemma string_length_app (s1 s2 : string) :
  String.length (s1 +:+ s2) = String.length s1 + String.length s2.
Proof. induction s1 as [|a s1 IH]; [done|]. rewrite string_app_cons. cbn. by rewrite IH. Qed.

Lemma strip_prefix_app (p s : string) : strip_prefix p (p +:+ s) = Some s.
Proof.
  induction p as [|a p IH]; [by destruct s|].
  rewrite string_app_cons. cbn. by rewrite decide_True.
Qed.

Lemma strip_prefix_Some (p s r : string) :
  strip_prefix p s = Some r <-> s = p +:+ r.
Proof.
  split; [|intros ->; apply strip_prefix_app].
  revert s; induction p as [|a p IH]; intros [|b s] H; simplify_eq/=; try done.
  case_decide; simplify_eq. by rewrite string_app_cons, <- (IH s).
Qed.

Lemma span_app (f : ascii -> bool) (s : string) :
  (span f s).1 +:+ (span f s).2 = s.
Proof.
  induction s as [|a s IH]; [done|]. cbn.
  destruct (f a); [|done]. destruct (span f s); cbn in *.
  by rewrite string_app_cons, IH.
Qed.

Lemma span_forallb (f : ascii -> bool) (s : string) :
  string_forallb f (span f s).1 = true.
Proof.
  induction s as [|a s IH]; [done|]. cbn.
  destruct (f a) eqn:Ha; [|done]. destruct (span f s); cbn in *.
  by rewrite Ha, IH.
Qed.

(** [span] stops exactly at the first character that fails [f]. *)
Lemma span_stop (f : ascii -> bool) (l : string) (b : ascii) (r : string) :
  string_forallb f l = true -> f b = false ->
  span f (l +:+ String b r) = (l, String b r).
Proof.
  intros Hl Hb. induction l as [|a l IH]; cbn in Hl.
  - rewrite string_app_nil_l. cbn. by rewrite Hb.
  - apply andb_prop in Hl as [Ha Hl]. rewrite string_app_cons. cbn.
    by rewrite Ha, (IH Hl).
Qed.

(** Splitting a piece without separator followed by a separator. *)
Lemma split_on_piece (sep : ascii) (piece rest : string) :
  string_forallb (fun a => bool_decide (a <> sep)) piece = true ->
  split_on sep (piece +:+ String sep rest) = piece :: split_on sep rest.
Proof.
  induction piece as [|a piece IH]; cbn.
  - intros _. by rewrite string_app_nil_l; cbn; rewrite decide_True.
  - intros [Ha Hpiece]%andb_prop. apply bool_decide_eq_true in Ha.
    rewrite string_app_cons. cbn. by rewrite decide_False, IH.
Qed.

Lemma split_on_last (sep : ascii) (piece : string) :
  string_forallb (fun a => bool_decide (a <> sep)) piece = true ->
  split_on sep piece = [piece].
Proof.
  induction piece as [|a piece IH]; cbn; [done|].
  intros [Ha Hpiece]%andb_prop. apply bool_decide_eq_true in Ha.
  by rewrite decide_False, IH.
Qed.

(** [join] and [split_on] are inverse on a non-empty list of pieces none
    of which holds the separator. *)
Lemma split_on_join (sep : ascii) (pieces : list string) :
  pieces <> [] ->
  Forall (fun piece => string_forallb (fun a => bool_decide (a <> sep)) piece = true) pieces ->
  split_on sep (join (String sep "") pieces) = pieces.
Proof.
  intros Hne Hpieces. induction Hpieces as [|piece pieces Hpiece Hpieces IH]; [done|].
  destruct pieces as [|piece' pieces]; [by apply split_on_last|].
  change (join ?s (piece :: piece' :: pieces))
    with (piece +:+ String sep "" +:+ join s (piece' :: pieces)).
  rewrite string_app_cons, string_app_nil_l, split_on_piece by done. by rewrite IH.
Qed.

Lemma string_forallb_impl (f g : ascii -> bool) (s : string) :
  (forall a, f a = true -> g a = true) ->
  string_forallb f s = true -> string_forallb g s = true.
Proof.
  intros Hfg. induction s as [|a s IH]; cbn; [done|].
  intros [Ha Hs]%andb_prop. by rewrite (Hfg a Ha), IH.
Qed.

Lemma string_forallb_app (f : ascii -> bool) (s1 s2 : string) :
  string_forallb f (s1 +:+ s2) = string_forallb f s1 && string_forallb f s2.
Proof.
  induction s1 as [|a s1 IH]; [done|]. rewrite string_app_cons. cbn.
  by rewrite IH, andb_assoc.
Qed.

(** A joined list keeps what holds of its pieces and of the separator. *)
Lemma string_forallb_join (f : ascii -> bool) (sep : ascii) (pieces : list string) :
  f sep = true -> Forall (fun piece => string_forallb f piece = true) pieces ->
  string_forallb f (join (String sep "") pieces) = true.
Proof.
  intros Hsep. induction 1 as [|piece pieces Hpiece _ IH]; [done|].
  destruct pieces as [|piece' pieces]; [done|].
  change (join ?s (piece :: piece' :: pieces))
    with (piece +:+ String sep "" +:+ join s (piece' :: pieces)).
  rewrite !string_forallb_app, Hpiece, IH. cbn. by rewrite Hsep.
Qed.

(** Only the empty list of non-empty pieces joins to the empty string. *)
Lemma join_empty (sep : string) (pieces : list string) :
  Forall (fun piece => piece <> "") pieces -> join sep pieces = "" -> pieces = [].
Proof.
  destruct 1 as [|piece pieces Hpiece _]; [done|]. intros Hjoin. destruct Hpiece.
  destruct pieces as [|piece' pieces]; [done|].
  change (join sep (piece :: piece' :: pieces))
    with (piece +:+ sep +:+ join sep (piece' :: pieces)) in Hjoin.
  by destruct piece.
Qed.

Lemma string_of_uint_digits (d : Decimal.uint) :
  string_forallb is_digit (NilEmpty.string_of_uint d) = true.
Proof. induction d; cbn; by rewrite ?IHd. Qed.

Lemma N_to_string_digits (n : N) : string_forallb is_digit (N_to_string n) = true.
Proof. apply string_of_uint_digits. Qed.

Lemma N_to_string_nonempty (n : N) : N_to_string n <> "".
Proof.
  unfold N_to_string. destruct n as [|p]; [done|].
  cbn. pose proof (DecimalPos.Unsigned.to_uint_nonnil p) as Hp.
  destruct (Pos.to_uint p); done.
Qed.

(** Reading back a printed number gives the number. *)
Lemma N_of_to_string (n : N) : N_of_string (N_to_string n) = Some n.
Proof.
  unfold N_of_string. pose proof (N_to_string_nonempty n) as Hn.
  destruct (N_to_string n) eqn:E; [done|]. rewrite <- E.
  unfold N_to_string. by rewrite NilEmpty.usu; cbn; rewrite Unsigned.of_to.
Qed.

Lemma N_to_string_inj (n m : N) : N_to_string n = N_to_string m -> n = m.
Proof.
  intros H. apply (f_equal N_of_string) in H.
  rewrite !N_of_to_string in H. by simplify_eq.
Qed.

(** Only strings of digits denote numbers. *)
Lemma N_of_string_digits (s : string) (n : N) :
  N_of_string s = Some n -> string_forallb is_digit s = true /\ s <> "".
Proof.
  unfold N_of_string. destruct s as [|a s]; [done|].
  destruct (NilEmpty.uint_of_string (String a s)) as [d|] eqn:E; [|done].
  intros _. apply NilEmpty.sus in E. rewrite <- E. split.
  - apply string_of_uint_digits.
  - by rewrite E.
Qed.

(** ** Completions *)

Lemma cbind_Normal {A B} (c : Completion A) (k : A -> Completion B) (b : B) :
  cbind c k = Normal b <-> exists a, c = Normal a /\ k a = Normal b.
Proof.
  destruct c as [a|e]; cbn; split.
  - intros Hk. by exists a.
  - by intros (? & [= <-] & ?).
  - done.
  - by intros (? & ? & _).
Qed.

Lemma cbind_Throw {A B} (c : Completion A) (k : A -> Completion B) (e : JsError) :
  cbind c k = Throw e <-> c = Throw e \/ exists a, c = Normal a /\ k a = Throw e.
Proof.
  destruct c as [a|e']; cbn; split.
  - intros Hk. right. by exists a.
  - intros [?|(? & [= <-] & ?)]; done.
  - intros [= ->]. by left.
  - intros [[= ->]|(? & ? & _)]; done.
Qed.

Lemma mapC_app {A B} (f : A -> Completion B) (xs ys : list A) :
  mapC f (xs ++ ys) =
  cbind (mapC f xs) (fun l => cbind (mapC f ys) (fun r => Normal (l ++ r))).
Proof.
  induction xs as [|x xs IH]; cbn.
  - by destruct (mapC f ys).
  - destruct (f x); cbn; [|done]. rewrite IH.
    destruct (mapC f xs); cbn; [|done]. by destruct (mapC f ys).
Qed.

Lemma elem_of_flat_map {A B} (f : A -> list B) (l : list A) (y : B) :
  y ∈ flat_map f l <-> exists x, x ∈ l /\ y ∈ f x.
Proof.
  rewrite list_elem_of_In, in_flat_map. by setoid_rewrite list_elem_of_In.
Qed.

Lemma elem_of_concat {A} (ls : list (list A)) (x : A) :
  x ∈ concat ls <-> exists l, x ∈ l /\ l ∈ ls.
Proof.
  rewrite list_elem_of_In, in_concat. setoid_rewrite list_elem_of_In.
  split; intros (l & ? & ?); by exists l.
Qed.

(** Filtering and mapping [n] copies of a list gives [n] copies of the
    filtered and mapped list. *)
Lemma fmap_filter_replicate {A B} (f : A -> B) (P : A -> bool) (n : nat) (l : list A) :
  f <$> List.filter P (concat (replicate n l)) = concat (replicate n (f <$> List.filter P l)).
Proof. induction n as [|n IH]; cbn; [done|]. by rewrite List.filter_app, fmap_app, IH. Qed.

Lemma flat_map_singleton {A} (l : list A) : flat_map (fun x => [x]) l = l.
Proof. induction l as [|x l IH]; cbn; [done|]. by rewrite IH. Qed.

Lemma omap_flat_map {A B C} (f : B -> option C) (g : A -> list B) (l : list A) :
  omap f (flat_map g l) = flat_map (fun x => omap f (g x)) l.
Proof. induction l as [|x l IH]; cbn; [done|]. by rewrite omap_app, IH. Qed.

Lemma omap_prefix {A B} (f : A -> option B) (l1 l2 : list A) :
  l1 `prefix_of` l2 -> omap f l1 `prefix_of` omap f l2.
Proof. intros [k ->]. rewrite omap_app. by apply prefix_app_r. Qed.

Lemma flat_map_nil_map {A B} (l : list A) : flat_map (fun _ => @nil B) l = [].
Proof. by induction l. Qed.

Lemma flat_map_singleton_map {A B} (f : A -> B) (l : list A) :
  flat_map (fun x => [f x]) l = f <$> l.
Proof. induction l as [|x l IH]; cbn; [done|]. by rewrite IH. Qed.

Lemma flat_map_ext_Forall {A B} (f g : A -> list B) (l : list A) :
  Forall (fun x => f x = g x) l -> flat_map f l = flat_map g l.
Proof. induction 1 as [|x l Hx _ IH]; cbn; [done|]. by rewrite Hx, IH. Qed.

Lemma find_app {A} (p : A -> bool) (l1 l2 : list A) :
  find p (l1 ++ l2) = match find p l1 with Some x => Some x | None => find p l2 end.
Proof. induction l1 as [|x l1 IH]; cbn; [done|]. by destruct (p x). Qed.

(** When the callback throws on an element exactly when one of the items it
    reads from it is bad, and then for the first bad one, the traversal
    throws for the first bad item of the whole list and returns the results
    when there is none. *)
Lemma mapC_find {A B E} (f : A -> Completion B) (g : A -> B) (items : A -> list E)
    (bad : E -> bool) (err : E -> JsError) (xs : list A) :
  (forall x, f x = match find bad (items x) with
                   | Some e => Throw (err e)
                   | None => Normal (g x)
                   end) ->
  mapC f xs = match find bad (flat_map items xs) with
              | Some e => Throw (err e)
              | None => Normal (g <$> xs)
              end.
Proof.
  intros Hf. induction xs as [|x xs IH]; cbn; [done|].
  rewrite Hf, find_app. destruct (find bad (items x)); cbn; [done|].
  rewrite IH. by destruct (find bad (flat_map items xs)).
Qed.

(** [mapC] returns exactly when the callback returns on every element, and
    then with the callback's results in order. *)
Lemma mapC_Normal {A B} (f : A -> Completion B) (xs : list A) (ys : list B) :
  mapC f xs = Normal ys <-> Forall2 (fun x y => f x = Normal y) xs ys.
Proof.
  revert ys; induction xs as [|x xs IH]; intros ys; cbn.
  - split; [intros [= <-]; constructor | by inversion 1].
  - split.
    + destruct (f x) as [y|] eqn:Hx; cbn; [|done].
      destruct (mapC f xs) as [l|] eqn:Hxs; cbn; [|done].
      intros [= <-]. constructor; [done|]. by apply IH.
    + inversion 1 as [|? y ? l Hx Hl]; simplify_eq. rewrite Hx; cbn.
      apply IH in Hl. by rewrite Hl.
Qed.

(** [mapC] throws exactly when the callback throws on some element and
    returned on all before it; the exception is that first one. *)
Lemma mapC_Throw {A B} (f : A -> Completion B) (xs : list A) (e : JsError) :
  mapC f xs = Throw e <->
  exists l x r, xs = l ++ x :: r /\ f x = Throw e /\
    Forall (fun x' => is_normal (f x') = true) l.
Proof.
  induction xs as [|x xs IH]; cbn.
  - split; [done|]. by intros ([|??] & ? & ? & ? & _).
  - destruct (f x) as [y|e'] eqn:Hx; cbn.
    + transitivity (mapC f xs = Throw e).
      { by destruct (mapC f xs). }
      rewrite IH. split.
      * intros (l & x' & r & -> & ? & ?). exists (x :: l), x', r.
        split_and!; [done..|]. constructor; [by rewrite Hx|done].
      * intros ([|x0 l] & x' & r & Heq & Hthrow & Hl); simplify_eq/=; [congruence|].
        apply Forall_cons in Hl as [_ Hl]. eauto 10.
    + split.
      * intros [= ->]. exists [], x, xs. by split_and!.
      * intros ([|x0 l] & x' & r & Heq & Hthrow & Hl); simplify_eq/=; [congruence|].
        apply Forall_cons in Hl as [Hn _]. by rewrite Hx in Hn.
Qed.

(** ** Computations: the setoid, the laws, the run equations *)

Section EffFacts.
Context {Ev St : Type}.
Implicit Types s : St.

#[export] Instance eff_equivalence {A} : Equivalence (≡@{Eff Ev St A}).
Proof.
  split.
  - by intros m s.
  - intros m1 m2 H s. by rewrite (H s).
  - intros m1 m2 m3 H1 H2 s. by rewrite (H1 s), (H2 s).
Qed.

#[export] Instance bind_proper {A B} :
  Proper ((≡) ==> pointwise_relation A (≡) ==> (≡)) (@bind Ev St A B).
Proof.
  intros m1 m2 Hm k1 k2 Hk s. unfold bind. rewrite (Hm s).
  destruct (outcome (m2 s)); [|done]. by rewrite (Hk _ _).
Qed.

#[export] Instance tryCatch_proper {A} :
  Proper ((≡) ==> pointwise_relation JsError (≡) ==> (≡)) (@tryCatch Ev St A).
Proof.
  intros m1 m2 Hm h1 h2 Hh s. unfold tryCatch. rewrite (Hm s).
  destruct (outcome (m2 s)); [done|]. by rewrite (Hh _ _).
Qed.

Lemma run_eta {A} (r : Run Ev St A) : MkRun (outcome r) (emitted r) (final r) = r.
Proof. by destruct r. Qed.

Lemma bind_ret_l {A B} (a : A) (k : A -> Eff Ev St B) : bind (ret a) k ≡ k a.
Proof. intros s. unfold bind, ret; cbn. apply run_eta. Qed.

Lemma bind_ret_r {A} (m : Eff Ev St A) : bind m ret ≡ m.
Proof.
  intros s. unfold bind, ret; cbn. destruct (m s) as [[a|e] out s']; cbn; [|done].
  by rewrite app_nil_r.
Qed.

Lemma bind_assoc {A B C} (m : Eff Ev St A) (k : A -> Eff Ev St B) (h : B -> Eff Ev St C) :
  bind (bind m k) h ≡ bind m (fun a => bind (k a) h).
Proof.
  intros s. unfold bind. destruct (m s) as [[a|e] out s']; cbn; [|done].
  destruct (k a s') as [[b|e] out' s'']; cbn; [|done].
  by rewrite app_assoc.
Qed.

Lemma bind_throw {A B} (e : JsError) (k : A -> Eff Ev St B) : bind (throw e) k ≡ throw e.
Proof. done. Qed.

Lemma tryCatch_ret {A} (a : A) (h : JsError -> Eff Ev St A) : tryCatch (ret a) h ≡ ret a.
Proof. done. Qed.

Lemma tryCatch_throw {A} (e : JsError) (h : JsError -> Eff Ev St A) :
  tryCatch (throw e) h ≡ h e.
Proof. intros s. unfold tryCatch, throw; cbn. apply run_eta. Qed.

(** *** Run equations *)

Lemma run_bind_Normal {A B} (m : Eff Ev St A) (k : A -> Eff Ev St B) s a :
  outcome (m s) = Normal a ->
  bind m k s =
  MkRun (outcome (k a (final (m s))))
        (emitted (m s) ++ emitted (k a (final (m s))))
        (final (k a (final (m s)))).
Proof. intros H. unfold bind. by rewrite H. Qed.

Lemma run_bind_Throw {A B} (m : Eff Ev St A) (k : A -> Eff Ev St B) s e :
  outcome (m s) = Throw e ->
  bind m k s = MkRun (Throw e) (emitted (m s)) (final (m s)).
Proof. intros H. unfold bind. by rewrite H. Qed.

(** What ran first was emitted first: a continuation only adds effects. *)
Lemma emitted_bind_prefix {A B} (m : Eff Ev St A) (k : A -> Eff Ev St B) s :
  emitted (m s) `prefix_of` emitted (bind m k s).
Proof.
  unfold bind. destruct (outcome (m s)); cbn; [by apply prefix_app_r|done].
Qed.

Lemma outcome_bind_Normal {A B} (m : Eff Ev St A) (k : A -> Eff Ev St B) s b :
  outcome (bind m k s) = Normal b <->
  exists a, outcome (m s) = Normal a /\ outcome (k a (final (m s))) = Normal b.
Proof.
  unfold bind. destruct (outcome (m s)) as [a|e]; cbn; split.
  - intros ?. by exists a.
  - by intros (? & [= <-] & ?).
  - done.
  - by intros (? & ? & _).
Qed.

(** *** Lifted pure code *)

Lemma liftC_pure {A} (c : Completion A) : pure_eff (liftC (Ev:=Ev) (St:=St) c).
Proof. done. Qed.

Lemma liftC_cbind {A B} (c : Completion A) (k : A -> Completion B) :
  bind (liftC c) (fun a => liftC (k a)) ≡ liftC (Ev:=Ev) (St:=St) (cbind c k).
Proof. intros s. unfold bind, liftC; cbn. by destruct c. Qed.

Lemma bind_liftC_Normal {A B} (c : Completion A) (k : A -> Eff Ev St B) a :
  c = Normal a -> bind (liftC c) k ≡ k a.
Proof. intros -> s. unfold bind, liftC; cbn. apply run_eta. Qed.

Lemma bind_liftC_Throw {A B} (c : Completion A) (k : A -> Eff Ev St B) e :
  c = Throw e -> bind (liftC c) k ≡ throw e.
Proof. by intros -> s. Qed.

(** *** Traversals *)

#[export] Instance forEach_proper {A} :
  Proper (pointwise_relation A (≡) ==> (=) ==> (≡)) (@forEach Ev St A).
Proof.
  intros f g Hfg xs ? <-. induction xs as [|x xs IH]; [done|].
  cbn. apply bind_proper; [apply Hfg|]. intros _. apply IH.
Qed.

Lemma forEach_app {A} (f : A -> Eff Ev St unit) (xs ys : list A) :
  forEach f (xs ++ ys) ≡ bind (forEach f xs) (fun _ => forEach f ys).
Proof.
  induction xs as [|x xs IH]; cbn.
  - by rewrite bind_ret_l.
  - rewrite bind_assoc. by setoid_rewrite IH.
Qed.

(** A traversal emits the effects of its steps in the order of the list: the
    effects of the elements before the first throw, then nothing. *)
Lemma forEach_prefix {A} (f : A -> Eff Ev St unit) (xs ys : list A) s :
  emitted (forEach f xs s) `prefix_of` emitted (forEach f (xs ++ ys) s).
Proof. rewrite (forEach_app f xs ys s). apply emitted_bind_prefix. Qed.

(** A traversal only runs its callback on the elements of the list. *)
Lemma mapE_ext {A B} (f g : A -> Eff Ev St B) (xs : list A) :
  Forall (fun x => f x ≡ g x) xs -> mapE f xs ≡ mapE g xs.
Proof.
  induction 1 as [|x xs Hx _ IH]; [done|]. cbn.
  apply bind_proper; [done|]. intros y.
  apply bind_proper; [done|]. by intros ys.
Qed.

Lemma forEach_ext {A} (f g : A -> Eff Ev St unit) (xs : list A) :
  Forall (fun x => f x ≡ g x) xs -> forEach f xs ≡ forEach g xs.
Proof.
  induction 1 as [|x xs Hx _ IH]; [done|]. cbn.
  apply bind_proper; [done|]. by intros _.
Qed.

(** A loop whose callback only emits one event per element. *)
Lemma forEach_emit {A} (f : A -> Eff Ev St unit) (g : A -> Ev) (xs : list A) s :
  Forall (fun x => f x ≡ emit (g x)) xs ->
  forEach f xs s = MkRun (Normal tt) (g <$> xs) s.
Proof.
  intros Hf. rewrite (forEach_ext f (fun x => emit (g x)) xs Hf s). clear Hf.
  induction xs as [|x xs IH]; [done|]. cbn. unfold bind; cbn. by rewrite IH.
Qed.

(** Mapping a pure callback that may throw is [mapC], lifted. *)
Lemma mapE_liftC {A B} (f : A -> Completion B) (xs : list A) :
  mapE (fun x => liftC (f x)) xs ≡ liftC (Ev:=Ev) (St:=St) (mapC f xs).
Proof.
  induction xs as [|x xs IH]; [done|]. cbn. setoid_rewrite IH.
  intros s. unfold bind, liftC, ret; cbn.
  destruct (f x); cbn; [|done]. by destruct (mapC f xs).
Qed.

Lemma mapE_liftC_ext {A B} (f : A -> Eff Ev St B) (g : A -> Completion B) (xs : list A) :
  Forall (fun x => f x ≡ liftC (g x)) xs -> mapE f xs ≡ liftC (mapC g xs).
Proof. intros Hf. rewrite <- mapE_liftC. by apply mapE_ext. Qed.

Lemma mapE_fmap {A B C} (f : B -> Eff Ev St C) (h : A -> B) (xs : list A) :
  mapE f (h <$> xs) ≡ mapE (fun x => f (h x)) xs.
Proof.
  induction xs as [|x xs IH]; [done|]. cbn.
  apply bind_proper; [done|]. intros y. by apply bind_proper.
Qed.

(** *** Computations that never throw *)

Lemma total_ret {A} (a : A) : total_eff (ret (Ev:=Ev) (St:=St) a).
Proof. done. Qed.

Lemma total_emit (e : Ev) : total_eff (emit (St:=St) e).
Proof. done. Qed.

Lemma total_bind {A B} (m : Eff Ev St A) (k : A -> Eff Ev St B) :
  total_eff m -> (forall a, total_eff (k a)) -> total_eff (bind m k).
Proof.
  intros Hm Hk s. unfold bind. specialize (Hm s).
  destruct (outcome (m s)) as [a|]; [|done]. apply Hk.
Qed.

Lemma total_forEach {A} (f : A -> Eff Ev St unit) (xs : list A) :
  Forall (fun x => total_eff (f x)) xs -> total_eff (forEach f xs).
Proof.
  induction 1 as [|x xs Hx _ IH]; [apply total_ret|].
  cbn. by apply total_bind.
Qed.

Lemma total_unit (m : Eff Ev St unit) s : total_eff m -> outcome (m s) = Normal ().
Proof. intros Hm. specialize (Hm s). by destruct (outcome (m s)) as [[]|]. Qed.

(** A handler that never throws makes the whole [try] total. *)
Lemma total_tryCatch {A} (m : Eff Ev St A) (h : JsError -> Eff Ev St A) :
  (forall e, total_eff (h e)) -> total_eff (tryCatch m h).
Proof.
  intros Hh s. unfold tryCatch. destruct (outcome (m s)) as [a|e] eqn:Hm.
  - by rewrite Hm.
  - apply Hh.
Qed.

(** *** Computations that follow a script *)

Lemma follows_ret {A} (a : A) : follows (ret (Ev:=Ev) (St:=St) a) [].
Proof. done. Qed.

Lemma follows_emit (e : Ev) : follows (emit (St:=St) e) [e].
Proof. done. Qed.

Lemma follows_bind {A B} (m : Eff Ev St A) (k : A -> Eff Ev St B) (o1 o2 : list Ev) :
  follows m o1 -> (forall a, follows (k a) o2) -> follows (bind m k) (o1 ++ o2).
Proof.
  intros Hm Hk s. destruct (Hm s) as [Hpre Hall]. unfold bind.
  destruct (outcome (m s)) as [a|e]; cbn.
  - rewrite Hall by done. destruct (Hk a (final (m s))) as [Hpre' Hall'].
    split; [by apply prefix_app | intros Hn; by rewrite Hall'].
  - split; [by apply prefix_app_r | done].
Qed.

Lemma follows_forEach {A} (f : A -> Eff Ev St unit) (g : A -> list Ev) (xs : list A) :
  Forall (fun x => follows (f x) (g x)) xs -> follows (forEach f xs) (flat_map g xs).
Proof.
  induction 1 as [|x xs Hx _ IH]; [apply follows_ret|].
  cbn. by apply follows_bind.
Qed.

(** A total computation that follows a script emits exactly the script. *)
Lemma follows_total {A} (m : Eff Ev St A) (out : list Ev) s :
  follows m out -> total_eff m -> emitted (m s) = out.
Proof. intros Hm Ht. by apply Hm. Qed.

(** *** The exceptions of a computation *)

Lemma throws_only_total {A} (P : JsError -> Prop) (m : Eff Ev St A) :
  total_eff m -> throws_only P m.
Proof. intros Hm s e He. specialize (Hm s). by rewrite He in Hm. Qed.

Lemma throws_only_bind {A B} (P : JsError -> Prop) (m : Eff Ev St A) (k : A -> Eff Ev St B) :
  throws_only P m -> (forall a, throws_only P (k a)) -> throws_only P (bind m k).
Proof.
  intros Hm Hk s e. unfold bind. destruct (outcome (m s)) as [a|e'] eqn:Hs; cbn.
  - apply Hk.
  - intros [= <-]. by apply (Hm s).
Qed.

Lemma throws_only_forEach {A} (P : JsError -> Prop) (f : A -> Eff Ev St unit) (xs : list A) :
  Forall (fun x => throws_only P (f x)) xs -> throws_only P (forEach f xs).
Proof.
  induction 1 as [|x xs Hx _ IH]; [by apply throws_only_total, total_ret|].
  cbn. by apply throws_only_bind.
Qed.

(** *** Falling short of a script *)

Section FallsShort.
Context (size : list Ev -> nat).
Hypothesis size_app : forall l1 l2, size (l1 ++ l2) = size l1 + size l2.

Lemma falls_short_total {A} (m : Eff Ev St A) (out : list Ev) :
  total_eff m -> falls_short size m out.
Proof. intros Hm s Hs. by rewrite (Hm s) in Hs. Qed.

Lemma falls_short_bind {A B} (m : Eff Ev St A) (k : A -> Eff Ev St B) (o1 o2 : list Ev) :
  follows m o1 -> falls_short size m o1 ->
  (forall a, falls_short size (k a) o2) ->
  falls_short size (bind m k) (o1 ++ o2).
Proof.
  intros Hfollows Hm Hk s. unfold bind. rewrite size_app.
  destruct (outcome (m s)) as [a|e] eqn:Hs; cbn.
  - intros Hthrow. destruct (Hfollows s) as [_ Hall].
    rewrite size_app, Hall by (by rewrite Hs).
    specialize (Hk a (final (m s)) Hthrow). lia.
  - intros _. assert (size (emitted (m s)) < size o1); [|lia].
    apply Hm. by rewrite Hs.
Qed.

Lemma falls_short_forEach {A} (f : A -> Eff Ev St unit) (g : A -> list Ev) (xs : list A) :
  Forall (fun x => follows (f x) (g x) /\ falls_short size (f x) (g x)) xs ->
  falls_short size (forEach f xs) (flat_map g xs).
Proof.
  induction 1 as [|x xs [Hx Hx'] _ IH]; [by apply falls_short_total, total_ret|].
  cbn. by apply falls_short_bind.
Qed.

End FallsShort.

#[export] Instance follows_proper {A} : Proper ((≡) ==> (=) ==> iff) (@follows Ev St A).
Proof.
  intros m1 m2 Hm out ? <-. unfold follows.
  split; intros H s; [rewrite <- (Hm s) | rewrite (Hm s)]; apply H.
Qed.

#[export] Instance total_proper {A} : Proper ((≡) ==> iff) (@total_eff Ev St A).
Proof.
  intros m1 m2 Hm. unfold total_eff.
  split; intros H s; [rewrite <- (Hm s) | rewrite (Hm s)]; apply H.
Qed.

End EffFacts.

#[export] Hint Rewrite @string_app_nil_r @string_app_nil_l @string_app_assoc : eff.
#[export] Hint Rewrite @app_nil_r @app_nil_l : eff.

#[export] Hint Resolve total_ret total_emit total_tryCatch follows_ret follows_emit : eff.

(** Unfolds the primitive computations in the goal and simplifies. *)
Ltac eff_unfold :=
  unfold bind, ret, throw, tryCatch, emit, liftC in *; cbn in *.

(** Proves that a computation built from [ret], [emit], [bind], [forEach],
    [tryCatch] and conditionals returns, leaving to [eauto] with the
    database [eff] the computations it does not know. *)
Ltac eff_total :=
  repeat match goal with
    | |- total_eff (ret _) => apply total_ret
    | |- total_eff (emit _) => apply total_emit
    | |- total_eff (bind _ _) => apply total_bind; [|intros ?]
    | |- total_eff (forEach _ _) => apply total_forEach, Forall_forall; intros ? _
    | |- total_eff (if ?b then _ else _) => destruct b
    end;
  eauto with eff.
