(* ===== verification/Json.v ===== *)
(** * JSON values, truthiness and [JSON.stringify]

    The [input] of a schedule event is whatever the service's configuration
    holds there.  [json] is the type of these values, [truthy] the test
    JavaScript's [||] applies to them, and [stringify] the text
    [JSON.stringify] prints in the scheduling notice: no white space, the
    properties of an object in the order of its property list, strings
    between double quotes with the escapes of ECMAScript's QuoteJSONString.
    Numbers are integers, printed in decimal (JavaScript switches to the
    exponent form from 10^21 on, which is outside the model). *)

From Stdlib Require Import String Ascii NArith ZArith Lia.
From stdpp Require Import base tactics option list strings.
From S2P Require Import Prelude.

#[local] Unset Elimination Schemes.
Inductive json : Type :=
| JNull
| JBool (b : bool)
| JNumber (n : Z)
| JString (s : string)
| JArray (items : list json)
| JObject (props : list (string * json)).
#[local] Set Elimination Schemes.

(** The empty object literal. *)
Definition emptyObject : json := JObject [].

(** ToBoolean: what [if] and [||] see. *)
Definition truthy (j : json) : bool :=
  match j with
  | JNull => false
  | JBool b => b
  | JNumber n => negb (n =? 0)%Z
  | JString s => negb (String.eqb s "")
  | JArray _ | JObject _ => true
  end.

(** [a || b] on an optional value: [b] when [a] is missing or falsy. *)
Definition orElse (a : option json) (b : json) : json :=
  match a with
  | Some j => if truthy j then j else b
  | None => b
  end.

Definition hex_digit (n : N) : ascii :=
  match n with
  | 0 => "0" | 1 => "1" | 2 => "2" | 3 => "3" | 4 => "4" | 5 => "5"
  | 6 => "6" | 7 => "7" | 8 => "8" | 9 => "9" | 10 => "a" | 11 => "b"
  | 12 => "c" | 13 => "d" | 14 => "e" | _ => "f"
  end%N%char.

(** One character inside a JSON string literal: the quote and the backslash
    are escaped, the control characters have their short escape or
    [\u00xx], every other character stands for itself. *)
Definition escape_char (c : ascii) : string :=
  let n := N_of_ascii c in
  if (n =? 34)%N then bslash +:+ dquote
  else if (n =? 92)%N then bslash +:+ bslash
  else if (n =? 8)%N then bslash +:+ "b"
  else if (n =? 9)%N then bslash +:+ "t"
  else if (n =? 10)%N then bslash +:+ "n"
  else if (n =? 12)%N then bslash +:+ "f"
  else if (n =? 13)%N then bslash +:+ "r"
  else if (n <? 32)%N then
    bslash +:+ "u00" +:+ String (hex_digit (n / 16)) (String (hex_digit (n mod 16)) "")
  else String c "".

Fixpoint escape_string (s : string) : string :=
  match s with
  | EmptyString => ""
  | String c s' => escape_char c +:+ escape_string s'
  end.

(** QuoteJSONString. *)
Definition quote_string (s : string) : string :=
  dquote +:+ escape_string s +:+ dquote.

(** [String(n)] for an integer. *)
Definition Z_to_string (n : Z) : string :=
  match n with
  | Z0 => "0"
  | Zpos p => N_to_string (Npos p)
  | Zneg p => "-" +:+ N_to_string (Npos p)
  end.

(** [JSON.stringify(j)]. *)
Fixpoint stringify (j : json) : string :=
  match j with
  | JNull => "null"
  | JBool true => "true"
  | JBool false => "false"
  | JNumber n => Z_to_string n
  | JString s => quote_string s
  | JArray items => "[" +:+ join "," (map stringify items) +:+ "]"
  | JObject props =>
      "{" +:+ join "," (map (fun kv => quote_string kv.1 +:+ ":" +:+ stringify kv.2) props)
          +:+ "}"
  end.

(** The size of a value: the number of its constructors. *)
Fixpoint json_size (j : json) : nat :=
  match j with
  | JArray items => S (list_sum (map json_size items))
  | JObject props => S (list_sum (map (fun kv => json_size kv.2) props))
  | _ => 1
  end.

(** Induction on values with the hypothesis for every element of an array
    and every property of an object. *)
Lemma json_induction (P : json -> Prop) :
  P JNull ->
  (forall b, P (JBool b)) ->
  (forall n, P (JNumber n)) ->
  (forall s, P (JString s)) ->
  (forall items, Forall P items -> P (JArray items)) ->
  (forall props, Forall (fun kv => P kv.2) props -> P (JObject props)) ->
  forall j, P j.
Proof.
  intros Hnull Hbool Hnum Hstr Harr Hobj.
  fix IH 1. intros [| b | n | s | items | props].
  - exact Hnull.
  - apply Hbool.
  - apply Hnum.
  - apply Hstr.
  - apply Harr. induction items as [|j items IHitems]; constructor;
      [apply IH | exact IHitems].
  - apply Hobj. induction props as [|[k j] props IHprops]; constructor;
      [apply IH | exact IHprops].
Qed.

#[export] Instance json_eq_dec : EqDecision json.
Proof.
  refine (fix go (x y : json) {struct x} : Decision (x = y) :=
    match x, y with
    | JNull, JNull => left _
    | JBool a, JBool b => cast_if (decide (a = b))
    | JNumber a, JNumber b => cast_if (decide (a = b))
    | JString a, JString b => cast_if (decide (a = b))
    | JArray a, JArray b =>
        cast_if (@list_eq_dec json go a b)
    | JObject a, JObject b =>
        cast_if (@list_eq_dec (string * json) (@prod_eq_dec string _ json go) a b)
    | _, _ => right _
    end); abstract congruence.
Defined.

Lemma truthy_orElse (a : option json) (b : json) :
  truthy b = true -> truthy (orElse a b) = true.
Proof. intros Hb. destruct a as [j|]; cbn; [|done]. by destruct (truthy j) eqn:?. Qed.

Lemma orElse_truthy (j b : json) : truthy j = true -> orElse (Some j) b = j.
Proof. intros H. cbn. by rewrite H. Qed.

Lemma orElse_falsy (j b : json) : truthy j = false -> orElse (Some j) b = b.
Proof. intros H. cbn. by rewrite H. Qed.

(** An object or an array is never replaced by the default. *)
Lemma orElse_object (props : list (string * json)) (b : json) :
  orElse (Some (JObject props)) b = JObject props.
Proof. done. Qed.

Lemma escape_char_nonempty (c : ascii) : escape_char c <> "".
Proof.
  unfold escape_char. repeat case_match; try done;
    by destruct (bslash) eqn:?.
Qed.

Lemma escape_string_app (s1 s2 : string) :
  escape_string (s1 +:+ s2) = escape_string s1 +:+ escape_string s2.
Proof.
  induction s1 as [|c s1 IH]; [done|].
  rewrite string_app_cons. cbn. by rewrite IH, string_app_assoc.
Qed.

(** Escaping never shortens a string. *)
Lemma escape_string_length (s : string) :
  String.length s <= String.length (escape_string s).
Proof.
  induction s as [|c s IH]; [done|]. cbn. rewrite string_length_app.
  pose proof (escape_char_nonempty c). destruct (escape_char c); [done|]. cbn. lia.
Qed.

Lemma stringify_empty_object : stringify emptyObject = "{}".
Proof. done. Qed.
