(* ===== verification/JsonRead.v ===== *)
(** * Reading JSON text back

    The scheduling notice shows the input of a function as
    [JSON.stringify] prints it.  This file defines a reader of that text,
    [parse_json], and proves that it gives back the value [stringify]
    printed: the text of a notice determines the input.

    The reader is a recursive descent over the characters.  Strings and
    numbers are read by structural recursion on the text; values, the
    elements of an array and the properties of an object are read by three
    mutually recursive functions on a fuel, and [parse_json] takes the
    length of the text as fuel.  [parse_stringify] shows that this is
    always enough for a text [stringify] printed. *)

From Stdlib Require Import String Ascii NArith ZArith Lia.
From stdpp Require Import base tactics option list strings.
From S2P Require Import Prelude Json.

(** The double quote and the backslash, as characters. *)
Definition dquote_char : ascii := "034"%char.
Definition bslash_char : ascii := "092"%char.

(** The value of a hexadecimal digit. *)
Definition unhex (c : ascii) : option N :=
  let n := N_of_ascii c in
  if (48 <=? n)%N && (n <=? 57)%N then Some (n - 48)%N
  else if (97 <=? n)%N && (n <=? 102)%N then Some (n - 87)%N
  else if (65 <=? n)%N && (n <=? 70)%N then Some (n - 55)%N
  else None.

(** The character a one-letter escape stands for. *)
Definition unescape (e : ascii) : option ascii :=
  if decide (e = dquote_char) then Some dquote_char
  else if decide (e = bslash_char) then Some bslash_char
  else if decide (e = "/"%char) then Some "/"%char
  else if decide (e = "b"%char) then Some "008"%char
  else if decide (e = "t"%char) then Some "009"%char
  else if decide (e = "n"%char) then Some "010"%char
  else if decide (e = "f"%char) then Some "012"%char
  else if decide (e = "r"%char) then Some "013"%char
  else None.

(** The characters of a string literal after its opening quote, up to the
    closing quote, and the text after it.  Escapes above the code 255 are
    outside the characters of the model. *)
Fixpoint parse_chars (s : string) : option (string * string) :=
  match s with
  | EmptyString => None
  | String c s' =>
      if decide (c = dquote_char) then Some (EmptyString, s')
      else if decide (c = bslash_char) then
        match s' with
        | EmptyString => None
        | String e s'' =>
            if decide (e = "u"%char) then
              match s'' with
              | String h1 (String h2 (String h3 (String h4 s3))) =>
                  match unhex h1, unhex h2, unhex h3, unhex h4 with
                  | Some 0%N, Some 0%N, Some a, Some b =>
                      '(r, rest) ← parse_chars s3;
                      Some (String (ascii_of_N (16 * a + b)) r, rest)
                  | _, _, _, _ => None
                  end
              | _ => None
              end
            else
              c' ← unescape e;
              '(r, rest) ← parse_chars s'';
              Some (String c' r, rest)
        end
      else if (N_of_ascii c <? 32)%N then None
      else '(r, rest) ← parse_chars s'; Some (String c r, rest)
  end.

(** A non-empty run of decimal digits. *)
Definition parse_nat (s : string) : option (N * string) :=
  let '(digits, rest) := span is_digit s in
  n ← N_of_string digits; Some (n, rest).

(** An integer: an optional minus sign and digits. *)
Definition parse_number (s : string) : option (Z * string) :=
  match s with
  | String c s' =>
      if decide (c = "-"%char)
      then '(n, rest) ← parse_nat s'; Some (Z.opp (Z.of_N n), rest)
      else '(n, rest) ← parse_nat s; Some (Z.of_N n, rest)
  | EmptyString => None
  end.

(** What may follow a value: the end of the text or a character that is
    no digit. *)
Definition ends_number (rest : string) : Prop :=
  match rest with
  | EmptyString => True
  | String c _ => is_digit c = false
  end.

(** After an element or a property [x]: a comma and what [more] reads, or
    the closing character. *)
Definition parse_more {A} (close : ascii) (more : string -> option (list A * string))
    (x : A) (s : string) : option (list A * string) :=
  match s with
  | String c rest =>
      if decide (c = ","%char) then '(xs, rest') ← more rest; Some (x :: xs, rest')
      else if decide (c = close) then Some ([x], rest)
      else None
  | EmptyString => None
  end.

(** A property: its name between quotes, a colon, and what [value] reads. *)
Definition parse_prop (value : string -> option (json * string)) (s : string)
    : option ((string * json) * string) :=
  s0 ← strip_prefix dquote s;
  '(k, s1) ← parse_chars s0;
  s2 ← strip_prefix ":" s1;
  '(v, s3) ← value s2;
  Some ((k, v), s3).

(** A value; the elements of an array after its opening bracket, when it
    is not empty; the properties of an object after its opening brace,
    when it is not empty. *)
Fixpoint parse_value (fuel : nat) (s : string) : option (json * string) :=
  match fuel, s with
  | S fuel, String c s' =>
      if decide (c = "n"%char) then rest ← strip_prefix "ull" s'; Some (JNull, rest)
      else if decide (c = "t"%char) then rest ← strip_prefix "rue" s'; Some (JBool true, rest)
      else if decide (c = "f"%char) then rest ← strip_prefix "alse" s'; Some (JBool false, rest)
      else if decide (c = dquote_char) then '(r, rest) ← parse_chars s'; Some (JString r, rest)
      else if decide (c = "["%char) then
        match strip_prefix "]" s' with
        | Some rest => Some (JArray [], rest)
        | None => '(items, rest) ← parse_items fuel s'; Some (JArray items, rest)
        end
      else if decide (c = "{"%char) then
        match strip_prefix "}" s' with
        | Some rest => Some (JObject [], rest)
        | None => '(props, rest) ← parse_props fuel s'; Some (JObject props, rest)
        end
      else '(n, rest) ← parse_number s; Some (JNumber n, rest)
  | _, _ => None
  end
with parse_items (fuel : nat) (s : string) : option (list json * string) :=
  match fuel with
  | S fuel =>
      '(v, s1) ← parse_value fuel s;
      parse_more "]" (parse_items fuel) v s1
  | 0 => None
  end
with parse_props (fuel : nat) (s : string) : option (list (string * json) * string) :=
  match fuel with
  | S fuel =>
      '(kv, s1) ← parse_prop (parse_value fuel) s;
      parse_more "}" (parse_props fuel) kv s1
  | 0 => None
  end.

(** [JSON.parse] on the texts of the model: the whole text is one value. *)
Definition parse_json (s : string) : option json :=
  match parse_value (String.length s) s with
  | Some (j, EmptyString) => Some j
  | _ => None
  end.

(** The fuel the reader needs for a value. *)
Fixpoint json_fuel (j : json) : nat :=
  match j with
  | JArray items => S (list_sum (map (fun v => S (json_fuel v)) items))
  | JObject props => S (list_sum (map (fun kv => S (json_fuel kv.2)) props))
  | _ => 1
  end.

(** ** String literals *)

(** Reading the escape of a character gives the character back. *)
Lemma parse_chars_escape (c : ascii) (t : string) :
  parse_chars (escape_char c +:+ t) =
  '(r, rest) ← parse_chars t; Some (String c r, rest).
Proof. by destruct c as [[] [] [] [] [] [] [] []]. Qed.

Lemma parse_chars_escape_string (s rest : string) :
  parse_chars (escape_string s +:+ String dquote_char rest) = Some (s, rest).
Proof.
  induction s as [|c s IH]; [done|]. cbn [escape_string].
  by rewrite string_app_assoc, parse_chars_escape, IH.
Qed.

Lemma quote_string_app (s rest : string) :
  quote_string s +:+ rest = String dquote_char (escape_string s +:+ String dquote_char rest).
Proof.
  unfold quote_string, dquote. by rewrite !string_app_assoc.
Qed.

(** ** Numbers *)

Lemma span_ends (l rest : string) :
  string_forallb is_digit l = true -> ends_number rest ->
  span is_digit (l +:+ rest) = (l, rest).
Proof.
  intros Hl Hrest. destruct rest as [|b rest]; [|by apply span_stop].
  rewrite string_app_nil_r. clear Hrest.
  induction l as [|a l IH]; [done|]. cbn in *. apply andb_prop in Hl as [-> Hl].
  by rewrite IH.
Qed.

Lemma parse_nat_string (n : N) (rest : string) :
  ends_number rest -> parse_nat (N_to_string n +:+ rest) = Some (n, rest).
Proof.
  intros Hrest. unfold parse_nat.
  rewrite span_ends by (done || apply N_to_string_digits). by rewrite N_of_to_string.
Qed.

(** A printed natural number begins with a digit. *)
Lemma N_to_string_head (n : N) :
  exists c s, N_to_string n = String c s /\ is_digit c = true.
Proof.
  pose proof (N_to_string_digits n) as Hd. pose proof (N_to_string_nonempty n) as Hne.
  destruct (N_to_string n) as [|c s]; [done|]. cbn in Hd.
  apply andb_prop in Hd as [Hc _]. by exists c, s.
Qed.

Lemma parse_number_N (n : N) (rest : string) :
  ends_number rest -> parse_number (N_to_string n +:+ rest) = Some (Z.of_N n, rest).
Proof.
  intros Hrest. destruct (N_to_string_head n) as (c & s & Hs & Hc).
  pose proof (parse_nat_string n rest Hrest) as Hnat. rewrite Hs in *.
  rewrite string_app_cons in *. cbn [parse_number].
  rewrite decide_False by (by intros ->). by rewrite Hnat.
Qed.

Lemma parse_number_string (z : Z) (rest : string) :
  ends_number rest -> parse_number (Z_to_string z +:+ rest) = Some (z, rest).
Proof.
  intros Hrest. destruct z as [|p|p]; cbn [Z_to_string].
  - by apply (parse_number_N 0).
  - by apply (parse_number_N (N.pos p)).
  - rewrite string_app_assoc, string_app_cons, string_app_nil_l. cbn [parse_number].
    rewrite decide_True by done. by rewrite parse_nat_string.
Qed.

(** ** Values *)

(** The reader gives back a value, whatever follows its text that cannot
    prolong a number, when the fuel is enough. *)
Definition reads (j : json) : Prop :=
  forall fuel rest,
    json_fuel j <= fuel -> ends_number rest ->
    parse_value fuel (stringify j +:+ rest) = Some (j, rest).

(** How the text of a value begins: with the character that tells its
    kind, never with a closing bracket or brace. *)
Definition starts_value (c : ascii) : Prop :=
  c <> "]"%char /\ c <> "}"%char /\ c <> ","%char /\ c <> ":"%char.

Lemma Z_to_string_head (z : Z) :
  exists c s, Z_to_string z = String c s /\ (c = "-"%char \/ is_digit c = true).
Proof.
  destruct z as [|p|p]; cbn [Z_to_string].
  - exists "0"%char, "". by split; [|right].
  - destruct (N_to_string_head (N.pos p)) as (c & s & -> & Hc). exists c, s. auto.
  - exists "-"%char, (N_to_string (N.pos p)). by split; [|left].
Qed.

Lemma stringify_head (j : json) :
  exists c s, stringify j = String c s /\ starts_value c.
Proof.
  destruct j as [|[]|z|s|items|props]; cbn [stringify];
    try (by eexists _, _; split; [reflexivity|]).
  destruct (Z_to_string_head z) as (c & s & -> & Hc). exists c, s.
  split; [done|]. repeat split; intros ->; by destruct Hc.
Qed.

Lemma reads_number (z : Z) : reads (JNumber z).
Proof.
  intros [|fuel] rest Hfuel Hrest; [cbn in Hfuel; lia|].
  pose proof (parse_number_string z rest Hrest) as Hnum. cbn [stringify] in *.
  destruct (Z_to_string_head z) as (c & s & Hs & Hc). rewrite Hs in *.
  rewrite string_app_cons in *. cbn [parse_value].
  rewrite !decide_False by (intros ->; by destruct Hc). by rewrite Hnum.
Qed.

Lemma reads_string (s : string) : reads (JString s).
Proof.
  intros [|fuel] rest Hfuel Hrest; [cbn in Hfuel; lia|].
  cbn [stringify]. rewrite quote_string_app. cbn [parse_value].
  rewrite !decide_False, decide_True by done. by rewrite parse_chars_escape_string.
Qed.

Lemma parse_more_comma {A} (close : ascii) more (x : A) (s : string) :
  parse_more close more x ("," +:+ s) = '(xs, rest) ← more s; Some (x :: xs, rest).
Proof. done. Qed.

Lemma parse_more_close {A} (close : ascii) more (x : A) (s : string) :
  close <> ","%char -> parse_more close more x (String close s) = Some ([x], s).
Proof. intros Hclose. cbn. by rewrite decide_False, decide_True. Qed.

(** A property whose value the reader gives back. *)
Lemma parse_prop_stringify (fuel : nat) (k : string) (v : json) (rest : string) :
  reads v -> json_fuel v <= fuel -> ends_number rest ->
  parse_prop (parse_value fuel) (quote_string k +:+ ":" +:+ stringify v +:+ rest)
  = Some ((k, v), rest).
Proof.
  intros Hv Hfuel Hrest. unfold parse_prop, quote_string.
  rewrite !string_app_assoc, strip_prefix_app. cbn [mbind option_bind].
  change (dquote +:+ ?s) with (String dquote_char s).
  rewrite parse_chars_escape_string. cbn [mbind option_bind].
  by rewrite strip_prefix_app; cbn [mbind option_bind]; rewrite Hv.
Qed.

(** The elements of a non-empty array, up to its closing bracket. *)
Lemma parse_items_join (items : list json) (fuel : nat) (rest : string) :
  Forall reads items -> items <> [] ->
  list_sum (map (fun v => S (json_fuel v)) items) <= fuel ->
  parse_items fuel (join "," (map stringify items) +:+ String "]" rest) = Some (items, rest).
Proof.
  intros Hitems. revert fuel. induction Hitems as [|v items Hv _ IH]; [done|].
  intros [|fuel] _ Hfuel; cbn in Hfuel; [lia|]. cbn [parse_items].
  destruct items as [|v' items].
  - cbn [map join String.concat]. rewrite Hv by (done || lia). cbn [mbind option_bind].
    by apply parse_more_close.
  - change (join "," (map stringify (v :: v' :: items)))
      with (stringify v +:+ "," +:+ join "," (map stringify (v' :: items))).
    rewrite !string_app_assoc. rewrite Hv by (done || lia). cbn [mbind option_bind].
    rewrite parse_more_comma, IH by (done || cbn in *; lia). done.
Qed.

(** The properties of a non-empty object, up to its closing brace. *)
Lemma parse_props_join (props : list (string * json)) (fuel : nat) (rest : string) :
  Forall (fun kv => reads kv.2) props -> props <> [] ->
  list_sum (map (fun kv => S (json_fuel kv.2)) props) <= fuel ->
  parse_props fuel
    (join "," (map (fun kv => quote_string kv.1 +:+ ":" +:+ stringify kv.2) props)
       +:+ String "}" rest)
  = Some (props, rest).
Proof.
  intros Hprops. revert fuel. induction Hprops as [|[k v] props Hv _ IH]; [done|].
  intros [|fuel] _ Hfuel; cbn in Hfuel; [lia|]. cbn [parse_props]. cbn [fst snd] in *.
  destruct props as [|kv' props].
  - cbn [map join String.concat fst snd]. rewrite !string_app_assoc.
    rewrite parse_prop_stringify by (done || lia). cbn [mbind option_bind].
    by apply parse_more_close.
  - change (join "," (map ?f ((k, v) :: kv' :: props)))
      with ((quote_string k +:+ ":" +:+ stringify v) +:+ "," +:+ join "," (map f (kv' :: props))).
    rewrite !string_app_assoc.
    rewrite parse_prop_stringify by (done || lia). cbn [mbind option_bind].
    rewrite parse_more_comma, IH by (done || cbn in *; lia). done.
Qed.

(** The text of a value does not begin as the closing of an array or an
    object does. *)
Lemma strip_prefix_head (close : ascii) (c : ascii) (s : string) :
  c <> close -> strip_prefix (String close "") (String c s) = None.
Proof. intros Hc. cbn. by rewrite decide_False. Qed.

Lemma join_head (sep : string) (x : string) (xs : list string) (c : ascii) (s : string) :
  x = String c s -> exists s', join sep (x :: xs) = String c s'.
Proof. intros ->. destruct xs; cbn; eauto. Qed.

(** Every value is read back. *)
Lemma reads_all (j : json) : reads j.
Proof.
  induction j as [|b|z|s|items IH|props IH] using json_induction.
  - intros [|fuel] rest Hfuel _; [cbn in Hfuel; lia | done].
  - intros [|fuel] rest Hfuel _; [cbn in Hfuel; lia | by destruct b].
  - apply reads_number.
  - apply reads_string.
  - intros [|fuel] rest Hfuel Hrest; cbn in Hfuel; [lia|]. cbn [stringify].
    rewrite !string_app_assoc, string_app_cons, string_app_nil_l. cbn [parse_value].
    rewrite !decide_False, decide_True by done. destruct items as [|v items]; [done|].
    destruct (stringify_head v) as (c & s & Hv & Hc & _).
    destruct (join_head "," _ (map stringify items) c s Hv) as [s' Hs'].
    cbn [map]. rewrite Hs', string_app_cons, strip_prefix_head, <- string_app_cons, <- Hs' by done.
    change ("]" +:+ rest) with (String "]" rest).
    rewrite (parse_items_join (v :: items)); [done..|]. cbn in *; lia.
  - intros [|fuel] rest Hfuel Hrest; cbn in Hfuel; [lia|]. cbn [stringify].
    rewrite !string_app_assoc, string_app_cons, string_app_nil_l. cbn [parse_value].
    rewrite !decide_False, decide_True by done. destruct props as [|[k v] props]; [done|].
    cbn [map]. edestruct (join_head "," (quote_string k +:+ ":" +:+ stringify v)) as [s' Hs'];
      [by rewrite quote_string_app|].
    rewrite Hs', string_app_cons, strip_prefix_head, <- string_app_cons, <- Hs' by done.
    change ("}" +:+ rest) with (String "}" rest).
    rewrite (parse_props_join ((k, v) :: props)); [done..|]. cbn in *; lia.
Qed.

(** ** The fuel *)

(** The length of a joined list counts every piece and all separators but
    one. *)
Lemma join_length (xs : list string) :
  list_sum (map (fun x => S (String.length x)) xs) <= S (String.length (join "," xs)).
Proof.
  induction xs as [|x [|x' xs] IH]; cbn [map list_sum foldr join String.concat] in *; [lia..|].
  rewrite !string_length_app. cbn [String.length]. lia.
Qed.

Lemma list_sum_le {A} (f g : A -> nat) (xs : list A) :
  Forall (fun x => f x <= g x) xs -> list_sum (map f xs) <= list_sum (map g xs).
Proof. unfold list_sum. induction 1; cbn [map foldr]; lia. Qed.

(** The text of a value is at least as long as the fuel the reader needs
    for it. *)
Lemma json_fuel_length (j : json) : json_fuel j <= String.length (stringify j).
Proof.
  induction j as [|b|z|s|items IH|props IH] using json_induction; cbn [json_fuel stringify].
  - cbn; lia.
  - destruct b; cbn; lia.
  - destruct (Z_to_string_head z) as (c & s & -> & _). cbn; lia.
  - unfold quote_string, dquote. rewrite string_app_cons. cbn; lia.
  - rewrite !string_length_app. cbn [String.length].
    pose proof (join_length (map stringify items)) as Hjoin. rewrite map_map in Hjoin.
    pose proof (list_sum_le (fun v => S (json_fuel v))
                  (fun v => S (String.length (stringify v))) items) as Hle.
    rewrite Forall_forall in IH. rewrite Forall_forall in Hle. 
    specialize (Hle (fun v Hv => le_n_S _ _ (IH v Hv))). lia.
  - rewrite !string_length_app. cbn [String.length].
    pose proof (join_length (map (fun kv => quote_string kv.1 +:+ ":" +:+ stringify kv.2) props))
      as Hjoin. rewrite map_map in Hjoin.
    pose proof (list_sum_le (fun kv => S (json_fuel kv.2))
                  (fun kv => S (String.length (quote_string kv.1 +:+ ":" +:+ stringify kv.2)))
                  props) as Hle.
    rewrite Forall_forall in IH. rewrite Forall_forall in Hle.
    assert (forall kv, kv ∈ props ->
              S (json_fuel kv.2)
              <= S (String.length (quote_string kv.1 +:+ ":" +:+ stringify kv.2))) as Hkv.
    { intros kv Hkv. rewrite !string_length_app. specialize (IH kv Hkv). cbn in *. lia. }
    specialize (Hle Hkv). lia.
Qed.

(** ** The round trip *)

(** With the length of its text as fuel, a value is read back whole. *)
Lemma parse_value_stringify (j : json) :
  parse_value (String.length (stringify j)) (stringify j) = Some (j, "").
Proof.
  pose proof (reads_all j (String.length (stringify j)) "") as Hj.
  rewrite string_app_nil_r in Hj. by rewrite Hj by (done || apply json_fuel_length).
Qed.

(** C17: reading what [JSON.stringify] printed gives the value back.  For
    every value of the model, [parse_json] applied to its text returns the
    value itself: the fuel taken from the length of the text is enough,
    and a notice determines the input it shows. *)
Theorem parse_stringify (j : json) : parse_json (stringify j) = Some j.
Proof.
  unfold parse_json. by rewrite parse_value_stringify.
Qed.

(** Different values are printed differently. *)
#[export] Instance stringify_inj : Inj (=) (=) stringify.
Proof.
  intros j1 j2 H. pose proof (parse_value_stringify j1) as H1.
  rewrite H, parse_value_stringify in H1. by simplify_eq.
Qed.
