(* ===== verification/Cron.v ===== *)
(** * Rate expressions and cron schedules: [convertExpressionToCron]

    The scheduler calls [convertExpressionToCron] of [src/utils] on every
    rate of a schedule event.  That module is not among the sources, so the
    scheduler is verified against an interface: [Normalizer] is the
    function, whatever it is, and [NormalizerSpec] what the specification
    (section 4.1) promises of it: the input [rate(<n> <unit>)], with [<n>]
    a decimal numeral and [<unit>] one of minute, minutes, hour, hours,
    day, days, becomes the five-field schedule (minute, hour, day of
    month, month, day of week) with the step [*/n] in the field of the
    unit and [*] in the others; what it returns is always such a schedule;
    and when it fails it throws [InvalidExpression].

    [normalize] is the normalizer the specification describes, which
    accepts rate expressions and nothing else; it implements the
    interface ([normalize_spec]) and is the one the witnesses run.  A
    schedule is kept as a record ([CronSchedule]) and printed by
    [print_cron]; [parse_cron] reads the printed text back, so the
    expression a job is registered with determines its schedule. *)

From Stdlib Require Import String Ascii NArith Lia.
From stdpp Require Import base tactics option list strings.
From S2P Require Import Prelude.

Inductive RateUnit : Type := Minute | Hour | Day.

(** A field of a schedule: [*] or the step [*/n]. *)
Inductive CronField : Type :=
| Any
| Every (n : N).

Record CronSchedule : Type := MkCron {
  minute : CronField;
  hour : CronField;
  dayOfMonth : CronField;
  month : CronField;
  dayOfWeek : CronField;
}.

#[export] Instance RateUnit_eq_dec : EqDecision RateUnit.
Proof. solve_decision. Defined.

#[export] Instance CronField_eq_dec : EqDecision CronField.
Proof. solve_decision. Defined.

#[export] Instance CronSchedule_eq_dec : EqDecision CronSchedule.
Proof. solve_decision. Defined.

(** The unit a word names, singular or plural. *)
Definition unit_of_word (w : string) : option RateUnit :=
  if decide (w = "minute" \/ w = "minutes") then Some Minute
  else if decide (w = "hour" \/ w = "hours") then Some Hour
  else if decide (w = "day" \/ w = "days") then Some Day
  else None.

(** The unit named by the text up to the closing parenthesis, which must
    end the expression. *)
Definition unit_of_tail (tail : string) : option RateUnit :=
  match String.index 0 ")" tail with
  | Some i =>
      if decide (S i = String.length tail)
      then unit_of_word (String.substring 0 i tail)
      else None
  | None => None
  end.

(** The number and the unit of [rate(<n> <unit>)]. *)
Definition parse_rate (expression : string) : option (N * RateUnit) :=
  match strip_prefix "rate(" expression with
  | Some body =>
      let '(digits, rest) := span is_digit body in
      match N_of_string digits, strip_prefix " " rest with
      | Some n, Some tail =>
          match unit_of_tail tail with
          | Some u => Some (n, u)
          | None => None
          end
      | _, _ => None
      end
  | None => None
  end.

(** The schedule of a rate: the step in the field of the unit. *)
Definition schedule_of_rate (n : N) (u : RateUnit) : CronSchedule :=
  match u with
  | Minute => MkCron (Every n) Any Any Any Any
  | Hour => MkCron Any (Every n) Any Any Any
  | Day => MkCron Any Any (Every n) Any Any
  end.

Definition print_field (f : CronField) : string :=
  match f with
  | Any => "*"
  | Every n => "*/" +:+ N_to_string n
  end.

(** The five fields separated by single spaces. *)
Definition print_cron (c : CronSchedule) : string :=
  join " " (print_field <$> [minute c; hour c; dayOfMonth c; month c; dayOfWeek c]).

(** The text of a rate expression. *)
Definition rate_expression (n : N) (word : string) : string :=
  "rate(" +:+ N_to_string n +:+ " " +:+ word +:+ ")".

(** ** The interface *)

(** The function [src/utils] exports: it returns a string or throws. *)
Class Normalizer : Type :=
  convert : string -> Completion string.

(** [convertExpressionToCron(scheduleRate)]. *)
Definition convertExpressionToCron `{normalizer : Normalizer} (scheduleRate : string)
    : Completion string :=
  convert scheduleRate.

(** What the specification promises of it. *)
Class NormalizerSpec `{normalizer : Normalizer} : Prop := {
  normalizer_rate (n : N) (word : string) (u : RateUnit) :
    unit_of_word word = Some u ->
    convertExpressionToCron (rate_expression n word)
    = Normal (print_cron (schedule_of_rate n u));
  normalizer_canonical (e c : string) :
    convertExpressionToCron e = Normal c ->
    exists n u, c = print_cron (schedule_of_rate n u);
  normalizer_error (e : string) (err : JsError) :
    convertExpressionToCron e = Throw err -> err = InvalidExpression e;
}.
#[global] Arguments NormalizerSpec : clear implicits.

(** ** The normalizer of the specification *)

Definition normalize (scheduleRate : string) : Completion string :=
  match parse_rate scheduleRate with
  | Some (n, u) => Normal (print_cron (schedule_of_rate n u))
  | None => Throw (InvalidExpression scheduleRate)
  end.

#[export] Instance rate_normalizer : Normalizer := normalize.

(** ** Reading a canonical schedule *)

(** One field of a schedule string: [*] or [*/<digits>]. *)
Definition parse_field (s : string) : option CronField :=
  if decide (s = "*") then Some Any
  else match strip_prefix "*/" s with
       | Some digits => Every <$> N_of_string digits
       | None => None
       end.

(** A schedule string: five fields separated by single spaces. *)
Definition parse_cron (s : string) : option CronSchedule :=
  match split_on " " s with
  | [f1; f2; f3; f4; f5] =>
      mi ← parse_field f1; h ← parse_field f2; d ← parse_field f3;
      mo ← parse_field f4; w ← parse_field f5;
      Some (MkCron mi h d mo w)
  | _ => None
  end.

Lemma unit_of_word_Some (w : string) (u : RateUnit) :
  unit_of_word w = Some u <->
  w ∈ match u with
      | Minute => ["minute"; "minutes"]
      | Hour => ["hour"; "hours"]
      | Day => ["day"; "days"]
      end.
Proof.
  unfold unit_of_word. destruct u; rewrite !elem_of_cons, elem_of_nil;
    repeat case_decide; (split; [intros ?; simplify_eq; tauto|]);
    intros ?; destruct_or?; simplify_eq; try done; tauto.
Qed.

(** A word without a closing parenthesis, followed by one: the tail of a
    well-formed expression. *)
Lemma unit_of_tail_word (w : string) (u : RateUnit) :
  unit_of_word w = Some u -> unit_of_tail (w +:+ ")") = Some u.
Proof.
  intros Hw. pose proof Hw as Hin. apply unit_of_word_Some in Hin.
  destruct u; repeat (apply elem_of_cons in Hin as [->|Hin]); try done;
    by apply elem_of_nil in Hin.
Qed.

Lemma parse_rate_expression (n : N) (w : string) (u : RateUnit) :
  unit_of_word w = Some u -> parse_rate (rate_expression n w) = Some (n, u).
Proof.
  intros Hw. unfold parse_rate, rate_expression.
  rewrite strip_prefix_app.
  replace (" " +:+ w +:+ ")") with (String " " (w +:+ ")")) by done.
  rewrite span_stop by (done || apply N_to_string_digits).
  rewrite N_of_to_string. cbn [strip_prefix].
  rewrite decide_True by done. by rewrite (unit_of_tail_word w u).
Qed.

(** The specification's first testable property: the step of the output is
    the number of the input, in the field of the unit. *)
Lemma normalize_rate (n : N) (w : string) (u : RateUnit) :
  unit_of_word w = Some u ->
  normalize (rate_expression n w) = Normal (print_cron (schedule_of_rate n u)).
Proof.
  intros Hw. unfold normalize. by rewrite (parse_rate_expression n w u).
Qed.

(** The function is total: it returns a schedule or throws
    [InvalidExpression] with its argument. *)
Lemma normalize_total (e : string) :
  (exists n u, parse_rate e = Some (n, u) /\
     normalize e = Normal (print_cron (schedule_of_rate n u))) \/
  (parse_rate e = None /\ normalize e = Throw (InvalidExpression e)).
Proof.
  unfold normalize. destruct (parse_rate e) as [[n u]|]; eauto.
Qed.

Lemma print_cron_Minute (n : N) :
  print_cron (schedule_of_rate n Minute) = "*/" +:+ N_to_string n +:+ " * * * *".
Proof.
  unfold print_cron, join; cbn. by rewrite !string_app_assoc.
Qed.

Lemma print_cron_Hour (n : N) :
  print_cron (schedule_of_rate n Hour) = "* */" +:+ N_to_string n +:+ " * * *".
Proof.
  unfold print_cron, join; cbn. by rewrite !string_app_assoc.
Qed.

Lemma print_cron_Day (n : N) :
  print_cron (schedule_of_rate n Day) = "* * */" +:+ N_to_string n +:+ " * *".
Proof.
  unfold print_cron, join; cbn. by rewrite !string_app_assoc.
Qed.

(** ** Printing and reading are inverse *)

Lemma parse_print_field (f : CronField) : parse_field (print_field f) = Some f.
Proof.
  destruct f as [|n]; [done|]. unfold parse_field, print_field.
  rewrite decide_False, strip_prefix_app, N_of_to_string; [done|].
  intros H. apply (f_equal (strip_prefix "*/")) in H. rewrite strip_prefix_app in H.
  by simplify_eq/=.
Qed.

(** No field holds a space. *)
Lemma print_field_no_space (f : CronField) :
  string_forallb (fun a => bool_decide (a <> " "%char)) (print_field f) = true.
Proof.
  destruct f as [|n]; [done|]. unfold print_field. rewrite string_forallb_app. cbn.
  apply (string_forallb_impl is_digit); [|apply N_to_string_digits].
  intros a Ha. apply bool_decide_eq_true. by intros ->.
Qed.

(** Reading a printed schedule gives the schedule back. *)
Lemma parse_print_cron (c : CronSchedule) : parse_cron (print_cron c) = Some c.
Proof.
  unfold parse_cron, print_cron. rewrite split_on_join; [|done|].
  - cbn. rewrite !parse_print_field. by destruct c.
  - apply Forall_fmap, Forall_forall. intros f _. apply print_field_no_space.
Qed.

#[export] Instance print_cron_inj : Inj (=) (=) print_cron.
Proof.
  intros c1 c2 H. apply (inj Some). by rewrite <- !parse_print_cron, H.
Qed.

#[export] Instance schedule_of_rate_inj : Inj2 (=) (=) (=) schedule_of_rate.
Proof. intros n1 u1 n2 u2 H. destruct u1, u2; by simplify_eq. Qed.

(** What [normalize] returns is the schedule of the rate its argument
    reads as. *)
Lemma normalize_valid (e c : string) :
  normalize e = Normal c ->
  exists n u, parse_rate e = Some (n, u) /\ c = print_cron (schedule_of_rate n u).
Proof.
  unfold normalize. destruct (parse_rate e) as [[n u]|]; [|done].
  intros [= <-]. by exists n, u.
Qed.

(** [normalize] keeps the promises of the interface. *)
#[export] Instance normalize_spec : NormalizerSpec rate_normalizer.
Proof.
  split.
  - apply normalize_rate.
  - intros e c (n & u & _ & ->)%normalize_valid. by exists n, u.
  - intros e err. unfold convertExpressionToCron, convert, rate_normalizer.
    destruct (normalize_total e) as [(n & u & _ & ->)|[_ ->]]; [done|].
    by intros [= <-].
Qed.

(** ** Consequences of the interface *)

Section NormalizerFacts.
Context `{normalizer : Normalizer} `{!NormalizerSpec normalizer}.

(** What a normalizer returns reads back as the canonical schedule of a
    rate. *)
Lemma convertExpressionToCron_parse (e c : string) :
  convertExpressionToCron e = Normal c ->
  exists n u, c = print_cron (schedule_of_rate n u) /\
              parse_cron c = Some (schedule_of_rate n u).
Proof.
  intros (n & u & ->)%normalizer_canonical. exists n, u. by rewrite parse_print_cron.
Qed.

(** It returns a schedule or throws [InvalidExpression] with its
    argument. *)
Lemma convertExpressionToCron_cases (e : string) :
  (exists n u, convertExpressionToCron e = Normal (print_cron (schedule_of_rate n u))) \/
  convertExpressionToCron e = Throw (InvalidExpression e).
Proof.
  destruct (convertExpressionToCron e) as [c|err] eqn:He.
  - left. destruct (normalizer_canonical e c He) as (n & u & ->). eauto.
  - right. by rewrite (normalizer_error e err He).
Qed.

End NormalizerFacts.
