(* ===== verification/Serverless.v ===== *)
(** * The service's data as the scheduler reads it

    A JavaScript object used as a dictionary is the list of its own
    properties in the order [Object.keys] enumerates them ([JsObject]);
    [keys] is [Object.keys] and [get] the property access [o[k]].  In an
    object every key occurs once ([object_wf]); the operations are
    defined on every list, and the lemmas say where that matters.

    The functions of the service, their events and the plugin's options
    follow: the shapes are those of the fixture of
    [src/tests/scheduler.spec.ts] and of the accesses of
    [src/src/scheduler.ts]. *)

From Stdlib Require Import String.
From stdpp Require Import base tactics option list strings.
From S2P Require Import Prelude Json.

(** ** Objects as dictionaries *)

Abbreviation JsObject A := (list (string * A)).

(** [Object.keys(o)]. *)
Definition keys {A} (o : JsObject A) : list string := o.*1.

(** [o[k]]: the value of the property [k], [None] for [undefined]. *)
Fixpoint get {A} (o : JsObject A) (k : string) : option A :=
  match o with
  | [] => None
  | (k', v) :: o' => if decide (k = k') then Some v else get o' k
  end.

(** The property list of an object names each key once. *)
Definition object_wf {A} (o : JsObject A) : Prop := NoDup (keys o).

#[export] Instance object_wf_dec {A} (o : JsObject A) : Decision (object_wf o).
Proof. unfold object_wf. apply _. Defined.

(** ** Functions and their events *)

(** The [rate] of a schedule: one expression or an array of them. *)
Inductive Rate : Type :=
| RateOne (expression : string)
| RateMany (expressions : list string).

(** The value of an event's [schedule] property. *)
Record Schedule : Type := MkSchedule {
  schedule_name : option string;
  rate : Rate;
  schedule_input : option json;
}.

(** An event of a function: one with a [schedule] property, or one of
    another kind (http, sqs, ...), which the scheduler ignores. *)
Inductive Event : Type :=
| ScheduleEvent (schedule : Schedule)
| OtherEvent (kind : string).

Record ServerlessFunction : Type := MkFunction {
  handler : string;
  events : list Event;
  name : string;
}.

(** The plugin's options: [skipFunctions] may be missing; a missing
    [runImmediately] is [false], which no test of it tells apart. *)
Record ScheduleConfigOptions : Type := MkOptions {
  skipFunctions : option (list string);
  runImmediately : bool;
}.

(** ** Lemmas on objects *)

Lemma get_Some_elem_of {A} (o : JsObject A) (k : string) (v : A) :
  get o k = Some v -> (k, v) ∈ o.
Proof.
  induction o as [|[k' v'] o IH]; cbn; [done|].
  case_decide; intros; simplify_eq; [left | right; auto].
Qed.

(** Every enumerated key has a value. *)
Lemma get_keys_is_Some {A} (o : JsObject A) (k : string) :
  k ∈ keys o <-> is_Some (get o k).
Proof.
  unfold keys. induction o as [|[k' v'] o IH]; cbn.
  - rewrite elem_of_nil. split; [done | by intros [? ?]].
  - rewrite elem_of_cons, IH. case_decide; [|tauto].
    split; [eauto | by left].
Qed.

Lemma get_None {A} (o : JsObject A) (k : string) :
  get o k = None <-> k ∉ keys o.
Proof. rewrite get_keys_is_Some, eq_None_not_Some. done. Qed.

(** In an object, a property is read back with its own value. *)
Lemma get_elem_of {A} (o : JsObject A) (k : string) (v : A) :
  object_wf o -> (k, v) ∈ o -> get o k = Some v.
Proof.
  unfold object_wf, keys. induction o as [|[k' v'] o IH]; cbn.
  - by rewrite elem_of_nil.
  - rewrite NoDup_cons, elem_of_cons. intros [Hk' Hwf] [?|Hin]; simplify_eq.
    + by rewrite decide_True.
    + rewrite decide_False; [auto|]. intros ->. apply Hk'.
      by apply (list_elem_of_fmap_2 fst _ (k', v)).
Qed.

(** Reading every key of an object in turn gives its values in order. *)
Lemma get_keys_values {A} (o : JsObject A) :
  object_wf o -> get o <$> keys o = Some <$> o.*2.
Proof.
  unfold object_wf, keys. induction o as [|[k v] o IH]; cbn; [done|].
  rewrite NoDup_cons. intros [Hk Hwf]. rewrite decide_True by done. f_equal.
  rewrite <- (IH Hwf). apply Forall_fmap_ext_1, Forall_forall.
  intros k' Hk'. rewrite decide_False; [done|]. by intros ->.
Qed.
