(* ===== verification/Effects.v ===== *)
(** * The scheduler's effects and the invoker

    The scheduler acts on its environment in three ways: it writes a notice
    with [this.log], it calls [slsInvokeFunction], and it registers a job
    with [schedule.scheduleJob].  A run of its code is a computation
    [Sched W A] that emits these effects in the order they happen.  The
    state [W] threaded through a run is the outside world the invoked
    functions live in: [slsInvokeFunction] is a black box ([src/utils] is
    not among the sources), given by the class [Invoker W] as the outcome
    of a call and the next state of that world.  Writing a notice and
    registering a job return: only an invocation can throw.

    The callback registered with a job closes over the function's name, its
    input and the scheduler's log sink: a [Job] records them with the cron
    expression. *)

From Stdlib Require Import String.
From stdpp Require Import base tactics option list strings.
From S2P Require Import Prelude Json.

(** Where notices go: [console.log], the constructor's default, or the
    [log] function of the configuration. *)
Inductive LogSink : Type := ConsoleLog | ConfigLog.

(** A registered job: the cron expression and what the callback closes
    over. *)
Record Job : Type := MkJob {
  job_cron : string;
  job_functionName : string;
  job_input : json;
  job_log : LogSink;
}.

Inductive Effect : Type :=
| Log (sink : LogSink) (message : string)
| Invoke (functionName : string) (input : json)
| ScheduleJob (job : Job).

(** How a call of [slsInvokeFunction] ends: it returns (its result is never
    used) or it throws a value, kept as [String(err)] renders it. *)
Inductive InvokeOutcome : Type :=
| Returned
| Threw (err : string).

(** The invocation boundary. *)
Class Invoker (W : Type) : Type := {
  invoke : string -> json -> W -> InvokeOutcome * W;
}.

#[export] Instance LogSink_eq_dec : EqDecision LogSink.
Proof. solve_decision. Defined.

#[export] Instance Job_eq_dec : EqDecision Job.
Proof. solve_decision. Defined.

#[export] Instance Effect_eq_dec : EqDecision Effect.
Proof. solve_decision. Defined.

#[export] Instance InvokeOutcome_eq_dec : EqDecision InvokeOutcome.
Proof. solve_decision. Defined.

(** Computations of the scheduler. *)
Abbreviation Sched W := (Eff Effect W).

(** ** The three operations *)

(** [log(message)] on the sink [sink]. *)
Definition log {W} (sink : LogSink) (message : string) : Sched W unit :=
  emit (Log sink message).

(** [slsInvokeFunction(functionName, input)]. *)
Definition slsInvokeFunction `{invoker : Invoker W} (functionName : string) (input : json)
    : Sched W unit :=
  fun w =>
    let '(o, w') := invoke functionName input w in
    MkRun (match o with
           | Returned => Normal tt
           | Threw err => Throw (InvocationError err)
           end)
          [Invoke functionName input] w'.

(** [schedule.scheduleJob(c, callback)]; the job it returns is dropped by
    the caller. *)
Definition scheduleJob {W} (job : Job) : Sched W unit :=
  emit (ScheduleJob job).

(** ** What a trace shows *)

(** The notices, in order. *)
Definition notices (es : list Effect) : list string :=
  omap (fun e => match e with Log _ m => Some m | _ => None end) es.

(** The sinks the notices went to, in order. *)
Definition sinks (es : list Effect) : list LogSink :=
  omap (fun e => match e with Log sink _ => Some sink | _ => None end) es.

(** The calls of [slsInvokeFunction], in order. *)
Definition invocations (es : list Effect) : list (string * json) :=
  omap (fun e => match e with Invoke f i => Some (f, i) | _ => None end) es.

(** The registered jobs, in order of registration. *)
Definition jobs (es : list Effect) : list Job :=
  omap (fun e => match e with ScheduleJob j => Some j | _ => None end) es.

(** What a firing of [job] invokes. *)
Definition invocationOf (job : Job) : string * json :=
  (job_functionName job, job_input job).

(** ** Invokers *)

(** Every call returns. *)
Definition always_returns : Invoker unit :=
  {| invoke _ _ w := (Returned, w) |}.

(** Every call throws [err]. *)
Definition always_throws (err : string) : Invoker unit :=
  {| invoke _ _ w := (Threw err, w) |}.

(** The outcomes of the calls to come are listed in the state; once the
    list is used up every call returns. *)
Definition scripted : Invoker (list InvokeOutcome) :=
  {| invoke _ _ w :=
       match w with
       | [] => (Returned, [])
       | o :: w' => (o, w')
       end |}.

(** An invoker is reliable when no call ever throws. *)
Definition reliable `{invoker : Invoker W} : Prop :=
  forall functionName input w, (invoke functionName input w).1 = Returned.

(** ** Lemmas *)

Lemma notices_app (es1 es2 : list Effect) :
  notices (es1 ++ es2) = notices es1 ++ notices es2.
Proof. apply omap_app. Qed.

Lemma sinks_app (es1 es2 : list Effect) : sinks (es1 ++ es2) = sinks es1 ++ sinks es2.
Proof. apply omap_app. Qed.

Lemma invocations_app (es1 es2 : list Effect) :
  invocations (es1 ++ es2) = invocations es1 ++ invocations es2.
Proof. apply omap_app. Qed.

Lemma jobs_app (es1 es2 : list Effect) :
  jobs (es1 ++ es2) = jobs es1 ++ jobs es2.
Proof. apply omap_app. Qed.

#[export] Hint Rewrite notices_app invocations_app jobs_app : eff.

Section Operations.
Context `{invoker : Invoker W}.
Implicit Types w : W.

Lemma log_run sink message w :
  log sink message w = MkRun (Normal tt) [Log sink message] w.
Proof. done. Qed.

Lemma scheduleJob_run job w :
  scheduleJob job w = MkRun (Normal tt) [ScheduleJob job] w.
Proof. done. Qed.

Lemma log_total sink message : total_eff (log (W:=W) sink message).
Proof. apply total_emit. Qed.

Lemma scheduleJob_total job : total_eff (scheduleJob (W:=W) job).
Proof. apply total_emit. Qed.

(** A call is recorded whether it returns or throws. *)
Lemma slsInvokeFunction_emitted functionName input w :
  emitted (slsInvokeFunction functionName input w) = [Invoke functionName input].
Proof. unfold slsInvokeFunction. by destruct (invoke _ _ _). Qed.

Lemma slsInvokeFunction_final functionName input w :
  final (slsInvokeFunction functionName input w) = (invoke functionName input w).2.
Proof. unfold slsInvokeFunction. by destruct (invoke _ _ _). Qed.

Lemma slsInvokeFunction_outcome functionName input w :
  outcome (slsInvokeFunction functionName input w) =
  match (invoke functionName input w).1 with
  | Returned => Normal tt
  | Threw err => Throw (InvocationError err)
  end.
Proof. unfold slsInvokeFunction. by destruct (invoke _ _ _). Qed.

Lemma slsInvokeFunction_reliable functionName input :
  reliable -> total_eff (slsInvokeFunction functionName input).
Proof.
  intros Hrel w. rewrite slsInvokeFunction_outcome. by rewrite Hrel.
Qed.

End Operations.

#[export] Hint Resolve log_total scheduleJob_total slsInvokeFunction_reliable : eff.

Lemma always_returns_reliable : @reliable unit always_returns.
Proof. done. Qed.
