(* ===== verification/Scheduler.v ===== *)
(** * The class [OfflineScheduler]: its data and its constructor

    [src/src/scheduler.ts], lines 6-32: the types of the configuration, of a
    resolved function configuration and of the object's fields, and the
    constructor, which takes [console.log] when the configuration has no
    [log]. *)

From Stdlib Require Import String.
From stdpp Require Import base tactics option list strings.
From S2P Require Import Prelude Json Serverless Effects.

(** The function provider: called without arguments, it returns the
    functions of the service by name. *)
Definition FunctionProvider : Type := unit -> JsObject ServerlessFunction.

Record SchedulerConfig : Type := MkConfig {
  config_log : option LogSink;
  config_functionProvider : FunctionProvider;
  config_configOptions : ScheduleConfigOptions;
}.

(** One schedule event of one function, resolved: the cron expressions of
    its rates, in order, and the input its invocations receive. *)
Record FunctionConfiguration : Type := MkFunctionConfiguration {
  input : json;
  functionName : string;
  cron : list string;
}.

Record OfflineScheduler : Type := MkScheduler {
  this_log : LogSink;
  functionProvider : FunctionProvider;
  configOptions : ScheduleConfigOptions;
}.

(** [new OfflineScheduler(config)]. *)
Definition new_OfflineScheduler (config : SchedulerConfig) : OfflineScheduler :=
  {| this_log := default ConsoleLog (config_log config);
     functionProvider := config_functionProvider config;
     configOptions := config_configOptions config |}.

#[export] Instance FunctionConfiguration_eq_dec : EqDecision FunctionConfiguration.
Proof. solve_decision. Defined.

(** The constructor keeps the provider and the options, and every notice
    goes to the configured sink when there is one. *)
Lemma new_OfflineScheduler_log (config : SchedulerConfig) (sink : LogSink) :
  config_log config = Some sink -> this_log (new_OfflineScheduler config) = sink.
Proof. intros Hlog. cbn. by rewrite Hlog. Qed.

Lemma new_OfflineScheduler_default_log (config : SchedulerConfig) :
  config_log config = None -> this_log (new_OfflineScheduler config) = ConsoleLog.
Proof. intros Hlog. cbn. by rewrite Hlog. Qed.
