(* ===== verification/Fixture.v ===== *)
(** * The fixtures of the test suite

    [src/tests/scheduler.spec.ts] builds, before each test, the functions
    of a service with one function and one schedule event, and in each test
    a scheduler over a provider and a pair of options.  These are the
    definitions of this file; the expectations of the tests are in
    [Tests], and the witnesses of the other files use the same fixtures. *)

From Stdlib Require Import String.
From stdpp Require Import base tactics option list strings.
From S2P Require Import Prelude Json Cron Serverless Effects Scheduler.

(** The input of the fixture's schedule: [{ scheduler: '1-minute' }]. *)
Definition fixtureInput : json := JObject [("scheduler", JString "1-minute")].

(** [scheduleFunction], as [beforeEach] builds it. *)
Definition scheduleFunction : JsObject ServerlessFunction :=
  [("schedule-function",
    {| handler := "src/functions/schedule-function.handler";
       events := [ScheduleEvent {| schedule_name := Some "1-minute";
                                   rate := RateOne "rate(1 minute)";
                                   schedule_input := Some fixtureInput |}];
       name := "my-service-dev-schedule-function" |})].

(** [scheduleFunction] after the test of multiple schedules replaced the
    rate by an array of two. *)
Definition scheduleFunctionTwoRates : JsObject ServerlessFunction :=
  [("schedule-function",
    {| handler := "src/functions/schedule-function.handler";
       events := [ScheduleEvent {| schedule_name := Some "1-minute";
                                   rate := RateMany ["rate(1 minute)"; "rate(2 minute)"];
                                   schedule_input := Some fixtureInput |}];
       name := "my-service-dev-schedule-function" |})].

(** The functions of the test without events. *)
Definition getUserFunction : JsObject ServerlessFunction :=
  [("get-user",
    {| handler := "src/handlers/get-useer.handler";
       events := [];
       name := "my-service-dev-get-user" |})].

(** [new Scheduler({ log, functionProvider: () => functions, configOptions })],
    with [log] the mock of the test. *)
Definition testScheduler (functions : JsObject ServerlessFunction)
    (skip : list string) (immediately : bool) : OfflineScheduler :=
  new_OfflineScheduler
    {| config_log := Some ConfigLog;
       config_functionProvider := fun _ => functions;
       config_configOptions := {| skipFunctions := Some skip;
                                  runImmediately := immediately |} |}.

(** The mock the test of [runImmediately] installs for [slsInvokeFunction]:
    it returns a buffer. *)
Definition slsRunSpy : Invoker unit := always_returns.

Lemma scheduleFunction_wf : object_wf scheduleFunction.
Proof. by apply (bool_decide_unpack (object_wf _)). Qed.

Lemma scheduleFunctionTwoRates_wf : object_wf scheduleFunctionTwoRates.
Proof. by apply (bool_decide_unpack (object_wf _)). Qed.

Lemma getUserFunction_wf : object_wf getUserFunction.
Proof. by apply (bool_decide_unpack (object_wf _)). Qed.
