(* ===== verification/Resolver.v ===== *)
(** * The resolver: [getFunctionConfigurations]

    [src/src/scheduler.ts], lines 69-91.  The method asks the provider for
    the functions, and for every function name, in the order of
    [Object.keys], keeps the events that have a [schedule] property and
    maps each to a [FunctionConfiguration]: the function's name, the cron
    expression of each of its rates, and its input, or [{}] when the input
    is missing or falsy.  The lists per function are flattened into one.

    The method is translated statement by statement ([functionConfigurations]
    is the callback of the outer [map], [eventConfiguration] that of the
    inner one), with the TypeErrors JavaScript would raise on [undefined].
    The normalizer is the interface of [Cron]: the definitions take any
    [Normalizer], the theorems any that keeps [NormalizerSpec].
    [resolve] is the pure function the method computes, and
    [getFunctionConfigurations_resolve] the proof.  [configuration_wf]
    says what a resolved configuration is: a function of the service with
    canonical cron expressions and an input that is not falsy. *)

From Stdlib Require Import String.
From stdpp Require Import base tactics option list strings.
From S2P Require Import Prelude Json Cron Serverless Effects Scheduler Fixture.

#[local] Open Scope js_scope.

(** [event.hasOwnProperty('schedule')]. *)
Definition hasSchedule (event : Event) : bool :=
  match event with
  | ScheduleEvent _ => true
  | OtherEvent _ => false
  end.

(** The rates of a schedule as an array: the array itself, or the one
    expression wrapped. *)
Definition rateList (r : Rate) : list string :=
  match r with
  | RateOne expression => [expression]
  | RateMany expressions => expressions
  end.

Section Resolver.
Context {W : Type} `{normalizer : Normalizer}.

(** The callback of [scheduleEvents.map]. *)
Definition eventConfiguration (functionName : string) (event : Event)
    : Sched W FunctionConfiguration :=
  match event with
  | ScheduleEvent schedule =>
      cron <- mapE (fun r => liftC (convertExpressionToCron r)) (rateList (rate schedule)) ;;
      ret {| functionName := functionName;
             cron := cron;
             input := orElse (schedule_input schedule) emptyObject |}
  | OtherEvent _ =>
      throw (TypeError "Cannot read properties of undefined (reading 'rate')")
  end.

(** The callback of [Object.keys(functions).map]. *)
Definition functionConfigurations (functions : JsObject ServerlessFunction)
    (functionName : string) : Sched W (list FunctionConfiguration) :=
  match get functions functionName with
  | Some functionConfig =>
      let scheduleEvents := filter (fun event => hasSchedule event = true) (events functionConfig) in
      mapE (eventConfiguration functionName) scheduleEvents
  | None =>
      throw (TypeError "Cannot destructure property 'events' of 'functionConfig' as it is undefined.")
  end.

(** [this.getFunctionConfigurations()]. *)
Definition getFunctionConfigurations (this : OfflineScheduler)
    : Sched W (list FunctionConfiguration) :=
  let functions := functionProvider this () in
  scheduleConfigurations <- mapE (functionConfigurations functions) (keys functions) ;;
  ret (concat scheduleConfigurations).

End Resolver.

(** ** The function the resolver computes *)

(** [event['schedule']], [None] for [undefined]. *)
Definition scheduleOf (event : Event) : option Schedule :=
  match event with
  | ScheduleEvent schedule => Some schedule
  | OtherEvent _ => None
  end.

(** The schedules of a function's events, in order. *)
Definition schedulesOf (f : ServerlessFunction) : list Schedule :=
  omap scheduleOf (events f).

(** The rate expressions of a function, in the order the resolver
    converts them. *)
Definition expressionsOfFunction (entry : string * ServerlessFunction) : list string :=
  flat_map (fun schedule => rateList (rate schedule)) (schedulesOf entry.2).

Section Reference.
Context `{normalizer : Normalizer}.

Definition resolveSchedule (functionName : string) (schedule : Schedule)
    : Completion FunctionConfiguration :=
  cbind (mapC convertExpressionToCron (rateList (rate schedule))) (fun cron =>
    Normal {| functionName := functionName;
              cron := cron;
              input := orElse (schedule_input schedule) emptyObject |}).

Definition resolveFunction (entry : string * ServerlessFunction)
    : Completion (list FunctionConfiguration) :=
  mapC (resolveSchedule entry.1) (schedulesOf entry.2).

Definition resolve (functions : JsObject ServerlessFunction)
    : Completion (list FunctionConfiguration) :=
  cbind (mapC resolveFunction functions) (fun ls => Normal (concat ls)).

(** An expression is valid when the normalizer returns for it. *)
Definition valid_expression (e : string) : bool :=
  is_normal (convertExpressionToCron e).

(** The cron expression of a valid expression. *)
Definition cronOf (e : string) : string :=
  match convertExpressionToCron e with
  | Normal c => c
  | Throw _ => ""
  end.

(** The configuration of a schedule whose expressions are valid. *)
Definition resolvedSchedule (functionName : string) (schedule : Schedule)
    : FunctionConfiguration :=
  {| functionName := functionName;
     cron := cronOf <$> rateList (rate schedule);
     input := orElse (schedule_input schedule) emptyObject |}.

Definition resolvedFunction (entry : string * ServerlessFunction)
    : list FunctionConfiguration :=
  resolvedSchedule entry.1 <$> schedulesOf entry.2.

(** The configurations of a service whose expressions are all valid. *)
Definition resolved (functions : JsObject ServerlessFunction)
    : list FunctionConfiguration :=
  concat (resolvedFunction <$> functions).

(** The first invalid expression of a list. *)
Definition firstInvalid (es : list string) : option string :=
  find (fun e => negb (valid_expression e)) es.

End Reference.

(** The rate expressions of a service, in the order the resolver converts
    them. *)
Definition expressionsOf (functions : JsObject ServerlessFunction) : list string :=
  flat_map expressionsOfFunction functions.

(** A configuration is well formed for the functions of a service when it
    is of one of them, its input is truthy (what [input || {}] leaves) and
    each of its cron expressions is the canonical schedule of a rate. *)
Definition configuration_wf (functions : JsObject ServerlessFunction)
    (fc : FunctionConfiguration) : Prop :=
  functionName fc ∈ keys functions /\
  truthy (input fc) = true /\
  Forall (fun c => exists n u, parse_cron c = Some (schedule_of_rate n u)) (cron fc).

(** ** The reference function, characterised *)

Section ReferenceFacts.
Context `{normalizer : Normalizer} `{!NormalizerSpec normalizer}.

Lemma convertExpressionToCron_find (e : string) :
  convertExpressionToCron e =
  match firstInvalid [e] with
  | Some e' => Throw (InvalidExpression e')
  | None => Normal (cronOf e)
  end.
Proof.
  unfold firstInvalid, valid_expression, cronOf; cbn.
  by destruct (convertExpressionToCron_cases e) as [(n & u & ->)| ->].
Qed.

Lemma resolveSchedule_find (functionName : string) (schedule : Schedule) :
  resolveSchedule functionName schedule =
  match firstInvalid (rateList (rate schedule)) with
  | Some e => Throw (InvalidExpression e)
  | None => Normal (resolvedSchedule functionName schedule)
  end.
Proof.
  unfold resolveSchedule, firstInvalid.
  rewrite (mapC_find _ cronOf (fun e => [e]) _ InvalidExpression)
    by apply convertExpressionToCron_find.
  rewrite flat_map_singleton. by destruct (find _ _).
Qed.

Lemma resolveFunction_find (entry : string * ServerlessFunction) :
  resolveFunction entry =
  match firstInvalid (expressionsOfFunction entry) with
  | Some e => Throw (InvalidExpression e)
  | None => Normal (resolvedFunction entry)
  end.
Proof.
  unfold resolveFunction. apply mapC_find. intros schedule.
  apply resolveSchedule_find.
Qed.

(** The resolver's result: it throws for the first invalid expression of
    the service, and returns the configurations when there is none. *)
Lemma resolve_find (functions : JsObject ServerlessFunction) :
  resolve functions =
  match firstInvalid (expressionsOf functions) with
  | Some e => Throw (InvalidExpression e)
  | None => Normal (resolved functions)
  end.
Proof.
  unfold resolve, firstInvalid, expressionsOf.
  rewrite (mapC_find _ resolvedFunction expressionsOfFunction _ InvalidExpression)
    by apply resolveFunction_find.
  by destruct (find _ _).
Qed.

(** A service none of whose events has a schedule resolves to no
    configuration. *)
Lemma resolve_no_schedule (functions : JsObject ServerlessFunction) :
  Forall (fun entry => Forall (fun event => hasSchedule event = false) (events entry.2))
         functions ->
  resolve functions = Normal [].
Proof.
  intros Hnone. rewrite resolve_find. unfold expressionsOf, resolved.
  assert (Forall (fun entry => schedulesOf entry.2 = []) functions) as Hempty.
  { eapply Forall_impl; [done|]. intros [k f] Hevents. unfold schedulesOf. cbn in *.
    induction Hevents as [|[schedule|other] evs Hev _ IH]; by cbn in *. }
  clear Hnone. induction Hempty as [|entry functions Hentry _ IH]; [done|]. cbn.
  unfold expressionsOfFunction at 1, resolvedFunction at 1. by rewrite Hentry.
Qed.

(** The configurations of a service, one by one. *)
Lemma elem_of_resolved (functions : JsObject ServerlessFunction) (fc : FunctionConfiguration) :
  fc ∈ resolved functions <->
  exists k f schedule,
    (k, f) ∈ functions /\ schedule ∈ schedulesOf f /\ fc = resolvedSchedule k schedule.
Proof.
  unfold resolved, resolvedFunction. rewrite elem_of_concat. split.
  - intros (l & Hfc & ([k f] & -> & Hin)%list_elem_of_fmap).
    apply list_elem_of_fmap in Hfc as (schedule & -> & Hs). by exists k, f, schedule.
  - intros (k & f & schedule & Hin & Hs & ->).
    exists (resolvedSchedule k <$> schedulesOf f).
    split; [by apply list_elem_of_fmap_2|]. by apply (list_elem_of_fmap_2' _ _ (k, f)).
Qed.

(** Without an invalid expression, every expression has its canonical
    schedule. *)
Lemma firstInvalid_None (es : list string) (e : string) :
  firstInvalid es = None -> e ∈ es ->
  exists n u, convertExpressionToCron e = Normal (print_cron (schedule_of_rate n u)).
Proof.
  intros Hnone Hin%list_elem_of_In. apply (find_none _ _ Hnone) in Hin.
  unfold valid_expression in Hin.
  by destruct (convertExpressionToCron_cases e) as [?| Hthrow]; [|rewrite Hthrow in Hin].
Qed.

(** The configurations of a service whose expressions are valid are well
    formed. *)
Lemma resolved_wf (functions : JsObject ServerlessFunction) :
  firstInvalid (expressionsOf functions) = None ->
  Forall (configuration_wf functions) (resolved functions).
Proof.
  intros Hvalid. apply Forall_forall. intros fc (k & f & schedule & Hin & Hs & ->)%elem_of_resolved.
  split_and!; cbn.
  - apply list_elem_of_fmap. by exists (k, f).
  - by apply truthy_orElse.
  - apply Forall_fmap, Forall_forall. intros e He.
    destruct (firstInvalid_None _ e Hvalid) as (n & u & Hrate).
    { apply elem_of_flat_map. exists (k, f). split; [done|].
      apply elem_of_flat_map. by exists schedule. }
    exists n, u. unfold cronOf. by rewrite Hrate, parse_print_cron.
Qed.

Lemma resolve_wf (functions : JsObject ServerlessFunction)
    (configurations : list FunctionConfiguration) :
  resolve functions = Normal configurations ->
  Forall (configuration_wf functions) configurations.
Proof.
  rewrite resolve_find. destruct (firstInvalid _) eqn:Hvalid; [done|].
  intros [= <-]. by apply resolved_wf.
Qed.

End ReferenceFacts.

(** ** The method computes the reference function *)

(** The filter keeps the events with a schedule, in order. *)
Lemma filter_hasSchedule (evs : list Event) :
  filter (fun event => hasSchedule event = true) evs = ScheduleEvent <$> omap scheduleOf evs.
Proof.
  induction evs as [|[s|k] evs IH]; [done|..].
  - rewrite filter_cons_True by done. cbn. by rewrite IH.
  - rewrite filter_cons_False by done. done.
Qed.

Section ResolverFacts.
Context {W : Type} `{normalizer : Normalizer} `{!NormalizerSpec normalizer}.

Lemma eventConfiguration_schedule (functionName : string) (schedule : Schedule) :
  eventConfiguration (W:=W) functionName (ScheduleEvent schedule)
  ≡ liftC (resolveSchedule functionName schedule).
Proof.
  cbn. rewrite mapE_liftC. unfold resolveSchedule. by rewrite <- liftC_cbind.
Qed.

Lemma functionConfigurations_entry (functions : JsObject ServerlessFunction)
    (functionName : string) (f : ServerlessFunction) :
  get functions functionName = Some f ->
  functionConfigurations (W:=W) functions functionName
  ≡ liftC (resolveFunction (functionName, f)).
Proof.
  intros Hget. unfold functionConfigurations, resolveFunction, schedulesOf.
  rewrite Hget, filter_hasSchedule, mapE_fmap. cbn.
  apply mapE_liftC_ext, Forall_forall. intros s _. apply eventConfiguration_schedule.
Qed.

Lemma mapE_functionConfigurations (functions o : JsObject ServerlessFunction) :
  Forall (fun entry => get functions entry.1 = Some entry.2) o ->
  mapE (functionConfigurations (W:=W) functions) (keys o) ≡ liftC (mapC resolveFunction o).
Proof.
  intros Ho. unfold keys. rewrite mapE_fmap. apply mapE_liftC_ext.
  eapply Forall_impl; [exact Ho|]. intros [k f] Hget. by apply functionConfigurations_entry.
Qed.

(** The method has no effect and computes [resolve] of the provider's
    functions. *)
Lemma getFunctionConfigurations_resolve (this : OfflineScheduler) :
  object_wf (functionProvider this ()) ->
  getFunctionConfigurations (W:=W) this ≡ liftC (resolve (functionProvider this ())).
Proof.
  intros Hwf. unfold getFunctionConfigurations, resolve.
  rewrite mapE_functionConfigurations, <- liftC_cbind; [done|].
  apply Forall_forall. intros [k f] Hin. by apply get_elem_of.
Qed.

(** C20: what [getFunctionConfigurations] computes.  For a service whose
    function names are distinct, the method emits nothing and leaves the
    world as it is; it throws [InvalidExpression] for the first rate
    expression, in the order of the functions, their events and their
    rates, that the normalizer refuses, and returns, when there is none,
    one configuration per schedule event, in that order, with the cron
    expressions the normalizer returned. *)
Theorem getFunctionConfigurations_run (this : OfflineScheduler) (w : W) :
  object_wf (functionProvider this ()) ->
  getFunctionConfigurations this w =
  MkRun (match firstInvalid (expressionsOf (functionProvider this ())) with
         | Some e => Throw (InvalidExpression e)
         | None => Normal (resolved (functionProvider this ()))
         end) [] w.
Proof.
  intros Hwf. rewrite (getFunctionConfigurations_resolve this Hwf w).
  by rewrite resolve_find.
Qed.

(** C16: the resolver's result is well formed.  Every configuration
    [getFunctionConfigurations] returns is of a function of the service,
    carries a truthy input, and each of its cron expressions reads back as
    a canonical schedule with the step of a rate in one field: nothing
    that [schedule.scheduleJob] could refuse to read is ever passed on. *)
Theorem getFunctionConfigurations_wf (this : OfflineScheduler) (w : W)
    (configurations : list FunctionConfiguration) :
  object_wf (functionProvider this ()) ->
  outcome (getFunctionConfigurations this w) = Normal configurations ->
  Forall (configuration_wf (functionProvider this ())) configurations.
Proof.
  intros Hwf. rewrite (getFunctionConfigurations_resolve this Hwf w). apply resolve_wf.
Qed.

(** The cron expressions of a resolved schedule event are what the
    normalizer returned for its rates, in order, and each reads back as
    the canonical schedule of a rate. *)
Lemma eventConfiguration_crons (functionName : string) (schedule : Schedule)
    (fc : FunctionConfiguration) (w : W) :
  outcome (eventConfiguration functionName (ScheduleEvent schedule) w) = Normal fc ->
  Forall2 (fun e c => convertExpressionToCron e = Normal c /\
                      exists n u, parse_cron c = Some (schedule_of_rate n u))
          (rateList (rate schedule)) (cron fc).
Proof.
  rewrite (eventConfiguration_schedule _ _ w). unfold resolveSchedule. cbn [liftC outcome].
  intros (crons & Hcrons%mapC_Normal & [= <-])%cbind_Normal. cbn [cron].
  eapply Forall2_impl; [exact Hcrons|]. intros e c He. split; [done|].
  destruct (convertExpressionToCron_parse e c He) as (n & u & _ & ?). eauto.
Qed.

(** C19: from rates to schedules and back.  A schedule event whose rates
    are [rate(<n> <unit>)] for any numbers and any of the six unit words
    resolves, and the cron expressions of its configuration read back,
    one per rate and in the same order, as the schedules with those
    numbers as the step in the field of those units. *)
Theorem eventConfiguration_roundtrip (functionName : string) (name : option string)
    (rates : list (N * string)) (payload : option json) (w : W) :
  Forall (fun r => is_Some (unit_of_word r.2)) rates ->
  exists fc,
    outcome (eventConfiguration functionName
               (ScheduleEvent (MkSchedule name
                  (RateMany ((fun r => rate_expression r.1 r.2) <$> rates)) payload)) w)
    = Normal fc /\
    parse_cron <$> cron fc = (fun r => schedule_of_rate r.1 <$> unit_of_word r.2) <$> rates.
Proof.
  intros Hrates. rewrite (eventConfiguration_schedule _ _ w).
  unfold resolveSchedule. cbn [liftC outcome rate rateList].
  assert (exists crons,
            mapC convertExpressionToCron ((fun r => rate_expression r.1 r.2) <$> rates)
            = Normal crons /\
            parse_cron <$> crons
            = (fun r => schedule_of_rate r.1 <$> unit_of_word r.2) <$> rates)
    as (crons & -> & Hcrons); [|by eexists].
  induction Hrates as [|[n word] rates [u Hu] _ (crons & IH & Hcrons)]; [by exists []|].
  exists (print_cron (schedule_of_rate n u) :: crons). cbn [fmap list_fmap mapC fst snd].
  cbn [snd] in Hu. rewrite (normalizer_rate n word u Hu), IH. cbn [fmap list_fmap].
  by rewrite parse_print_cron, Hcrons, Hu.
Qed.

(** C33: a falsy input is replaced.  A schedule event whose input is
    present but falsy ([null], [false], [0], the empty string) resolves to a
    configuration whose input is the empty object: the default applies to
    more than a missing input. *)
Theorem eventConfiguration_falsy_input (functionName : string) (schedule : Schedule)
    (j : json) (w : W) :
  schedule_input schedule = Some j -> truthy j = false ->
  firstInvalid (rateList (rate schedule)) = None ->
  eventConfiguration functionName (ScheduleEvent schedule) w =
  MkRun (Normal (MkFunctionConfiguration emptyObject functionName
                   (cronOf <$> rateList (rate schedule)))) [] w.
Proof.
  intros Hin Hfalsy Hvalid. rewrite (eventConfiguration_schedule _ _ w).
  rewrite resolveSchedule_find, Hvalid. unfold resolvedSchedule.
  by rewrite Hin, orElse_falsy.
Qed.

End ResolverFacts.

(** ** The theorems on concrete services *)

(** A service of two functions: the first with two rates, no input and an
    event that is no schedule; the second with a rate and an input. *)
Lemma getFunctionConfigurations_run_witness :
  getFunctionConfigurations
    (testScheduler
       [("f", MkFunction "h" [ScheduleEvent (MkSchedule None
                                (RateMany ["rate(5 minutes)"; "rate(2 hours)"]) None);
                              OtherEvent "http"] "n");
        ("g", MkFunction "h" [ScheduleEvent (MkSchedule None (RateOne "rate(1 day)")
                                (Some (JString "x")))] "n")] [] false) () =
  MkRun (Normal [MkFunctionConfiguration emptyObject "f" ["*/5 * * * *"; "* */2 * * *"];
                 MkFunctionConfiguration (JString "x") "g" ["* * */1 * *"]]) [] ().
Proof.
  apply (getFunctionConfigurations_run (W:=unit) (normalizer:=rate_normalizer)).
  by apply (bool_decide_unpack (object_wf _)).
Defined.

Lemma eventConfiguration_falsy_input_witness :
  eventConfiguration "f"
    (ScheduleEvent (MkSchedule None (RateOne "rate(1 minute)") (Some (JNumber 0)))) () =
  MkRun (Normal (MkFunctionConfiguration emptyObject "f" ["*/1 * * * *"])) [] ().
Proof.
  apply (eventConfiguration_falsy_input (W:=unit) (normalizer:=rate_normalizer) "f"
           (MkSchedule None (RateOne "rate(1 minute)") (Some (JNumber 0))) (JNumber 0) ());
    reflexivity.
Defined.

Lemma getFunctionConfigurations_wf_witness :
  Forall (configuration_wf scheduleFunctionTwoRates)
    [MkFunctionConfiguration fixtureInput "schedule-function" ["*/1 * * * *"; "*/2 * * * *"]].
Proof.
  apply (getFunctionConfigurations_wf (W:=unit) (normalizer:=rate_normalizer)
           (testScheduler scheduleFunctionTwoRates [] false) ());
    [apply scheduleFunctionTwoRates_wf | reflexivity].
Defined.

Lemma eventConfiguration_roundtrip_witness :
  exists fc,
    outcome (eventConfiguration "schedule-function"
               (ScheduleEvent (MkSchedule (Some "1-minute")
                  (RateMany ((fun r => rate_expression r.1 r.2)
                               <$> [(1%N, "minute"); (2%N, "minute"); (3%N, "days")]))
                  (Some fixtureInput))) ())
    = Normal fc /\
    parse_cron <$> cron fc
    = (fun r => schedule_of_rate r.1 <$> unit_of_word r.2)
        <$> [(1%N, "minute"); (2%N, "minute"); (3%N, "days")].
Proof.
  apply (eventConfiguration_roundtrip (W:=unit) (normalizer:=rate_normalizer) "schedule-function" (Some "1-minute")
           [(1%N, "minute"); (2%N, "minute"); (3%N, "days")] (Some fixtureInput) ()).
  repeat constructor; by eexists.
Defined.
