(* ===== verification/Engine.v ===== *)
(** * The scheduling engine: [scheduleEvents] and the callback of a job

    [src/src/scheduler.ts], lines 39-67.  [scheduleEvents] resolves the
    configurations and runs [scheduleConfiguration] (the callback of
    [configurations.forEach]) on each: a skipped function gets its skip
    notice and nothing else; any other gets its scheduling notice and
    [scheduleCron] (the callback of [cron.forEach]) on each cron
    expression: the immediate run when the option asks for it, outside any
    [try], then the registration of the job.  [jobCallback] is the function
    node-schedule calls when the job fires: the invocation and the success
    notice inside [try], the failure notice in [catch].
    [readSchedulingMessage] is a reader of scheduling notices: no part of
    the program, it states what a notice tells its reader. *)

From Stdlib Require Import String Ascii.
From stdpp Require Import base tactics option list strings.
From S2P Require Import Prelude Json JsonRead Cron Serverless Effects Scheduler Fixture Resolver.

#[local] Open Scope js_scope.

(** ** The notices *)

Definition skippingMessage (functionName : string) : string :=
  "Skipping scheduled function [" +:+ functionName +:+ "]".

(** In the template, [${cron}] renders the array as its elements joined by
    commas. *)
Definition schedulingMessage (functionName : string) (cron : list string) (input : json)
    : string :=
  "Scheduling [" +:+ functionName +:+ "] cron: [" +:+ join "," cron +:+ "] input: "
    +:+ stringify input.

(** What stands between the brackets of a notice: any character but the
    closing bracket. *)
Definition bracketed (a : ascii) : bool := bool_decide (a <> "]"%char).

(** A character of one element of the list of cron expressions of a
    notice: neither the closing bracket nor the comma. *)
Definition listed (a : ascii) : bool :=
  bool_decide (a <> "]"%char) && bool_decide (a <> ","%char).

(** A reader of scheduling notices, given the text alone: the name
    between the first brackets, the cron expressions between the second,
    separated by commas, and the input, read as JSON. *)
Definition readSchedulingMessage (message : string)
    : option (string * list string * json) :=
  named ← strip_prefix "Scheduling [" message;
  scheduled ← strip_prefix "] cron: [" (span bracketed named).2;
  payload ← strip_prefix "] input: " (span bracketed scheduled).2;
  input ← parse_json payload;
  let crons := (span bracketed scheduled).1 in
  Some ((span bracketed named).1,
        if decide (crons = "") then [] else split_on "," crons,
        input).

Definition runningMessage (functionName : string) : string :=
  "Running scheduled function immediately [" +:+ functionName +:+ "]".

Definition successMessage (functionName : string) : string :=
  "Succesfully invoked scheduled function: [" +:+ functionName +:+ "]".

Definition failureMessage (functionName : string) (err : string) : string :=
  "Failed to execute scheduled function: [" +:+ functionName +:+ "] Error: " +:+ err.

(** [`${err}`] for the exception caught in a job's callback.  Only a
    failed invocation can be caught there, and it carries the rendering of
    the thrown value; the other cases make the function total. *)
Definition errorText (e : JsError) : string :=
  match e with
  | InvocationError err => err
  | InvalidExpression expression => expression
  | TypeError msg => msg
  end.

(** [(this.configOptions.skipFunctions || []).includes(functionName)]. *)
Definition isSkipped (options : ScheduleConfigOptions) (functionName : string) : bool :=
  bool_decide (functionName ∈ default [] (skipFunctions options)).

(** The job [scheduleCron] registers for a cron expression. *)
Definition jobOf (this : OfflineScheduler) (functionName : string) (input : json)
    (c : string) : Job :=
  {| job_cron := c;
     job_functionName := functionName;
     job_input := input;
     job_log := this_log this |}.

Section Engine.
Context `{invoker : Invoker W} `{normalizer : Normalizer}.

(** The callback given to [schedule.scheduleJob]. *)
Definition jobCallback (job : Job) : Sched W unit :=
  tryCatch
    (slsInvokeFunction (job_functionName job) (job_input job) ;;
     log (job_log job) (successMessage (job_functionName job)))
    (fun err =>
       log (job_log job) (failureMessage (job_functionName job) (errorText err))).

(** The callback of [cron.forEach]. *)
Definition scheduleCron (this : OfflineScheduler) (functionName : string) (input : json)
    (c : string) : Sched W unit :=
  (if runImmediately (configOptions this)
   then log (this_log this) (runningMessage functionName) ;;
        slsInvokeFunction functionName input
   else ret ()) ;;
  scheduleJob (jobOf this functionName input c).

(** The callback of [configurations.forEach]. *)
Definition scheduleConfiguration (this : OfflineScheduler)
    (functionConfiguration : FunctionConfiguration) : Sched W unit :=
  let functionName := functionName functionConfiguration in
  let cron := cron functionConfiguration in
  let input := input functionConfiguration in
  if isSkipped (configOptions this) functionName
  then log (this_log this) (skippingMessage functionName)
  else
    log (this_log this) (schedulingMessage functionName cron input) ;;
    forEach (scheduleCron this functionName input) cron.

(** [this.scheduleEvents()]. *)
Definition scheduleEvents (this : OfflineScheduler) : Sched W unit :=
  configurations <- getFunctionConfigurations this ;;
  forEach (scheduleConfiguration this) configurations.

End Engine.

(** ** The notices *)

(** What follows a name or a list between brackets is found where the
    bracket closes. *)
Lemma span_bracketed (l r : string) :
  string_forallb bracketed l = true ->
  span bracketed (l +:+ "]" +:+ r) = (l, "]" +:+ r).
Proof. intros Hl. by apply (span_stop bracketed l "]"%char r). Qed.

(** C18: a scheduling notice tells what was scheduled.  From the text of
    the notice alone, a reader gets back the name of the function, its
    cron expressions in order and its input, whatever the input holds,
    when the name has no closing bracket and the cron expressions are
    not empty and have neither closing bracket nor comma, as the
    canonical schedules are: the name, the list and the input are
    delimited without ambiguity. *)
Theorem schedulingMessage_roundtrip (functionName : string) (cron : list string)
    (input : json) :
  string_forallb bracketed functionName = true ->
  Forall (fun c => c <> "" /\ string_forallb listed c = true) cron ->
  readSchedulingMessage (schedulingMessage functionName cron input)
  = Some (functionName, cron, input).
Proof.
  intros Hname Hcron. apply Forall_and in Hcron as [Hne Hcron].
  assert (string_forallb bracketed (join "," cron) = true) as Hjoin.
  { apply string_forallb_join; [done|]. eapply Forall_impl; [exact Hcron|].
    intros c. apply string_forallb_impl. by intros a [? _]%andb_prop. }
  unfold readSchedulingMessage, schedulingMessage.
  rewrite strip_prefix_app. cbn [mbind option_bind].
  change ("] cron: [" +:+ ?r) with ("]" +:+ " cron: [" +:+ r).
  change ("] input: " +:+ ?r) with ("]" +:+ " input: " +:+ r).
  rewrite (span_bracketed functionName _ Hname). cbn [fst snd].
  change ("]" +:+ " cron: [" +:+ ?r) with ("] cron: [" +:+ r).
  rewrite strip_prefix_app. cbn [mbind option_bind].
  rewrite (span_bracketed (join "," cron) _ Hjoin). cbn [fst snd].
  change ("]" +:+ " input: " +:+ ?r) with ("] input: " +:+ r).
  rewrite strip_prefix_app. cbn [mbind option_bind].
  unfold parse_json. rewrite parse_value_stringify. cbn [mbind option_bind].
  repeat f_equal. case_decide as Hempty; [by rewrite (join_empty _ _ Hne Hempty)|].
  apply split_on_join; [by intros ->|]. eapply Forall_impl; [exact Hcron|].
  intros c. apply string_forallb_impl. by intros a [_ ?]%andb_prop.
Qed.

(** The canonical schedules are such cron expressions: the hypothesis of
    [schedulingMessage_roundtrip] holds of every notice of a start whose
    normalizer keeps its contract. *)
Lemma print_field_listed (f : CronField) :
  print_field f <> "" /\ string_forallb listed (print_field f) = true.
Proof.
  destruct f as [|n]; [done|]. unfold print_field. split; [by rewrite string_app_cons|].
  rewrite string_forallb_app. cbn.
  apply (string_forallb_impl is_digit); [|apply N_to_string_digits].
  intros a Ha. apply andb_true_intro. split; apply bool_decide_eq_true; by intros ->.
Qed.

Lemma print_cron_listed (c : CronSchedule) :
  print_cron c <> "" /\ string_forallb listed (print_cron c) = true.
Proof.
  unfold print_cron. split.
  - intros Hempty. apply join_empty in Hempty; [done|].
    apply Forall_fmap, Forall_forall. intros f _. apply print_field_listed.
  - apply string_forallb_join; [done|].
    apply Forall_fmap, Forall_forall. intros f _. apply print_field_listed.
Qed.

(** ** The options' guards *)

Lemma isSkipped_true (options : ScheduleConfigOptions) (functionName : string) :
  isSkipped options functionName = true <->
  exists names, skipFunctions options = Some names /\ functionName ∈ names.
Proof.
  unfold isSkipped. rewrite bool_decide_eq_true.
  destruct (skipFunctions options) as [names|]; cbn.
  - split; [eauto | by intros (? & [= <-] & ?)].
  - rewrite elem_of_nil. split; [done | by intros (? & ? & _)].
Qed.

(** Without a skip list nothing is skipped. *)
Lemma isSkipped_None (options : ScheduleConfigOptions) (functionName : string) :
  skipFunctions options = None -> isSkipped options functionName = false.
Proof. intros Hnone. unfold isSkipped. by rewrite Hnone. Qed.

(** ** The operations, run *)

Section EngineFacts.
Context `{invoker : Invoker W} `{normalizer : Normalizer}.
Context `{!NormalizerSpec normalizer}.
Implicit Types (w : W) (this : OfflineScheduler) (job : Job).

(** A firing job invokes its function once and writes one notice: the
    success notice when the invocation returned, the failure notice with the
    error when it threw.  The callback itself always returns. *)
Lemma jobCallback_run job w :
  jobCallback job w =
  MkRun (Normal ())
        [Invoke (job_functionName job) (job_input job);
         Log (job_log job)
             (match (invoke (job_functionName job) (job_input job) w).1 with
              | Returned => successMessage (job_functionName job)
              | Threw err => failureMessage (job_functionName job) err
              end)]
        (invoke (job_functionName job) (job_input job) w).2.
Proof.
  unfold jobCallback, slsInvokeFunction, log. eff_unfold.
  by destruct (invoke _ _ w) as [[|err] w'].
Qed.

Lemma jobCallback_total job : total_eff (jobCallback job).
Proof. intros w. by rewrite jobCallback_run. Qed.

(** C6: the failure of a firing is isolated.  Whatever the invoker does,
    the callback of a job returns normally; it invokes the job's function
    exactly once with the job's input, and writes exactly one notice on the
    job's sink: the success notice when the invocation returned, the
    failure notice carrying the error when it threw. *)
Theorem jobCallback_isolated job w :
  outcome (jobCallback job w) = Normal () /\
  invocations (emitted (jobCallback job w)) = [(job_functionName job, job_input job)] /\
  jobs (emitted (jobCallback job w)) = [] /\
  notices (emitted (jobCallback job w)) =
  [match (invoke (job_functionName job) (job_input job) w).1 with
   | Returned => successMessage (job_functionName job)
   | Threw err => failureMessage (job_functionName job) err
   end].
Proof. by rewrite jobCallback_run. Qed.

(** Without [runImmediately], a cron expression is registered and nothing
    else happens. *)
Lemma scheduleCron_deferred this functionName input c :
  runImmediately (configOptions this) = false ->
  scheduleCron this functionName input c ≡ scheduleJob (jobOf this functionName input c).
Proof.
  intros Hrun. unfold scheduleCron. rewrite Hrun.
  apply (bind_ret_l () (fun _ => scheduleJob _)).
Qed.

(** With [runImmediately], the function is announced and invoked; the job is
    registered only when the invocation returned, and the invocation's
    exception is the callback's. *)
Lemma scheduleCron_immediate this functionName input c w :
  runImmediately (configOptions this) = true ->
  scheduleCron this functionName input c w =
  match (invoke functionName input w).1 with
  | Returned =>
      MkRun (Normal ())
            [Log (this_log this) (runningMessage functionName);
             Invoke functionName input;
             ScheduleJob (jobOf this functionName input c)]
            (invoke functionName input w).2
  | Threw err =>
      MkRun (Throw (InvocationError err))
            [Log (this_log this) (runningMessage functionName);
             Invoke functionName input]
            (invoke functionName input w).2
  end.
Proof.
  intros Hrun. unfold scheduleCron. rewrite Hrun.
  unfold slsInvokeFunction, log, scheduleJob. eff_unfold.
  by destruct (invoke _ _ w) as [[|err] w'].
Qed.

Lemma scheduleConfiguration_skipped this fc :
  isSkipped (configOptions this) (functionName fc) = true ->
  scheduleConfiguration this fc = log (this_log this) (skippingMessage (functionName fc)).
Proof. intros Hskip. unfold scheduleConfiguration. by rewrite Hskip. Qed.

Lemma scheduleConfiguration_scheduled this fc :
  isSkipped (configOptions this) (functionName fc) = false ->
  scheduleConfiguration this fc =
  (log (this_log this) (schedulingMessage (functionName fc) (cron fc) (input fc)) ;;
   forEach (scheduleCron this (functionName fc) (input fc)) (cron fc))%js.
Proof. intros Hskip. unfold scheduleConfiguration. by rewrite Hskip. Qed.

(** [scheduleEvents] runs the configurations of the reference resolver. *)
Lemma scheduleEvents_resolve this :
  object_wf (functionProvider this ()) ->
  scheduleEvents this ≡
  (configurations <- liftC (resolve (functionProvider this ())) ;;
   forEach (scheduleConfiguration this) configurations)%js.
Proof.
  intros Hwf. unfold scheduleEvents. by rewrite getFunctionConfigurations_resolve.
Qed.

Lemma scheduleEvents_Normal this configurations :
  object_wf (functionProvider this ()) ->
  resolve (functionProvider this ()) = Normal configurations ->
  scheduleEvents this ≡ forEach (scheduleConfiguration this) configurations.
Proof.
  intros Hwf Hres. rewrite scheduleEvents_resolve by done.
  by apply bind_liftC_Normal.
Qed.

(** A configuration error stops the start before anything happens. *)
Lemma scheduleEvents_Throw this e :
  object_wf (functionProvider this ()) ->
  resolve (functionProvider this ()) = Throw e ->
  scheduleEvents this ≡ throw e.
Proof.
  intros Hwf Hres. rewrite scheduleEvents_resolve by done.
  by apply bind_liftC_Throw.
Qed.

(** C3: an expression the normalizer refuses stops the start before
    anything happens: [scheduleEvents] throws [InvalidExpression] for the
    first such expression of the service, writes no notice, invokes
    nothing and registers no timer. *)
Theorem scheduleEvents_invalid this e w :
  object_wf (functionProvider this ()) ->
  firstInvalid (expressionsOf (functionProvider this ())) = Some e ->
  scheduleEvents this w = MkRun (Throw (InvalidExpression e)) [] w.
Proof.
  intros Hwf Hbad. rewrite (scheduleEvents_Throw this (InvalidExpression e)); [done..|].
  by rewrite resolve_find, Hbad.
Qed.

(** C35: skipped functions are skipped entirely.  When every configuration
    is of a function in the skip list, [scheduleEvents] returns after
    writing one skip notice per configuration: it registers no job and
    invokes nothing, [runImmediately] or not and whatever the invoker
    does. *)
Theorem scheduleEvents_skipped this configurations w :
  object_wf (functionProvider this ()) ->
  resolve (functionProvider this ()) = Normal configurations ->
  Forall (fun fc => isSkipped (configOptions this) (functionName fc) = true) configurations ->
  scheduleEvents this w =
  MkRun (Normal ())
        ((fun fc => Log (this_log this) (skippingMessage (functionName fc))) <$> configurations)
        w.
Proof.
  intros Hwf Hres Hskip. rewrite (scheduleEvents_Normal this configurations Hwf Hres w).
  apply forEach_emit. eapply Forall_impl; [exact Hskip|]. intros fc Hfc w'.
  by rewrite scheduleConfiguration_skipped.
Qed.

(** C34: nothing to schedule, nothing done.  For a service without
    functions, or none of whose events has a [schedule] property,
    [scheduleEvents] returns without any effect: no notice, no invocation,
    no job, with any options and any invoker. *)
Theorem scheduleEvents_no_schedule this w :
  object_wf (functionProvider this ()) ->
  Forall (fun entry => Forall (fun event => hasSchedule event = false) (events entry.2))
         (functionProvider this ()) ->
  scheduleEvents this w = MkRun (Normal ()) [] w.
Proof.
  intros Hwf Hnone.
  by rewrite (scheduleEvents_Normal this [] Hwf (resolve_no_schedule _ Hnone) w).
Qed.

End EngineFacts.

(** ** The theorems on the fixture of the test suite *)

(** The notice of the fixture with two rates reads back. *)
Lemma schedulingMessage_roundtrip_witness :
  readSchedulingMessage
    (schedulingMessage "schedule-function" ["*/1 * * * *"; "*/2 * * * *"] fixtureInput)
  = Some ("schedule-function", ["*/1 * * * *"; "*/2 * * * *"], fixtureInput).
Proof.
  apply (schedulingMessage_roundtrip "schedule-function" ["*/1 * * * *"; "*/2 * * * *"]
           fixtureInput); [reflexivity|].
  repeat constructor; discriminate.
Defined.

(** A name with a closing bracket is outside the theorem: two different
    configurations have the same notice. *)
Example schedulingMessage_ambiguous (input : json) :
  schedulingMessage "f] cron: [x" ["y"] input = schedulingMessage "f" ["x] cron: [y"] input.
Proof. reflexivity. Qed.

Lemma scheduleEvents_invalid_witness :
  scheduleEvents (invoker:=slsRunSpy)
    (testScheduler [("f", MkFunction "h" [ScheduleEvent (MkSchedule None (RateOne "cron(0 12 * * ? *)") None)] "n")]
       [] false) ()
  = MkRun (Throw (InvalidExpression "cron(0 12 * * ? *)")) [] ().
Proof.
  apply scheduleEvents_invalid; [by apply (bool_decide_unpack (object_wf _)) | reflexivity].
Defined.

Lemma scheduleEvents_skipped_witness :
  scheduleEvents (invoker:=always_throws "boom")
    (testScheduler scheduleFunctionTwoRates ["schedule-function"] true) () =
  MkRun (Normal ())
        ((fun fc => Log (this_log (testScheduler scheduleFunctionTwoRates ["schedule-function"] true))
                        (skippingMessage (functionName fc)))
           <$> [MkFunctionConfiguration fixtureInput "schedule-function"
                  ["*/1 * * * *"; "*/2 * * * *"]])
        ().
Proof.
  apply (scheduleEvents_skipped (invoker:=always_throws "boom"));
    [apply scheduleFunctionTwoRates_wf | reflexivity |].
  by apply Forall_singleton.
Defined.

(** The service of the test without schedule events, given an event of
    another kind. *)
Lemma scheduleEvents_no_schedule_witness :
  scheduleEvents (invoker:=always_throws "boom")
    (testScheduler [("get-user", MkFunction "src/handlers/get-useer.handler"
                                   [OtherEvent "http"] "my-service-dev-get-user")]
       [] true) ()
  = MkRun (Normal ()) [] ().
Proof.
  apply (scheduleEvents_no_schedule (invoker:=always_throws "boom"));
    [by apply (bool_decide_unpack (object_wf _)) | by repeat constructor].
Defined.
