(* ===== verification/Spec.v ===== *)
(** * The start of the engine against its specification

    The specification (section 4.3, operation Start) says what a list of
    resolved tasks must produce: for a skipped task the skip notice; for any
    other the scheduling notice and, per cron expression, the immediate run
    when asked for (its notice, then the invocation) followed by the
    registration of one timer.  [startScript] is that sequence of effects as
    a function of the scheduler and the configurations.

    [scheduleEvents] follows the script: whatever the invoker does, what it
    emits is a prefix of the script, and the whole script when it returns
    ([scheduleEvents_follows]).  It returns whenever no immediate invocation
    can throw ([scheduleEvents_complete]); an immediate invocation that
    throws ends it with that exception, the remaining timers unregistered
    ([scheduleEvents_immediate_failure]).  The counting properties of the
    specification are read off the script, and so is the order of the
    immediate run and the registration ([invoked_first]).  A second start
    emits the script a second time ([scheduleEvents_twice]). *)

From Stdlib Require Import String.
From stdpp Require Import base tactics option list strings.
From S2P Require Import Prelude Json Cron Serverless Effects Scheduler Fixture Resolver Engine.

(** ** The script *)

(** The effects of one cron expression. *)
Definition cronScript (this : OfflineScheduler) (functionName : string) (input : json)
    (c : string) : list Effect :=
  (if runImmediately (configOptions this)
   then [Log (this_log this) (runningMessage functionName); Invoke functionName input]
   else [])
  ++ [ScheduleJob (jobOf this functionName input c)].

(** The effects of one configuration. *)
Definition configurationScript (this : OfflineScheduler) (fc : FunctionConfiguration)
    : list Effect :=
  if isSkipped (configOptions this) (functionName fc)
  then [Log (this_log this) (skippingMessage (functionName fc))]
  else
    Log (this_log this) (schedulingMessage (functionName fc) (cron fc) (input fc))
    :: flat_map (cronScript this (functionName fc) (input fc)) (cron fc).

(** The effects of a start. *)
Definition startScript (this : OfflineScheduler) (configurations : list FunctionConfiguration)
    : list Effect :=
  flat_map (configurationScript this) configurations.

(** The jobs a configuration asks for: none when it is skipped, one per
    cron expression otherwise. *)
Definition jobsOf (this : OfflineScheduler) (fc : FunctionConfiguration) : list Job :=
  if isSkipped (configOptions this) (functionName fc) then []
  else jobOf this (functionName fc) (input fc) <$> cron fc.

(** The invocations of a configuration at the start: none unless
    [runImmediately], and then one per cron expression of a configuration
    that is not skipped. *)
Definition immediateRunsOf (this : OfflineScheduler) (fc : FunctionConfiguration)
    : list (string * json) :=
  if runImmediately (configOptions this)
  then (fun j => (job_functionName j, job_input j)) <$> jobsOf this fc
  else [].

(** No immediate invocation can throw when there is none, or when the
    invoker is reliable. *)
Definition safe_start `{invoker : Invoker W} (this : OfflineScheduler) : Prop :=
  runImmediately (configOptions this) = false \/ reliable.

(** The exceptions of a start whose configuration is valid: invocation
    errors of immediate runs. *)
Definition immediate_failure (this : OfflineScheduler) (e : JsError) : Prop :=
  runImmediately (configOptions this) = true /\ exists err, e = InvocationError err.

(** Every registration of a trace comes right after the announcement and
    the invocation of the job's function with the job's input. *)
Definition invoked_first (this : OfflineScheduler) (es : list Effect) : Prop :=
  forall pre job post,
    es = pre ++ ScheduleJob job :: post ->
    exists pre',
      pre = pre' ++ [Log (this_log this) (runningMessage (job_functionName job));
                     Invoke (job_functionName job) (job_input job)].

(** The number of jobs a trace registers. *)
Definition jobCount (es : list Effect) : nat := length (jobs es).

(** ** What the script holds *)

Lemma jobCount_app (es1 es2 : list Effect) :
  jobCount (es1 ++ es2) = jobCount es1 + jobCount es2.
Proof. unfold jobCount. by rewrite jobs_app, length_app. Qed.

Lemma jobs_cronScript this functionName input c :
  jobs (cronScript this functionName input c) = [jobOf this functionName input c].
Proof. unfold cronScript. by destruct (runImmediately _). Qed.

Lemma jobs_configurationScript this fc :
  jobs (configurationScript this fc) = jobsOf this fc.
Proof.
  unfold configurationScript, jobsOf. destruct (isSkipped _ _); [done|].
  change (jobs (Log ?s ?m :: ?es)) with (jobs es). unfold jobs at 1.
  rewrite omap_flat_map.
  rewrite (flat_map_ext_Forall _ (fun c => [jobOf this (functionName fc) (input fc) c])).
  - apply flat_map_singleton_map.
  - apply Forall_forall. intros c _. apply jobs_cronScript.
Qed.

(** The script registers the jobs of the configurations, in order. *)
Lemma jobs_startScript this configurations :
  jobs (startScript this configurations) = flat_map (jobsOf this) configurations.
Proof.
  unfold startScript, jobs at 1. rewrite omap_flat_map.
  apply flat_map_ext_Forall, Forall_forall. intros fc _. apply jobs_configurationScript.
Qed.

Lemma invocations_cronScript this functionName input c :
  invocations (cronScript this functionName input c) =
  if runImmediately (configOptions this) then [(functionName, input)] else [].
Proof. unfold cronScript. by destruct (runImmediately _). Qed.

Lemma invocations_configurationScript this fc :
  invocations (configurationScript this fc) = immediateRunsOf this fc.
Proof.
  unfold configurationScript, immediateRunsOf, jobsOf. destruct (isSkipped _ _).
  { by destruct (runImmediately _). }
  change (invocations (Log ?s ?m :: ?es)) with (invocations es).
  unfold invocations at 1. rewrite omap_flat_map.
  rewrite (flat_map_ext_Forall _ _ _
    (proj2 (Forall_forall _ _) (fun c _ => invocations_cronScript this _ _ c))).
  destruct (runImmediately _).
  - by rewrite flat_map_singleton_map, <- list_fmap_compose.
  - apply flat_map_nil_map.
Qed.

(** The script invokes, with [runImmediately], each function once per job
    it registers, and nothing without. *)
Lemma invocations_startScript this configurations :
  invocations (startScript this configurations) =
  flat_map (immediateRunsOf this) configurations.
Proof.
  unfold startScript, invocations at 1. rewrite omap_flat_map.
  apply flat_map_ext_Forall, Forall_forall. intros fc _.
  apply invocations_configurationScript.
Qed.

(** A job of a configuration is for a function that is not skipped, and
    closes over the configuration's name and input and one of its cron
    expressions. *)
Lemma jobsOf_elem_of this fc job :
  job ∈ jobsOf this fc ->
  isSkipped (configOptions this) (functionName fc) = false /\
  job_functionName job = functionName fc /\ job_input job = input fc /\
  job_cron job ∈ cron fc.
Proof.
  unfold jobsOf. destruct (isSkipped _ _); [by intros ?%elem_of_nil|].
  by intros (c & -> & Hc)%list_elem_of_fmap.
Qed.

(** The callback of a job writes to the scheduler's sink. *)
Lemma jobsOf_log this fc job : job ∈ jobsOf this fc -> job_log job = this_log this.
Proof.
  unfold jobsOf. destruct (isSkipped _ _); [by intros ?%elem_of_nil|].
  by intros (c & -> & _)%list_elem_of_fmap.
Qed.

(** An immediate run is the run of a job of the configuration. *)
Lemma immediateRunsOf_elem_of this fc f i :
  (f, i) ∈ immediateRunsOf this fc ->
  exists job, job ∈ jobsOf this fc /\ job_functionName job = f /\ job_input job = i.
Proof.
  unfold immediateRunsOf. destruct (runImmediately _); [|by intros ?%elem_of_nil].
  intros (job & [= -> ->] & Hjob)%list_elem_of_fmap. by exists job.
Qed.

(** Every job of the script is for a configuration that is not skipped. *)
Lemma startScript_jobs this configurations job :
  job ∈ jobs (startScript this configurations) ->
  exists fc, fc ∈ configurations /\ job_functionName job = functionName fc /\
             job_input job = input fc /\
             isSkipped (configOptions this) (functionName fc) = false.
Proof.
  rewrite jobs_startScript, elem_of_flat_map. intros (fc & Hfc & Hjob).
  apply jobsOf_elem_of in Hjob as (? & ? & ? & _). by exists fc.
Qed.

(** Every immediate run of the script is the run of one of its jobs. *)
Lemma startScript_invocations this configurations f i :
  (f, i) ∈ invocations (startScript this configurations) ->
  exists job, job ∈ jobs (startScript this configurations) /\
              job_functionName job = f /\ job_input job = i.
Proof.
  rewrite invocations_startScript, jobs_startScript, elem_of_flat_map.
  intros (fc & Hfc & (job & ? & ?)%immediateRunsOf_elem_of).
  exists job. rewrite elem_of_flat_map. eauto.
Qed.

Lemma notices_cronScript this functionName input c :
  notices (cronScript this functionName input c) =
  if runImmediately (configOptions this) then [runningMessage functionName] else [].
Proof. unfold cronScript. by destruct (runImmediately _). Qed.

(** The notices of the script are skip, scheduling and running notices. *)
Lemma notices_startScript this configurations m :
  m ∈ notices (startScript this configurations) ->
  exists f, m = skippingMessage f \/ m = runningMessage f \/
            exists cron input, m = schedulingMessage f cron input.
Proof.
  unfold startScript, notices at 1. rewrite omap_flat_map, elem_of_flat_map.
  intros (fc & _ & Hm). exists (functionName fc). revert Hm. unfold configurationScript.
  destruct (isSkipped _ _); [intros ->%list_elem_of_singleton; by left|].
  change (omap ?f (Log ?s ?n :: ?es)) with (n :: notices es).
  intros [->|Hm]%elem_of_cons; [right; right; eauto|]. right; left.
  unfold notices in Hm. rewrite omap_flat_map in Hm.
  apply elem_of_flat_map in Hm as (c & _ & Hm). fold (notices) in Hm.
  rewrite notices_cronScript in Hm. destruct (runImmediately _).
  - by apply list_elem_of_singleton in Hm.
  - by apply elem_of_nil in Hm.
Qed.

(** Every notice of the script goes to the scheduler's sink. *)
Lemma sinks_startScript this configurations s :
  s ∈ sinks (startScript this configurations) -> s = this_log this.
Proof.
  unfold startScript, sinks. rewrite omap_flat_map, elem_of_flat_map.
  intros (fc & _ & Hs). revert Hs. unfold configurationScript.
  destruct (isSkipped _ _); [by intros ->%list_elem_of_singleton|].
  change (omap ?f (Log ?sink ?n :: ?es)) with (sink :: sinks es).
  intros [->|Hs]%elem_of_cons; [done|]. unfold sinks in Hs.
  rewrite omap_flat_map in Hs. apply elem_of_flat_map in Hs as (c & _ & Hs).
  unfold cronScript in Hs. destruct (runImmediately _); cbn in Hs.
  - by apply list_elem_of_singleton in Hs.
  - by apply elem_of_nil in Hs.
Qed.

(** *** The order of an immediate run and its registration *)

Lemma invoked_first_nil this : invoked_first this [].
Proof. intros pre job post H. by destruct pre. Qed.

Lemma invoked_first_app this es1 es2 :
  invoked_first this es1 -> invoked_first this es2 -> invoked_first this (es1 ++ es2).
Proof.
  intros H1 H2 pre job post Heq.
  apply app_eq_app in Heq as [l [[-> Heq]|[-> ->]]].
  - destruct l as [|e l]; cbn in Heq; simplify_eq.
    + destruct (H2 [] job post eq_refl) as [pre' Hpre'].
      by destruct pre' as [|? [|? [|]]].
    + by apply (H1 pre job l).
  - destruct (H2 l job post eq_refl) as [pre' ->]. exists (es1 ++ pre').
    by rewrite app_assoc.
Qed.

Lemma invoked_first_flat_map {A} this (f : A -> list Effect) (xs : list A) :
  Forall (fun x => invoked_first this (f x)) xs -> invoked_first this (flat_map f xs).
Proof.
  induction 1; cbn; [apply invoked_first_nil | by apply invoked_first_app].
Qed.

Lemma invoked_first_prefix this es1 es2 :
  es1 `prefix_of` es2 -> invoked_first this es2 -> invoked_first this es1.
Proof.
  intros [k ->] H pre job post ->. apply (H pre job (post ++ k)). by rewrite <- app_assoc.
Qed.

(** A notice alone registers nothing. *)
Lemma invoked_first_Log this sink m : invoked_first this [Log sink m].
Proof. intros [|? [|]] job post H; by simplify_eq/=. Qed.

Lemma invoked_first_cronScript this functionName input c :
  runImmediately (configOptions this) = true ->
  invoked_first this (cronScript this functionName input c).
Proof.
  intros Hrun pre job post. unfold cronScript. rewrite Hrun.
  destruct pre as [|e1 [|e2 [|e3 pre]]]; intros H; simplify_eq/=.
  - by exists [].
  - by destruct pre.
Qed.

(** With [runImmediately], the script invokes before it registers. *)
Lemma invoked_first_startScript this configurations :
  runImmediately (configOptions this) = true ->
  invoked_first this (startScript this configurations).
Proof.
  intros Hrun. apply invoked_first_flat_map, Forall_forall. intros fc _.
  unfold configurationScript. destruct (isSkipped _ _); [apply invoked_first_Log|].
  apply (invoked_first_app this [_]); [apply invoked_first_Log|].
  apply invoked_first_flat_map, Forall_forall. intros c _.
  by apply invoked_first_cronScript.
Qed.

(** ** The engine follows the script *)

Section Refinement.
Context `{invoker : Invoker W} `{normalizer : Normalizer}.
Context `{!NormalizerSpec normalizer}.
Implicit Types (w : W) (this : OfflineScheduler).

Lemma scheduleCron_follows this functionName input c :
  follows (scheduleCron this functionName input c) (cronScript this functionName input c).
Proof.
  unfold cronScript. destruct (runImmediately (configOptions this)) eqn:Hrun.
  - intros w. rewrite scheduleCron_immediate by done.
    destruct (invoke functionName input w).1; cbn; [done|].
    split; [|done]. by exists [ScheduleJob (jobOf this functionName input c)].
  - rewrite scheduleCron_deferred by done. apply follows_emit.
Qed.

Lemma scheduleConfiguration_follows this fc :
  follows (scheduleConfiguration this fc) (configurationScript this fc).
Proof.
  unfold scheduleConfiguration, configurationScript.
  destruct (isSkipped _ _); [apply follows_emit|].
  apply (follows_bind _ _ [_]); [apply follows_emit|]. intros _.
  apply follows_forEach, Forall_forall. intros c _. apply scheduleCron_follows.
Qed.

Lemma forEach_scheduleConfiguration_follows this configurations :
  follows (forEach (scheduleConfiguration this) configurations)
          (startScript this configurations).
Proof.
  apply follows_forEach, Forall_forall. intros fc _.
  apply scheduleConfiguration_follows.
Qed.

Lemma scheduleCron_total this functionName input c :
  safe_start this -> total_eff (scheduleCron this functionName input c).
Proof.
  intros [Hrun|Hrel].
  - rewrite scheduleCron_deferred by done. eff_total.
  - unfold scheduleCron. eff_total.
Qed.

Lemma scheduleConfiguration_total this fc :
  safe_start this -> total_eff (scheduleConfiguration this fc).
Proof.
  intros Hsafe. unfold scheduleConfiguration; cbn zeta. eff_total. by apply scheduleCron_total.
Qed.

(** Whatever the service and the invoker, what [scheduleEvents] emits is a
    prefix of the script of well-formed configurations: those the resolver
    returned, or none when it threw. *)
Lemma scheduleEvents_script this w :
  object_wf (functionProvider this ()) ->
  exists configurations,
    Forall (configuration_wf (functionProvider this ())) configurations /\
    emitted (scheduleEvents this w) `prefix_of` startScript this configurations.
Proof.
  intros Hwf. destruct (resolve (functionProvider this ())) as [configurations|e] eqn:Hres.
  - exists configurations. split; [by apply resolve_wf|].
    rewrite (scheduleEvents_Normal this configurations Hwf Hres w).
    apply (forEach_scheduleConfiguration_follows this configurations w).
  - exists []. by rewrite (scheduleEvents_Throw this e Hwf Hres w).
Qed.

(** A start that returned resolved its configurations and emitted their
    whole script. *)
Lemma scheduleEvents_returned this w :
  object_wf (functionProvider this ()) ->
  outcome (scheduleEvents this w) = Normal () ->
  exists configurations,
    resolve (functionProvider this ()) = Normal configurations /\
    emitted (scheduleEvents this w) = startScript this configurations.
Proof.
  intros Hwf. destruct (resolve (functionProvider this ())) as [configurations|e] eqn:Hres.
  - rewrite (scheduleEvents_Normal this configurations Hwf Hres w). intros Hout.
    exists configurations. split; [done|].
    apply (forEach_scheduleConfiguration_follows this configurations w). by rewrite Hout.
  - by rewrite (scheduleEvents_Throw this e Hwf Hres w).
Qed.

(** When no immediate invocation can throw, the loop over the
    configurations returns and emits the whole script. *)
Lemma forEach_scheduleConfiguration_complete this configurations w :
  safe_start this ->
  outcome (forEach (scheduleConfiguration this) configurations w) = Normal () /\
  emitted (forEach (scheduleConfiguration this) configurations w)
  = startScript this configurations.
Proof.
  intros Hsafe.
  assert (total_eff (forEach (scheduleConfiguration this) configurations)) as Htotal.
  { eff_total. by apply scheduleConfiguration_total. }
  split; [by apply total_unit|].
  by apply follows_total; [apply forEach_scheduleConfiguration_follows|].
Qed.

(** C1: [scheduleEvents] follows the specification's script.  For a service
    whose rate expressions are all valid, and whatever the invoker does,
    the effects of [scheduleEvents] are a prefix of the script of the
    resolved configurations, in the script's order, and they are the whole
    script when [scheduleEvents] returns. *)
Theorem scheduleEvents_follows this configurations :
  object_wf (functionProvider this ()) ->
  resolve (functionProvider this ()) = Normal configurations ->
  follows (scheduleEvents this) (startScript this configurations).
Proof.
  intros Hwf Hres. rewrite scheduleEvents_Normal by done.
  apply forEach_scheduleConfiguration_follows.
Qed.

(** C2: when no immediate invocation can throw ([runImmediately] is off, or
    the invoker is reliable), [scheduleEvents] returns and its effects are
    exactly the script: every notice, every immediate run and every timer
    of the specification, in order. *)
Theorem scheduleEvents_complete this configurations w :
  object_wf (functionProvider this ()) ->
  resolve (functionProvider this ()) = Normal configurations ->
  safe_start this ->
  outcome (scheduleEvents this w) = Normal () /\
  emitted (scheduleEvents this w) = startScript this configurations.
Proof.
  intros Hwf Hres Hsafe. rewrite (scheduleEvents_Normal this configurations Hwf Hres w).
  by apply forEach_scheduleConfiguration_complete.
Qed.

(** *** The exception of a start *)

Lemma scheduleCron_throws this functionName input c :
  throws_only (immediate_failure this) (scheduleCron this functionName input c).
Proof.
  destruct (runImmediately (configOptions this)) eqn:Hrun.
  - intros w e. rewrite scheduleCron_immediate by done.
    destruct (invoke functionName input w).1 as [|err]; cbn; [done|].
    intros [= <-]. split; eauto.
  - apply throws_only_total. rewrite scheduleCron_deferred by done. apply total_emit.
Qed.

Lemma scheduleCron_falls_short this functionName input c :
  falls_short jobCount (scheduleCron this functionName input c)
              (cronScript this functionName input c).
Proof.
  unfold cronScript. destruct (runImmediately (configOptions this)) eqn:Hrun.
  - intros w. rewrite scheduleCron_immediate by done.
    destruct (invoke functionName input w).1; cbn; [done|]. unfold jobCount. cbn. lia.
  - apply falls_short_total. rewrite scheduleCron_deferred by done. apply total_emit.
Qed.

Lemma scheduleConfiguration_throws this fc :
  throws_only (immediate_failure this) (scheduleConfiguration this fc).
Proof.
  unfold scheduleConfiguration.
  destruct (isSkipped _ _); [apply throws_only_total, total_emit|].
  apply throws_only_bind; [apply throws_only_total, total_emit|]. intros _.
  apply throws_only_forEach, Forall_forall. intros c _. apply scheduleCron_throws.
Qed.

Lemma scheduleConfiguration_falls_short this fc :
  falls_short jobCount (scheduleConfiguration this fc) (configurationScript this fc).
Proof.
  unfold scheduleConfiguration, configurationScript.
  destruct (isSkipped _ _); [apply falls_short_total, total_emit|].
  apply (falls_short_bind _ jobCount_app _ _ [_]);
    [apply follows_emit | apply falls_short_total, total_emit|]. intros _.
  apply (falls_short_forEach _ jobCount_app), Forall_forall. intros c _.
  split; [apply scheduleCron_follows | apply scheduleCron_falls_short].
Qed.

(** C4: an immediate run that throws aborts the start.  When
    [scheduleEvents] throws although every rate expression is valid, then
    [runImmediately] is set, the exception is the error of an invocation,
    and fewer jobs are registered than the configurations have cron
    expressions to schedule: the function that failed, and every function
    after it, is left without its timers. *)
Theorem scheduleEvents_immediate_failure this configurations w e :
  object_wf (functionProvider this ()) ->
  resolve (functionProvider this ()) = Normal configurations ->
  outcome (scheduleEvents this w) = Throw e ->
  immediate_failure this e /\
  length (jobs (emitted (scheduleEvents this w))) <
  length (flat_map (jobsOf this) configurations).
Proof.
  intros Hwf Hres Hthrow. rewrite (scheduleEvents_Normal this configurations Hwf Hres w) in *.
  split.
  - eapply (throws_only_forEach _ _ configurations); [|done].
    apply Forall_forall. intros fc _. apply scheduleConfiguration_throws.
  - rewrite <- jobs_startScript.
    apply (falls_short_forEach jobCount jobCount_app (scheduleConfiguration this)
             (configurationScript this)); [|by rewrite Hthrow].
    apply Forall_forall. intros fc _.
    split; [apply scheduleConfiguration_follows | apply scheduleConfiguration_falls_short].
Qed.

(** C21: the timers of a start.  When no immediate invocation can throw,
    [scheduleEvents] registers exactly one job per cron expression of every
    configuration that is not skipped, in order, each closing over the
    function's name and input, and none for a skipped function. *)
Theorem scheduleEvents_jobs this configurations w :
  object_wf (functionProvider this ()) ->
  resolve (functionProvider this ()) = Normal configurations ->
  safe_start this ->
  jobs (emitted (scheduleEvents this w)) = flat_map (jobsOf this) configurations.
Proof.
  intros Hwf Hres Hsafe. rewrite (scheduleEvents_Normal this configurations Hwf Hres w).
  destruct (forEach_scheduleConfiguration_complete this configurations w Hsafe) as [_ ->].
  apply jobs_startScript.
Qed.

(** C22: whatever the invoker does, the jobs [scheduleEvents] registers are
    an initial segment of the jobs of the configurations: it never
    registers a job for a skipped function, never one twice, never one out
    of order. *)
Theorem scheduleEvents_jobs_prefix this configurations w :
  object_wf (functionProvider this ()) ->
  resolve (functionProvider this ()) = Normal configurations ->
  jobs (emitted (scheduleEvents this w)) `prefix_of` flat_map (jobsOf this) configurations.
Proof.
  intros Hwf Hres. rewrite (scheduleEvents_Normal this configurations Hwf Hres w).
  rewrite <- jobs_startScript. apply omap_prefix.
  apply (forEach_scheduleConfiguration_follows this configurations w).
Qed.

(** C23: the immediate runs of a start.  With a reliable invoker,
    [scheduleEvents] invokes, when [runImmediately] is set, each function
    that is not skipped once per cron expression, with its input, and
    invokes nothing when it is not set. *)
Theorem scheduleEvents_invocations this configurations w :
  object_wf (functionProvider this ()) ->
  resolve (functionProvider this ()) = Normal configurations ->
  safe_start this ->
  invocations (emitted (scheduleEvents this w)) =
  flat_map (immediateRunsOf this) configurations.
Proof.
  intros Hwf Hres Hsafe. rewrite (scheduleEvents_Normal this configurations Hwf Hres w).
  destruct (forEach_scheduleConfiguration_complete this configurations w Hsafe) as [_ ->].
  apply invocations_startScript.
Qed.

(** C13: a second start registers everything again.  When no immediate
    invocation can throw, calling [scheduleEvents] twice on the same
    scheduler returns, and its effects are the script of the resolved
    configurations twice over: every notice is written again, every
    immediate run is made again, and every job is registered a second
    time, next to the one of the first call, which nothing cancels. *)
Theorem scheduleEvents_twice this configurations w :
  object_wf (functionProvider this ()) ->
  resolve (functionProvider this ()) = Normal configurations ->
  safe_start this ->
  outcome ((scheduleEvents this ;; scheduleEvents this)%js w) = Normal () /\
  emitted ((scheduleEvents this ;; scheduleEvents this)%js w)
  = startScript this configurations ++ startScript this configurations /\
  jobs (emitted ((scheduleEvents this ;; scheduleEvents this)%js w))
  = flat_map (jobsOf this) configurations ++ flat_map (jobsOf this) configurations.
Proof.
  intros Hwf Hres Hsafe. unfold bind.
  rewrite !(scheduleEvents_Normal this configurations Hwf Hres).
  destruct (forEach_scheduleConfiguration_complete this configurations w Hsafe) as [-> ->].
  cbn [outcome emitted].
  destruct (forEach_scheduleConfiguration_complete this configurations
              (final (forEach (scheduleConfiguration this) configurations w)) Hsafe) as [-> ->].
  by rewrite jobs_app, jobs_startScript.
Qed.

(** C8: an immediate run comes before its registration.  With
    [runImmediately], whatever the invoker does, every job in the effects
    of [scheduleEvents] is registered right after the notice of the
    immediate run and the invocation of its function with its input: no
    timer is ever registered for a function that was not invoked first,
    and none after an invocation that threw. *)
Theorem scheduleEvents_invoked_first this w :
  object_wf (functionProvider this ()) ->
  runImmediately (configOptions this) = true ->
  invoked_first this (emitted (scheduleEvents this w)).
Proof.
  intros Hwf Hrun. destruct (scheduleEvents_script this w Hwf) as (configurations & _ & Hpre).
  eapply invoked_first_prefix; [exact Hpre|]. by apply invoked_first_startScript.
Qed.

End Refinement.

Lemma scheduleEvents_follows_witness :
  follows (scheduleEvents (invoker:=scripted) (testScheduler scheduleFunction [] true))
          (startScript (testScheduler scheduleFunction [] true)
             [MkFunctionConfiguration fixtureInput "schedule-function" ["*/1 * * * *"]]).
Proof. apply scheduleEvents_follows; [apply scheduleFunction_wf | reflexivity]. Defined.

Lemma scheduleEvents_complete_witness :
  outcome (scheduleEvents (invoker:=slsRunSpy) (testScheduler scheduleFunctionTwoRates [] true) ())
  = Normal () /\
  emitted (scheduleEvents (invoker:=slsRunSpy) (testScheduler scheduleFunctionTwoRates [] true) ())
  = startScript (testScheduler scheduleFunctionTwoRates [] true)
      [MkFunctionConfiguration fixtureInput "schedule-function" ["*/1 * * * *"; "*/2 * * * *"]].
Proof.
  apply scheduleEvents_complete;
    [apply scheduleFunctionTwoRates_wf | reflexivity | right; apply always_returns_reliable].
Defined.

Lemma scheduleEvents_immediate_failure_witness :
  immediate_failure (testScheduler scheduleFunction [] true) (InvocationError "boom") /\
  length (jobs (emitted (scheduleEvents (invoker:=always_throws "boom")
                           (testScheduler scheduleFunction [] true) ()))) <
  length (flat_map (jobsOf (testScheduler scheduleFunction [] true))
            [MkFunctionConfiguration fixtureInput "schedule-function" ["*/1 * * * *"]]).
Proof.
  apply (scheduleEvents_immediate_failure (invoker:=always_throws "boom"));
    [apply scheduleFunction_wf | reflexivity | reflexivity].
Defined.

Lemma scheduleEvents_jobs_witness :
  jobs (emitted (scheduleEvents (invoker:=slsRunSpy)
                   (testScheduler scheduleFunctionTwoRates [] false) ()))
  = flat_map (jobsOf (testScheduler scheduleFunctionTwoRates [] false))
      [MkFunctionConfiguration fixtureInput "schedule-function" ["*/1 * * * *"; "*/2 * * * *"]].
Proof.
  apply scheduleEvents_jobs; [apply scheduleFunctionTwoRates_wf | reflexivity | by left].
Defined.

Lemma scheduleEvents_jobs_prefix_witness :
  jobs (emitted (scheduleEvents (invoker:=scripted)
                   (testScheduler scheduleFunctionTwoRates [] true) [Returned; Threw "late"]))
  `prefix_of`
  flat_map (jobsOf (testScheduler scheduleFunctionTwoRates [] true))
    [MkFunctionConfiguration fixtureInput "schedule-function" ["*/1 * * * *"; "*/2 * * * *"]].
Proof.
  apply scheduleEvents_jobs_prefix; [apply scheduleFunctionTwoRates_wf | reflexivity].
Defined.

Lemma scheduleEvents_invocations_witness :
  invocations (emitted (scheduleEvents (invoker:=slsRunSpy)
                          (testScheduler scheduleFunction [] true) ()))
  = flat_map (immediateRunsOf (testScheduler scheduleFunction [] true))
      [MkFunctionConfiguration fixtureInput "schedule-function" ["*/1 * * * *"]].
Proof.
  apply scheduleEvents_invocations;
    [apply scheduleFunction_wf | reflexivity | right; apply always_returns_reliable].
Defined.

Lemma scheduleEvents_invoked_first_witness :
  invoked_first (testScheduler scheduleFunctionTwoRates [] true)
    (emitted (scheduleEvents (invoker:=scripted)
                (testScheduler scheduleFunctionTwoRates [] true) [Returned; Threw "late"])).
Proof.
  apply (scheduleEvents_invoked_first (invoker:=scripted));
    [apply scheduleFunctionTwoRates_wf | reflexivity].
Defined.

(** The fixture, started twice: two jobs for the one rate. *)
Lemma scheduleEvents_twice_witness :
  let this := testScheduler scheduleFunction [] false in
  let configurations :=
    [MkFunctionConfiguration fixtureInput "schedule-function" ["*/1 * * * *"]] in
  outcome ((scheduleEvents (invoker:=slsRunSpy) this ;; scheduleEvents (invoker:=slsRunSpy) this)%js ()) = Normal () /\
  emitted ((scheduleEvents (invoker:=slsRunSpy) this ;; scheduleEvents (invoker:=slsRunSpy) this)%js ())
  = startScript this configurations ++ startScript this configurations /\
  jobs (emitted ((scheduleEvents (invoker:=slsRunSpy) this ;; scheduleEvents (invoker:=slsRunSpy) this)%js ()))
  = flat_map (jobsOf this) configurations ++ flat_map (jobsOf this) configurations.
Proof.
  intros this configurations.
  apply (scheduleEvents_twice (invoker:=slsRunSpy) this configurations ());
    [apply scheduleFunction_wf | reflexivity | by left].
Defined.
