(* ===== verification/Process.v ===== *)
(** * The life of a scheduler process

    [src/src/scheduler.ts], lines 34-37 and 93-108, and the firing of jobs.
    A scheduler is started by a call of [scheduleEvents] (embedded in a
    host) or of [scheduleEventsStandalone], which writes its banner, calls
    [scheduleEvents] and leaves [listenForTermination] to run next (the
    [then] of a resolved promise: before any job can fire or any signal can
    be handled).  [listenForTermination] installs the handlers of SIGINT and
    SIGTERM; the race of the two promises is won by the first signal, whose
    continuation writes the stop notice and exits with status 0.

    The process is a labelled transition system: [step] is the transition
    function, [Step] the same as a relation, and the labels are what the
    host and the environment do: the two calls, the pending continuation,
    the firing of a registered job (node-schedule calls [jobCallback]) and
    the delivery of a signal.  When jobs fire is the environment's choice.
    Each transition runs code of the scheduler and takes the phase its
    completion gives.  A start that threw leaves the process in the phase
    [Failed]; the jobs registered before the exception are still
    registered, so they may still fire if the host goes on (a host that
    exits takes no further transition).  An exception that left the
    callback of a job, or the continuation of the race, would have nothing
    to catch it: the phase [Crashed], in which nothing happens any more.
    That no reachable process is in it is a theorem about [jobCallback],
    not a choice of the model.

    [Shape] is the invariant of the reachable processes: what the history
    of each phase looks like; [trace_of] is the protocol: the sequences
    of transitions that lead to each phase.  From it follow the well-formedness of the
    registry ([job_wf]), the number of stop notices ([stopNotices]) and
    which invocations can have happened.  [rank] measures how far a
    process is from its exit: every transition that is not a firing
    lowers it. *)

From Stdlib Require Import String ZArith.
From stdpp Require Import base tactics option list strings.
From S2P Require Import Prelude Json Cron Serverless Effects Scheduler Fixture Resolver Engine Spec.

#[local] Open Scope js_scope.

Inductive Signal : Type := SIGINT | SIGTERM.

(** The value the promise of a signal resolves with. *)
Definition signalName (s : Signal) : string :=
  match s with
  | SIGINT => "SIGINT"
  | SIGTERM => "SIGTERM"
  end.

Definition startingMessage : string :=
  "Starting serverless-offline-schedule in standalone process. Press CTRL+C to stop.".

Definition stoppingMessage (command : string) : string :=
  "Got " +:+ command +:+ " signal. Stopping serverless-offline-scheduleer...".

(** A notice is a stop notice when it begins as [stoppingMessage] does. *)
Definition isStopNotice (message : string) : bool := String.prefix "Got " message.

(** The stop notices of a history. *)
Definition stopNotices (es : list Effect) : list string :=
  List.filter isStopNotice (notices es).

(** A registered job is well formed for a scheduler when its cron
    expression is the canonical schedule of a rate, its function is a
    function of the service that is not skipped, its input is truthy and
    its callback writes to the scheduler's sink. *)
Definition job_wf (this : OfflineScheduler) (job : Job) : Prop :=
  (exists n u, parse_cron (job_cron job) = Some (schedule_of_rate n u)) /\
  job_functionName job ∈ keys (functionProvider this ()) /\
  isSkipped (configOptions this) (job_functionName job) = false /\
  truthy (job_input job) = true /\
  job_log job = this_log this.

Inductive Phase : Type :=
| Created                  (* constructed, not started *)
| Scheduled                (* [scheduleEvents] returned: jobs may fire *)
| Started                  (* standalone: [listenForTermination] is pending *)
| Listening                (* standalone: jobs may fire, signals are handled *)
| Failed (e : JsError)     (* the start threw [e] *)
| Crashed (e : JsError)    (* [e] escaped a callback into the event loop *)
| Exited (code : Z).       (* [process.exit(code)] *)

Inductive Label : Type :=
| CallScheduleEvents
| CallScheduleEventsStandalone
| RunThen
| Fire (i : nat)
| Deliver (s : Signal).

#[export] Instance Signal_eq_dec : EqDecision Signal.
Proof. solve_decision. Defined.

#[export] Instance Phase_eq_dec : EqDecision Phase.
Proof. solve_decision. Defined.

#[export] Instance Label_eq_dec : EqDecision Label.
Proof. solve_decision. Defined.

(** A process: its phase, everything it did so far, and the world of the
    invoked functions. *)
Record Process (W : Type) : Type := MkProcess {
  phase : Phase;
  history : list Effect;
  world : W;
}.
Arguments MkProcess {W} phase history world.
Arguments phase {W} p.
Arguments history {W} p.
Arguments world {W} p.

(** The process before anything is called. *)
Definition initial {W} (w : W) : Process W := MkProcess Created [] w.

(** Jobs fire in these phases. *)
Definition firing (ph : Phase) : bool :=
  match ph with
  | Scheduled | Listening | Failed _ => true
  | Created | Started | Crashed _ | Exited _ => false
  end.

(** A label that starts the scheduler. *)
Definition is_start (l : Label) : bool :=
  match l with
  | CallScheduleEvents | CallScheduleEventsStandalone => true
  | _ => false
  end.

(** A label that fires a job. *)
Definition is_fire (l : Label) : bool :=
  match l with
  | Fire _ => true
  | _ => false
  end.

(** The transitions of the lifecycle a phase still has before it: the
    measure that decreases at every transition that is not a firing. *)
Definition rank (ph : Phase) : nat :=
  match ph with
  | Created => 3
  | Started => 2
  | Listening => 1
  | Scheduled | Failed _ | Crashed _ | Exited _ => 0
  end.

(** The transitions of a sequence that are not firings. *)
Definition control (ls : list Label) : list Label :=
  List.filter (fun l => negb (is_fire l)) ls.

(** The sequences of transitions that lead a fresh process to a phase:
    one start (a host starts a scheduler once: a second call of
    [scheduleEvents] is not a transition here, see [Restart] for the
    host that makes one), then firings; for a standalone process the
    continuation comes right after the start, and a signal ends the
    sequence. *)
Definition trace_of (ph : Phase) (ls : list Label) : Prop :=
  match ph with
  | Created => ls = []
  | Scheduled => exists ks : list nat, ls = CallScheduleEvents :: (Fire <$> ks)
  | Started => ls = [CallScheduleEventsStandalone]
  | Listening =>
      exists ks : list nat, ls = CallScheduleEventsStandalone :: RunThen :: (Fire <$> ks)
  | Failed _ => exists l (ks : list nat), is_start l = true /\ ls = l :: (Fire <$> ks)
  | Crashed _ => False
  | Exited _ =>
      exists (ks : list nat) s,
        ls = CallScheduleEventsStandalone :: RunThen :: (Fire <$> ks) ++ [Deliver s]
  end.

Section Process.
Context `{invoker : Invoker W} `{normalizer : Normalizer}.
Variable this : OfflineScheduler.

(** [this.scheduleEventsStandalone()], up to the promise it returns. *)
Definition scheduleEventsStandalone : Sched W unit :=
  log (this_log this) startingMessage ;;
  scheduleEvents this.

(** The continuation of the race in [listenForTermination]: the notice and
    the status [process.exit] is called with. *)
Definition onTermination (command : string) : Sched W Z :=
  log (this_log this) (stoppingMessage command) ;;
  ret 0%Z.

(** The process after running [m], in the phase [next] gives for [m]'s
    completion. *)
Definition after {A} (p : Process W) (m : Sched W A) (next : Completion A -> Phase)
    : Process W :=
  let r := m (world p) in
  MkProcess (next (outcome r)) (history p ++ emitted r) (final r).

(** The phase after a start. *)
Definition started (ok : Phase) (c : Completion unit) : Phase :=
  match c with
  | Normal _ => ok
  | Throw e => Failed e
  end.

(** The phase after the callback of a job: the phase the job fired in
    when the callback returned; an exception that leaves the callback is
    thrown into the event loop, where nothing catches it. *)
Definition resumed (ph : Phase) (c : Completion unit) : Phase :=
  match c with
  | Normal _ => ph
  | Throw e => Crashed e
  end.

(** The phase after the continuation of the race. *)
Definition exited (c : Completion Z) : Phase :=
  match c with
  | Normal code => Exited code
  | Throw e => Crashed e
  end.

(** [this.listenForTermination()], run as the continuation of the
    resolved promise: the handlers of SIGINT and SIGTERM are installed and
    the race of their promises is pending; nothing is written and nothing
    is invoked until a signal arrives. *)
Definition listenForTermination (p : Process W) : Process W :=
  MkProcess Listening (history p) (world p).

(** One transition, when the label is enabled. *)
Definition step (p : Process W) (l : Label) : option (Process W) :=
  match l with
  | CallScheduleEvents =>
      match phase p with
      | Created => Some (after p (scheduleEvents this) (started Scheduled))
      | _ => None
      end
  | CallScheduleEventsStandalone =>
      match phase p with
      | Created => Some (after p scheduleEventsStandalone (started Started))
      | _ => None
      end
  | RunThen =>
      match phase p with
      | Started => Some (listenForTermination p)
      | _ => None
      end
  | Fire i =>
      if firing (phase p) then
        match jobs (history p) !! i with
        | Some job => Some (after p (jobCallback job) (resumed (phase p)))
        | None => None
        end
      else None
  | Deliver s =>
      match phase p with
      | Listening => Some (after p (onTermination (signalName s)) exited)
      | _ => None
      end
  end.

(** A sequence of transitions. *)
Fixpoint run (p : Process W) (ls : list Label) : option (Process W) :=
  match ls with
  | [] => Some p
  | l :: ls' =>
      match step p l with
      | Some p' => run p' ls'
      | None => None
      end
  end.

(** The transitions as a relation. *)
Inductive Step : Process W -> Label -> Process W -> Prop :=
| Step_scheduleEvents p :
    phase p = Created ->
    Step p CallScheduleEvents (after p (scheduleEvents this) (started Scheduled))
| Step_scheduleEventsStandalone p :
    phase p = Created ->
    Step p CallScheduleEventsStandalone (after p scheduleEventsStandalone (started Started))
| Step_listen p :
    phase p = Started ->
    Step p RunThen (listenForTermination p)
| Step_fire p i job :
    firing (phase p) = true ->
    jobs (history p) !! i = Some job ->
    Step p (Fire i) (after p (jobCallback job) (resumed (phase p)))
| Step_signal p s :
    phase p = Listening ->
    Step p (Deliver s) (after p (onTermination (signalName s)) exited).

(** The processes a scheduler can be in. *)
Inductive Reachable : Process W -> Prop :=
| Reachable_initial w : Reachable (initial w)
| Reachable_step p l p' : Reachable p -> Step p l p' -> Reachable p'.

(** The effects of the firings of jobs among [js], in any number and
    order, each from some state of the world. *)
Inductive Fired (js : list Job) : list Effect -> Prop :=
| Fired_nil : Fired js []
| Fired_snoc es job w :
    Fired js es -> job ∈ js -> Fired js (es ++ emitted (jobCallback job w)).

(** The banner of a standalone process. *)
Definition banner : list Effect := [Log (this_log this) startingMessage].

(** The stop notice for a signal. *)
Definition stopNotice (s : Signal) : list Effect :=
  [Log (this_log this) (stoppingMessage (signalName s))].

(** The form of a process in each phase: its history is the banner (when
    standalone), the effects of a start, the effects of firings of the jobs
    that start registered, and the stop notice (when it exited). *)
Inductive Shape : Process W -> Prop :=
| Shape_created w :
    Shape (MkProcess Created [] w)
| Shape_scheduled w0 fired w :
    outcome (scheduleEvents this w0) = Normal () ->
    Fired (jobs (emitted (scheduleEvents this w0))) fired ->
    Shape (MkProcess Scheduled (emitted (scheduleEvents this w0) ++ fired) w)
| Shape_started w0 w :
    outcome (scheduleEvents this w0) = Normal () ->
    Shape (MkProcess Started (banner ++ emitted (scheduleEvents this w0)) w)
| Shape_listening w0 fired w :
    outcome (scheduleEvents this w0) = Normal () ->
    Fired (jobs (emitted (scheduleEvents this w0))) fired ->
    Shape (MkProcess Listening (banner ++ emitted (scheduleEvents this w0) ++ fired) w)
| Shape_failed (standalone : bool) w0 e fired w :
    outcome (scheduleEvents this w0) = Throw e ->
    Fired (jobs (emitted (scheduleEvents this w0))) fired ->
    Shape (MkProcess (Failed e)
             ((if standalone then banner else []) ++ emitted (scheduleEvents this w0) ++ fired)
             w)
| Shape_exited w0 fired s w :
    outcome (scheduleEvents this w0) = Normal () ->
    Fired (jobs (emitted (scheduleEvents this w0))) fired ->
    Shape (MkProcess (Exited 0)
             (banner ++ emitted (scheduleEvents this w0) ++ fired ++ stopNotice s) w).

End Process.

(** ** The transition function and the relation agree *)

Section ProcessFacts.
Context `{invoker : Invoker W} `{normalizer : Normalizer}.
Context `{!NormalizerSpec normalizer}.
Variable this : OfflineScheduler.
Implicit Types (p : Process W) (l : Label).

Lemma step_Step p l p' : step this p l = Some p' <-> Step this p l p'.
Proof.
  split.
  - destruct l; cbn; repeat case_match; intros; simplify_eq; by constructor.
  - destruct 1 as [p Hp|p Hp|p Hp|p i job Hp Hjob|p s Hp]; cbn;
      by rewrite ?Hp, ?Hjob.
Qed.

(** The transitions are deterministic. *)
Lemma Step_deterministic p l p1 p2 : Step this p l p1 -> Step this p l p2 -> p1 = p2.
Proof. rewrite <- !step_Step. congruence. Qed.

(** ** One transition *)

(** Nothing a process did is ever undone. *)
Lemma Step_history p l p' : Step this p l p' -> history p `prefix_of` history p'.
Proof. destruct 1; cbn; try done; by apply prefix_app_r. Qed.

(** A firing job runs its callback and nothing else.  Firing the
    [i]-th registered job appends one invocation of its function with its
    input and one notice, the success notice when the invocation returned
    and the failure notice with the error when it threw; the phase is
    unchanged either way, so the failure of one firing stops neither the
    process nor later firings. *)
Lemma step_fire p i job :
  firing (phase p) = true ->
  jobs (history p) !! i = Some job ->
  step this p (Fire i) =
  Some (MkProcess (phase p)
          (history p ++
           [Invoke (job_functionName job) (job_input job);
            Log (job_log job)
                (match (invoke (job_functionName job) (job_input job) (world p)).1 with
                 | Returned => successMessage (job_functionName job)
                 | Threw err => failureMessage (job_functionName job) err
                 end)])
          (invoke (job_functionName job) (job_input job) (world p)).2).
Proof.
  intros Hp Hjob. cbn. rewrite Hp, Hjob. unfold after. by rewrite jobCallback_run.
Qed.

(** The callback of a job returns, whatever its invocation does: the
    process after a firing is in the phase it fired in. *)
Lemma after_jobCallback p job :
  after p (jobCallback job) (resumed (phase p)) =
  MkProcess (phase p) (history p ++ emitted (jobCallback job (world p)))
            (final (jobCallback job (world p))).
Proof. unfold after. by rewrite jobCallback_run. Qed.

(** A firing registers nothing. *)
Lemma after_jobCallback_jobs p job (next : Completion () -> Phase) :
  jobs (history (after p (jobCallback job) next)) = jobs (history p).
Proof. unfold after. rewrite jobCallback_run. cbn. by autorewrite with eff. Qed.

(** C29: jobs are registered by a start and by nothing else: no
    transition after it, firing or signal, registers a job.  (The program
    has no call that cancels a job, and the model no such effect: the
    registry only grows.) *)
Lemma Step_jobs p l p' :
  Step this p l p' -> is_start l = false -> jobs (history p') = jobs (history p).
Proof.
  destruct 1 as [| | |p i job Hp Hjob|]; cbn; try done; intros _.
  - apply (after_jobCallback_jobs p job (resumed (phase p))).
  - cbn. by autorewrite with eff.
Qed.

(** A process that exited takes no transition: a second signal is never
    observed, and no job fires. *)
Lemma step_Exited p l code : phase p = Exited code -> step this p l = None.
Proof. intros Hp. destruct l; cbn; by rewrite Hp. Qed.

End ProcessFacts.

(** ** The form of every reachable process *)

Section Invariant.
Context `{invoker : Invoker W} `{normalizer : Normalizer}.
Context `{!NormalizerSpec normalizer}.
Variable this : OfflineScheduler.
Implicit Types (p : Process W) (l : Label) (w : W).

Lemma scheduleEventsStandalone_run w :
  scheduleEventsStandalone this w =
  MkRun (outcome (scheduleEvents this w))
        (banner this ++ emitted (scheduleEvents this w))
        (final (scheduleEvents this w)).
Proof.
  unfold scheduleEventsStandalone, bind, log, emit; cbn.
  by destruct (outcome (scheduleEvents this w)).
Qed.

Lemma onTermination_run command w :
  onTermination this command w =
  MkRun (Normal 0%Z) [Log (this_log this) (stoppingMessage command)] w.
Proof. done. Qed.

(** Firings register nothing. *)
Lemma Fired_jobs js es : Fired js es -> jobs es = [].
Proof.
  induction 1 as [|es job w _ IH _]; [done|].
  by rewrite jobs_app, IH, jobCallback_run.
Qed.

Lemma jobs_banner_start w0 fired js (standalone : bool) :
  Fired js fired ->
  jobs ((if standalone then banner this else []) ++ emitted (scheduleEvents this w0) ++ fired)
  = jobs (emitted (scheduleEvents this w0)).
Proof.
  intros Hfired. rewrite !jobs_app, (Fired_jobs js fired Hfired), app_nil_r.
  by destruct standalone.
Qed.

(** One more firing, appended to a history of the form of [Shape]. *)
Lemma Fired_step (pre start fired : list Effect) job w i :
  Fired (jobs start) fired ->
  jobs (pre ++ start ++ fired) = jobs start ->
  jobs (pre ++ start ++ fired) !! i = Some job ->
  exists fired',
    Fired (jobs start) fired' /\
    (pre ++ start ++ fired) ++ emitted (jobCallback job w) = pre ++ start ++ fired'.
Proof.
  intros Hfired Hjobs Hjob. exists (fired ++ emitted (jobCallback job w)). split.
  - constructor; [done|]. rewrite Hjobs in Hjob. by eapply list_elem_of_lookup_2.
  - by rewrite <- !app_assoc.
Qed.

Lemma Shape_start p (standalone : bool) :
  phase p = Created -> Shape this p ->
  Shape this (after p (if standalone then scheduleEventsStandalone this
                       else scheduleEvents this)
                (started (if standalone then Started else Scheduled))).
Proof.
  destruct p as [ph h w]; cbn [phase history world]. intros -> Hshape.
  inversion Hshape; subst. unfold after; cbn [phase history world app].
  assert (forall r : Run Effect W unit,
    r = scheduleEvents this w ->
    Shape this (MkProcess (started (if standalone then Started else Scheduled) (outcome r))
                  ((if standalone then banner this else []) ++ emitted r) (final r))) as Hr.
  { intros r ->. destruct (outcome (scheduleEvents this w)) as [[]|e] eqn:Hout; cbn.
    - destruct standalone.
      + by apply Shape_started.
      + rewrite <- (app_nil_r (emitted _)). by apply Shape_scheduled; [|constructor].
    - rewrite <- (app_nil_r (emitted _)). by apply Shape_failed; [|constructor]. }
  destruct standalone; [|by apply Hr].
  rewrite scheduleEventsStandalone_run; cbn. by apply (Hr _ eq_refl).
Qed.

(** Rewrites the history of the process in the goal with [Heq], whose
    left-hand side is convertible with it. *)
Ltac rewrite_history Heq :=
  lazymatch type of Heq with
  | ?l = _ =>
      lazymatch goal with
      | |- Shape _ (MkProcess _ ?h _) => change h with l; rewrite Heq
      end
  end.

Lemma Shape_fire p i job :
  firing (phase p) = true -> jobs (history p) !! i = Some job -> Shape this p ->
  Shape this (after p (jobCallback job) (resumed (phase p))).
Proof.
  rewrite after_jobCallback. destruct p as [ph h w]; cbn [phase history world].
  intros Hph Hjob Hshape.
  inversion Hshape as [|w0 fired ? Hout Hfired|? ?|w0 fired ? Hout Hfired
                      |standalone w0 e fired ? Hout Hfired|]; subst; try done.
  - destruct (Fired_step [] _ fired job w i Hfired) as (fired' & ? & Heq);
      [exact (jobs_banner_start w0 fired _ false Hfired) | done |].
    rewrite_history Heq. by apply Shape_scheduled.
  - destruct (Fired_step (banner this) _ fired job w i Hfired) as (fired' & ? & Heq);
      [exact (jobs_banner_start w0 fired _ true Hfired) | done |].
    rewrite_history Heq. by apply Shape_listening.
  - destruct (Fired_step (if standalone then banner this else []) _ fired job w i Hfired)
      as (fired' & ? & Heq); [exact (jobs_banner_start w0 fired _ standalone Hfired) | done |].
    rewrite_history Heq. by apply Shape_failed.
Qed.

Lemma Shape_step p l p' : Shape this p -> Step this p l p' -> Shape this p'.
Proof.
  intros Hshape Hstep. destruct Hstep as [p Hp|p Hp|p Hp|p i job Hp Hjob|p s Hp].
  - by apply (Shape_start p false).
  - by apply (Shape_start p true).
  - destruct p as [ph h w]; cbn [phase history world] in *; subst.
    inversion Hshape; subst.
    rewrite <- (app_nil_r (emitted _)). by apply Shape_listening; [|constructor].
  - by apply (Shape_fire p i job).
  - destruct p as [ph h w]; cbn [phase history world] in *; subst.
    inversion Hshape as [| | |w0 fired ? Hout Hfired| |]; subst.
    unfold after. rewrite onTermination_run.
    pose proof (Shape_exited this w0 fired s w Hout Hfired) as Hexit.
    rewrite !app_assoc in Hexit. exact Hexit.
Qed.

(** Every reachable process has the form of its phase. *)
Lemma Reachable_Shape p : Reachable this p -> Shape this p.
Proof.
  induction 1 as [w|p l p' _ IH Hstep]; [constructor|]. by eapply Shape_step.
Qed.

End Invariant.

(** ** Runs of a process *)

Section Lifecycle.
Context `{invoker : Invoker W} `{normalizer : Normalizer}.
Context `{!NormalizerSpec normalizer}.
Variable this : OfflineScheduler.
Implicit Types (p : Process W) (l : Label) (w : W).

Lemma run_app p ls1 ls2 :
  run this p (ls1 ++ ls2) = run this p ls1 ≫= fun p' => run this p' ls2.
Proof.
  revert p. induction ls1 as [|l ls1 IH]; intros p; [done|]. cbn.
  by destruct (step this p l).
Qed.

Lemma run_Reachable p ls p' :
  Reachable this p -> run this p ls = Some p' -> Reachable this p'.
Proof.
  revert p. induction ls as [|l ls IH]; cbn; intros p Hp; [by intros [= <-]|].
  destruct (step this p l) as [p1|] eqn:Hstep; [|done].
  apply IH. eapply Reachable_step; [done|]. by apply step_Step.
Qed.

(** From a process in which jobs can fire, any sequence of firings of
    registered jobs runs: its effects are firings of those jobs, and its
    invocations those of the jobs chosen, in order. *)
Lemma run_fires p (ks : list nat) :
  firing (phase p) = true ->
  Forall (fun i => i < length (jobs (history p))) ks ->
  exists fired w',
    run this p (Fire <$> ks) = Some (MkProcess (phase p) (history p ++ fired) w') /\
    Fired (jobs (history p)) fired /\
    invocations fired = invocationOf <$> omap (fun i => jobs (history p) !! i) ks.
Proof.
  intros Hfiring. induction ks as [|i ks IH] using rev_ind; intros His.
  { exists [], (world p). rewrite app_nil_r. split_and!; [by destruct p|constructor|done]. }
  apply Forall_app in His as [His Hi%Forall_inv].
  destruct (IH His) as (fired & w' & Hrun & Hfired & Hinv).
  apply lookup_lt_is_Some in Hi as [job Hjob].
  exists (fired ++ emitted (jobCallback job w')), (final (jobCallback job w')).
  rewrite fmap_app, run_app, Hrun. cbn [mbind option_bind fmap list_fmap run step phase history].
  rewrite Hfiring, jobs_app, (Fired_jobs _ _ Hfired), app_nil_r, Hjob. split_and!.
  - unfold after. cbn [world history]. rewrite jobCallback_run. cbn [resumed outcome].
    by rewrite app_assoc.
  - apply Fired_snoc; [done|]. by eapply list_elem_of_lookup_2.
  - rewrite invocations_app, Hinv, omap_app, fmap_app. cbn [omap list_omap].
    by rewrite Hjob, jobCallback_run.
Qed.

(** C7: firings are isolated from each other.  An exception that left
    the callback of a job would be thrown into the event loop, where
    nothing catches it: the process would crash and no job would fire
    again ([resumed]).  It never happens: from a process in which jobs
    can fire, every sequence of firings of registered jobs, in any order
    and with any repetitions, runs to its end, whether the invocations
    return or throw; each firing invokes the function of its job with
    its input, and the phase and the registry are afterwards what they
    were.  The [try] of the callback is what makes it so: a failure never
    stops a timer, its own or another. *)
Theorem fire_isolation p (ks : list nat) :
  firing (phase p) = true ->
  Forall (fun i => i < length (jobs (history p))) ks ->
  exists p',
    run this p (Fire <$> ks) = Some p' /\
    phase p' = phase p /\
    jobs (history p') = jobs (history p) /\
    invocations (history p') =
    invocations (history p) ++ (invocationOf <$> omap (fun i => jobs (history p) !! i) ks).
Proof.
  intros Hfiring His. destruct (run_fires p ks Hfiring His) as (fired & w' & -> & Hfired & <-).
  eexists. split_and!; [done|done|..]; cbn [history].
  - by rewrite jobs_app, (Fired_jobs _ _ Hfired), app_nil_r.
  - apply invocations_app.
Qed.

(** C12: the order of what happens in a process.  A host starts a
    scheduler once; the transitions that then take the process to a
    phase are that start followed by firings.  In a standalone process
    the continuation that begins to listen runs right after the start,
    before any job can fire, and a signal is the last transition there
    is: the first signal wins and a second is never observed, and no job
    fires after the exit.  A start that threw is followed by firings
    only: the continuation never runs and no signal is handled.  No
    sequence of transitions ends in a crash: no exception ever leaves a
    callback. *)
Theorem run_trace w ls p :
  run this (initial w) ls = Some p -> trace_of (phase p) ls.
Proof.
  revert p. induction ls as [|l ls IH] using rev_ind; intros p; [by intros [= <-]|].
  rewrite run_app. destruct (run this (initial w) ls) as [p0|]; [|done].
  specialize (IH p0 eq_refl). cbn [mbind option_bind run].
  destruct (step this p0 l) as [p1|] eqn:Hstep; [|done]. intros [= <-].
  apply step_Step in Hstep.
  destruct Hstep as [p0 Hp|p0 Hp|p0 Hp|p0 i job Hp Hjob|p0 s Hp]; cbn [after phase];
    rewrite ?Hp in IH; cbn [trace_of] in IH.
  - subst ls. unfold started. destruct (outcome _); [by exists []|by exists CallScheduleEvents, []].
  - subst ls. unfold started.
    destruct (outcome _); [done|by exists CallScheduleEventsStandalone, []].
  - subst ls. by exists [].
  - rewrite jobCallback_run. cbn [resumed outcome].
    destruct (phase p0); try done; cbn [trace_of] in *.
    + destruct IH as (ks & ->). exists (ks ++ [i]). by rewrite fmap_app.
    + destruct IH as (ks & ->). exists (ks ++ [i]). by rewrite fmap_app.
    + destruct IH as (l & ks & ? & ->). exists l, (ks ++ [i]). by rewrite fmap_app.
  - destruct IH as (ks & ->). rewrite onTermination_run. by exists ks, s.
Qed.

(** The history of a process that started: the banner of a standalone
    process, what [scheduleEvents] did, the firings of the jobs it
    registered, and the stop notice of a process that exited. *)
Lemma Shape_history p :
  Shape this p -> phase p <> Created ->
  exists (standalone : bool) w0 fired stop,
    Fired (jobs (emitted (scheduleEvents this w0))) fired /\
    match phase p with
    | Exited _ => exists s, stop = stopNotice this s
    | _ => stop = []
    end /\
    history p =
    (if standalone then banner this else []) ++ emitted (scheduleEvents this w0)
      ++ fired ++ stop.
Proof.
  destruct 1 as [w|w0 fired w ? Hf|w0 w ?|w0 fired w ? Hf|standalone w0 e fired w ? Hf
                |w0 fired s w ? Hf]; cbn [phase history]; intros Hph; [done|..].
  - exists false, w0, fired, []. by rewrite !app_nil_r.
  - exists true, w0, [], []. split_and!; [apply Fired_nil | done | by rewrite !app_nil_r].
  - exists true, w0, fired, []. by rewrite !app_nil_r.
  - exists standalone, w0, fired, []. by rewrite !app_nil_r.
  - exists true, w0, fired, (stopNotice this s). eauto.
Qed.

(** A firing invokes the function of a registered job, with its input. *)
Lemma Fired_invocations js es f i :
  Fired js es -> (f, i) ∈ invocations es ->
  exists job, job ∈ js /\ job_functionName job = f /\ job_input job = i.
Proof.
  induction 1 as [|es job w _ IH Hjob]; [by intros ?%elem_of_nil|].
  rewrite invocations_app, jobCallback_run, elem_of_app. intros [?|Hin]; [eauto|].
  apply list_elem_of_singleton in Hin as [= -> ->]. by exists job.
Qed.

(** An invocation in the history of a process whose start emits a prefix
    of [script] is the run of a job of [script]. *)
Lemma Shape_invocations p script f i :
  (forall w0, emitted (scheduleEvents this w0) `prefix_of` script) ->
  (forall f i, (f, i) ∈ invocations script ->
     exists job, job ∈ jobs script /\ job_functionName job = f /\ job_input job = i) ->
  Shape this p -> (f, i) ∈ invocations (history p) ->
  exists job, job ∈ jobs script /\ job_functionName job = f /\ job_input job = i.
Proof.
  intros Hpre Hscript Hp Hin. destruct (decide (phase p = Created)) as [Hph|Hph].
  { destruct Hp; try done. by apply elem_of_nil in Hin. }
  destruct (Shape_history p Hp Hph) as (standalone & w0 & fired & stop & Hfired & Hstop & Hhist).
  rewrite Hhist, !invocations_app, !elem_of_app in Hin.
  destruct Hin as [Hin|[Hin|[Hin|Hin]]].
  - destruct standalone; by apply elem_of_nil in Hin.
  - apply Hscript. eapply elem_of_prefix; [done|]. apply omap_prefix, Hpre.
  - destruct (Fired_invocations _ _ f i Hfired Hin) as (job & Hjob & ? & ?).
    exists job. split; [|done]. eapply elem_of_prefix; [done|]. apply omap_prefix, Hpre.
  - assert (invocations stop = []) as Hnone.
    { destruct (phase p); try (by subst). by destruct Hstop as [s ->]. }
    rewrite Hnone in Hin. by apply elem_of_nil in Hin.
Qed.

(** C5: only the functions of the service are ever invoked, and never a
    skipped one.  In every state a process can reach, by a start of either
    kind, any firings of jobs in any order and a signal, each invocation in
    its history is of a function of a resolved configuration, with that
    configuration's input, and the function is not in the skip list. *)
Theorem Reachable_invocations p configurations f i :
  object_wf (functionProvider this ()) ->
  resolve (functionProvider this ()) = Normal configurations ->
  Reachable this p -> (f, i) ∈ invocations (history p) ->
  exists fc, fc ∈ configurations /\ functionName fc = f /\ input fc = i /\
             isSkipped (configOptions this) f = false.
Proof.
  intros Hwf Hres Hp Hin.
  destruct (Shape_invocations p (startScript this configurations) f i)
    as (job & Hjob & <- & <-); [| |by apply Reachable_Shape|done|].
  - intros w0. rewrite (scheduleEvents_Normal this configurations Hwf Hres w0).
    apply (forEach_scheduleConfiguration_follows this configurations w0).
  - apply startScript_invocations.
  - apply startScript_jobs in Hjob as (fc & ? & -> & -> & ?). by exists fc.
Qed.

(** The standalone start of a fresh process. *)
Lemma step_standalone w :
  step this (initial w) CallScheduleEventsStandalone =
  Some (MkProcess (started Started (outcome (scheduleEvents this w)))
          (banner this ++ emitted (scheduleEvents this w))
          (final (scheduleEvents this w))).
Proof.
  cbn [step initial phase]. unfold after. cbn [world history].
  by rewrite scheduleEventsStandalone_run.
Qed.

(** A firing keeps the phase; any other transition has a smaller rank
    after it. *)
Lemma step_rank p l p' :
  step this p l = Some p' ->
  if is_fire l then phase p' = phase p else rank (phase p') < rank (phase p).
Proof.
  intros Hstep%step_Step. destruct Hstep as [p Hp|p Hp|p Hp|p i job Hp Hjob|p s Hp];
    rewrite ?after_jobCallback; unfold listenForTermination; cbn [is_fire after phase];
    rewrite ?Hp;
    try done; unfold started, exited; try destruct (outcome _); cbn [rank]; lia.
Qed.

(** C28: the lifecycle terminates.  In any sequence of transitions, the
    transitions that are not firings number at most the rank of the phase
    the sequence starts in, three for a fresh process: a process is
    started once, begins to listen once and exits once, and only the
    firing of jobs can go on for ever. *)
Theorem run_control p ls p' :
  run this p ls = Some p' ->
  length (control ls) + rank (phase p') <= rank (phase p).
Proof.
  revert p. induction ls as [|l ls IH]; cbn [run]; intros p.
  { intros [= <-]. cbn. lia. }
  destruct (step this p l) as [p1|] eqn:Hstep; [|done]. intros Hrun%IH.
  apply step_rank in Hstep. unfold control in *. cbn [List.filter].
  destruct (is_fire l); cbn [negb length]; [rewrite <- Hstep|]; lia.
Qed.

(** In the phase [Listening] the delivery of either signal is enabled,
    and it takes the process to exit status 0 with the stop notice of
    that signal as its last effect and the world untouched. *)
Lemma step_signal p s :
  phase p = Listening ->
  step this p (Deliver s) =
  Some (MkProcess (Exited 0) (history p ++ stopNotice this s) (world p)).
Proof. intros Hp. cbn [step]. rewrite Hp. unfold after. by rewrite onTermination_run. Qed.

(** C24: the life of a standalone process.  When [scheduleEvents]
    returns, the call of [scheduleEventsStandalone], the pending
    continuation, any firings of registered jobs and the delivery of a
    signal take the process to exit status 0, whatever the invocations
    do; all it did is the banner, the effects of [scheduleEvents], the
    firings, which invoke the functions of the jobs chosen in order, and
    the stop notice naming the signal, in this order. *)
Theorem standalone_lifecycle w (ks : list nat) s :
  outcome (scheduleEvents this w) = Normal () ->
  Forall (fun i => i < length (jobs (emitted (scheduleEvents this w)))) ks ->
  exists fired w',
    run this (initial w)
        (CallScheduleEventsStandalone :: RunThen :: (Fire <$> ks) ++ [Deliver s])
    = Some (MkProcess (Exited 0)
              (banner this ++ emitted (scheduleEvents this w) ++ fired ++ stopNotice this s)
              w') /\
    invocations fired =
    invocationOf <$> omap (fun i => jobs (emitted (scheduleEvents this w)) !! i) ks.
Proof.
  intros Hout His. cbn [run]. rewrite step_standalone, Hout.
  cbn [started step phase]. unfold listenForTermination. cbn [history world].
  set (p := MkProcess Listening (banner this ++ emitted (scheduleEvents this w))
              (final (scheduleEvents this w))).
  assert (jobs (history p) = jobs (emitted (scheduleEvents this w))) as Hjobs
    by (unfold p; cbn [history]; by rewrite jobs_app).
  destruct (run_fires p ks) as (fired & w' & Hrun & _ & Hinv); [done|by rewrite Hjobs|].
  exists fired, w'. rewrite run_app, Hrun, <- Hjobs. split; [|done].
  cbn. unfold after. rewrite onTermination_run. cbn. by rewrite <- !app_assoc.
Qed.

(** C25: a standalone process whose start throws never listens for
    signals: the exception leaves [scheduleEventsStandalone] after the
    banner and what [scheduleEvents] did, before [listenForTermination]
    is attached, so the continuation never runs and no signal is handled,
    while the jobs registered before the exception remain. *)
Theorem standalone_failure w e p :
  outcome (scheduleEvents this w) = Throw e ->
  step this (initial w) CallScheduleEventsStandalone = Some p ->
  phase p = Failed e /\
  history p = banner this ++ emitted (scheduleEvents this w) /\
  jobs (history p) = jobs (emitted (scheduleEvents this w)) /\
  step this p RunThen = None /\ forall s, step this p (Deliver s) = None.
Proof.
  rewrite step_standalone. intros -> [= <-]. by cbn.
Qed.

(** C26: a process exits only on a signal, with status 0.  In every
    reachable state that has exited, the status is 0, the first notice of
    the history is the banner and the last is the stop notice of a
    signal. *)
Theorem Reachable_exit p code :
  Reachable this p -> phase p = Exited code ->
  code = 0%Z /\ head (notices (history p)) = Some startingMessage /\
  exists s, last (notices (history p)) = Some (stoppingMessage (signalName s)).
Proof.
  intros Hp%Reachable_Shape Hph. destruct Hp; cbn in Hph; try done.
  injection Hph as <-. split_and!; [done..|]. exists s.
  cbn [history]. rewrite !app_assoc, notices_app. apply last_snoc.
Qed.

(** The registry of a process that started is what its start registered. *)
Lemma Shape_jobs p :
  Shape this p -> phase p <> Created ->
  exists w0, jobs (history p) = jobs (emitted (scheduleEvents this w0)).
Proof.
  intros Hp Hph.
  destruct (Shape_history p Hp Hph) as (standalone & w0 & fired & stop & Hfired & Hstop & ->).
  exists w0. rewrite !jobs_app, (Fired_jobs _ _ Hfired).
  assert (jobs stop = []) as ->.
  { destruct (phase p); try (by subst). by destruct Hstop as [s ->]. }
  destruct standalone; cbn; by rewrite !app_nil_r.
Qed.

(** The jobs of the script of well-formed configurations are well formed. *)
Lemma startScript_job_wf configurations job :
  Forall (configuration_wf (functionProvider this ())) configurations ->
  job ∈ jobs (startScript this configurations) -> job_wf this job.
Proof.
  rewrite jobs_startScript, elem_of_flat_map. intros Hcfgs (fc & Hfc & Hjob).
  pose proof (jobsOf_log this fc job Hjob) as Hlog.
  apply jobsOf_elem_of in Hjob as (Hskip & Hname & Hinput & Hcron).
  rewrite Forall_forall in Hcfgs. destruct (Hcfgs fc Hfc) as (Hkey & Htruthy & Hcrons).
  rewrite Forall_forall in Hcrons. unfold job_wf. rewrite Hname, Hinput. auto.
Qed.

(** C9: the registry is well formed.  In every state a process can
    reach, every registered job has a cron expression that reads back as
    the canonical schedule of a rate, is for a function of the service
    that is not skipped, carries a truthy input and reports to the
    scheduler's log: no start, firing or signal can put anything else in
    the registry. *)
Theorem Reachable_jobs_wf p :
  object_wf (functionProvider this ()) ->
  Reachable this p -> Forall (job_wf this) (jobs (history p)).
Proof.
  intros Hwf Hp%Reachable_Shape. destruct (decide (phase p = Created)) as [Hph|Hph].
  { by destruct Hp. }
  destruct (Shape_jobs p Hp Hph) as (w0 & ->).
  destruct (scheduleEvents_script this w0 Hwf) as (configurations & Hcfgs & Hpre).
  apply Forall_forall. intros job Hjob. apply (startScript_job_wf configurations); [done|].
  eapply elem_of_prefix; [done|]. by apply omap_prefix.
Qed.

(** A firing reports to the sink its job closed over. *)
Lemma Fired_sinks js es s :
  Fired js es -> s ∈ sinks es -> exists job, job ∈ js /\ job_log job = s.
Proof.
  induction 1 as [|es job w _ IH Hjob]; [by intros ?%elem_of_nil|].
  rewrite sinks_app, jobCallback_run, elem_of_app. intros [?|Hin]; [eauto|].
  apply list_elem_of_singleton in Hin as ->. by exists job.
Qed.

(** C15: every notice goes to the scheduler's sink.  In every state a
    process can reach, each notice of its history, of the banner, of a
    start, of a firing however long after the start, and of the stop, was
    written to the [log] the scheduler was constructed with. *)
Theorem Reachable_sinks p s :
  object_wf (functionProvider this ()) ->
  Reachable this p -> s ∈ sinks (history p) -> s = this_log this.
Proof.
  intros Hwf Hp%Reachable_Shape Hin. destruct (decide (phase p = Created)) as [Hph|Hph].
  { destruct Hp; try done. by apply elem_of_nil in Hin. }
  destruct (Shape_history p Hp Hph) as (standalone & w0 & fired & stop & Hfired & Hstop & Hhist).
  destruct (scheduleEvents_script this w0 Hwf) as (configurations & Hcfgs & Hpre).
  rewrite Hhist, !sinks_app, !elem_of_app in Hin. destruct Hin as [Hin|[Hin|[Hin|Hin]]].
  - destruct standalone; [by apply list_elem_of_singleton in Hin|by apply elem_of_nil in Hin].
  - apply (sinks_startScript this configurations). eapply elem_of_prefix; [done|].
    by apply omap_prefix.
  - destruct (Fired_sinks _ _ s Hfired Hin) as (job & Hjob & <-).
    apply (startScript_job_wf configurations job Hcfgs).
    eapply elem_of_prefix; [done|]. by apply omap_prefix.
  - destruct (phase p); subst; try (by apply elem_of_nil in Hin).
    destruct Hstop as [sig ->]. by apply list_elem_of_singleton in Hin.
Qed.

(** A firing writes a success or a failure notice. *)
Lemma Fired_notices js es m :
  Fired js es -> m ∈ notices es ->
  exists f, m = successMessage f \/ exists err, m = failureMessage f err.
Proof.
  induction 1 as [|es job w _ IH _]; [by intros ?%elem_of_nil|].
  rewrite notices_app, jobCallback_run, elem_of_app. intros [?|Hin]; [eauto|].
  apply list_elem_of_singleton in Hin as ->. exists (job_functionName job).
  destruct (invoke _ _ w).1; eauto.
Qed.

Lemma stopNotices_app es1 es2 : stopNotices (es1 ++ es2) = stopNotices es1 ++ stopNotices es2.
Proof. unfold stopNotices. by rewrite notices_app, List.filter_app. Qed.

(** A history none of whose notices is a stop notice. *)
Lemma stopNotices_nil es :
  (forall m, m ∈ notices es -> isStopNotice m = false) -> stopNotices es = [].
Proof.
  unfold stopNotices. induction (notices es) as [|m ms IH]; [done|]. intros Hms. cbn.
  rewrite (Hms m) by apply list_elem_of_here. apply IH. intros m' ?.
  by apply Hms, list_elem_of_further.
Qed.

(** Neither a start nor a firing writes a stop notice. *)
Lemma stopNotices_start_fired w0 fired script :
  emitted (scheduleEvents this w0) `prefix_of` script ->
  (forall m, m ∈ notices script ->
     exists f, m = skippingMessage f \/ m = runningMessage f \/
               exists cron input, m = schedulingMessage f cron input) ->
  Fired (jobs (emitted (scheduleEvents this w0))) fired ->
  stopNotices (emitted (scheduleEvents this w0) ++ fired) = [].
Proof.
  intros Hpre Hscript Hfired. rewrite stopNotices_app, !stopNotices_nil; [done|..].
  - by intros m (f & [->|(err & ->)])%(Fired_notices _ _ _ Hfired).
  - intros m Hm. eapply elem_of_prefix in Hm; [|by apply omap_prefix, Hpre].
    by apply Hscript in Hm as (f & [->|[->|(cron & input & ->)]]).
Qed.

(** C27: exactly one stop notice.  In every reachable state of a process
    whose service resolves, the history holds no stop notice until the
    process exits, and then exactly one, naming the signal that was
    delivered; no notice of a start or of a firing can be taken for
    one. *)
Theorem Reachable_stopNotices p :
  object_wf (functionProvider this ()) ->
  Reachable this p ->
  match phase p with
  | Exited _ => exists s, stopNotices (history p) = [stoppingMessage (signalName s)]
  | _ => stopNotices (history p) = []
  end.
Proof.
  intros Hwf Hp%Reachable_Shape. destruct (decide (phase p = Created)) as [Hph|Hph].
  { destruct Hp; by try done. }
  destruct (Shape_history p Hp Hph) as (standalone & w0 & fired & stop & Hfired & Hstop & ->).
  destruct (scheduleEvents_script this w0 Hwf) as (configurations & _ & Hpre).
  assert (stopNotices ((if standalone then banner this else [])
                         ++ emitted (scheduleEvents this w0) ++ fired ++ stop)
          = stopNotices stop) as ->.
  { rewrite stopNotices_app, (app_assoc (emitted (scheduleEvents this w0)) fired stop).
    rewrite stopNotices_app.
    rewrite (stopNotices_start_fired w0 fired (startScript this configurations)); try done.
    - by destruct standalone.
    - apply notices_startScript. }
  destruct (phase p); try (by subst). destruct Hstop as [s ->]. exists s. by destruct s.
Qed.

End Lifecycle.

(** ** The theorems on the fixture of the test suite *)

(** The process of the fixture, started embedded with [runImmediately],
    after its job fired once. *)
Lemma Reachable_invocations_witness :
  exists fc,
    fc ∈ [MkFunctionConfiguration fixtureInput "schedule-function" ["*/1 * * * *"]] /\
    functionName fc = "schedule-function" /\ input fc = fixtureInput /\
    isSkipped (configOptions (testScheduler scheduleFunction [] true)) "schedule-function"
    = false.
Proof.
  eapply (Reachable_invocations (invoker:=scripted) (testScheduler scheduleFunction [] true));
    [apply scheduleFunction_wf | reflexivity | |].
  - apply (run_Reachable _ (initial [Returned; Threw "boom"]) [CallScheduleEvents; Fire 0]);
      [apply Reachable_initial | reflexivity].
  - cbn. apply list_elem_of_here.
Defined.

Lemma Reachable_exit_witness :
  (0 = 0)%Z /\
  head (notices [Log ConfigLog startingMessage;
                 Log ConfigLog (stoppingMessage "SIGINT")]) = Some startingMessage /\
  exists s,
    last (notices [Log ConfigLog startingMessage;
                   Log ConfigLog (stoppingMessage "SIGINT")])
    = Some (stoppingMessage (signalName s)).
Proof.
  apply (Reachable_exit (invoker:=slsRunSpy) (testScheduler [] [] false)
           (MkProcess (Exited 0) [Log ConfigLog startingMessage;
                                  Log ConfigLog (stoppingMessage "SIGINT")] ()));
    [|reflexivity].
  apply (run_Reachable _ (initial ()) [CallScheduleEventsStandalone; RunThen; Deliver SIGINT]);
    [apply Reachable_initial | reflexivity].
Defined.

Lemma Step_jobs_witness :
  jobs (history (after (W:=unit)
                   (MkProcess Listening
                      [ScheduleJob (MkJob "*/1 * * * *" "schedule-function" fixtureInput ConfigLog)]
                      ())
                   (onTermination (testScheduler scheduleFunction [] false) (signalName SIGINT))
                   exited))
  = jobs [ScheduleJob (MkJob "*/1 * * * *" "schedule-function" fixtureInput ConfigLog)].
Proof.
  apply (Step_jobs (invoker:=slsRunSpy) (testScheduler scheduleFunction [] false)
           (MkProcess Listening
              [ScheduleJob (MkJob "*/1 * * * *" "schedule-function" fixtureInput ConfigLog)] ())
           (Deliver SIGINT));
    [by apply Step_signal | reflexivity].
Defined.

Lemma Reachable_stopNotices_witness :
  exists s,
    stopNotices [Log ConfigLog startingMessage;
                 Log ConfigLog (schedulingMessage "schedule-function" ["*/1 * * * *"] fixtureInput);
                 ScheduleJob (MkJob "*/1 * * * *" "schedule-function" fixtureInput ConfigLog);
                 Invoke "schedule-function" fixtureInput;
                 Log ConfigLog (successMessage "schedule-function");
                 Log ConfigLog (stoppingMessage "SIGTERM")]
    = [stoppingMessage (signalName s)].
Proof.
  apply (Reachable_stopNotices (invoker:=slsRunSpy) (testScheduler scheduleFunction [] false)
           (MkProcess (Exited 0)
              [Log ConfigLog startingMessage;
               Log ConfigLog (schedulingMessage "schedule-function" ["*/1 * * * *"] fixtureInput);
               ScheduleJob (MkJob "*/1 * * * *" "schedule-function" fixtureInput ConfigLog);
               Invoke "schedule-function" fixtureInput;
               Log ConfigLog (successMessage "schedule-function");
               Log ConfigLog (stoppingMessage "SIGTERM")] ()));
    [apply scheduleFunction_wf |].
  apply (run_Reachable _ (initial ())
           [CallScheduleEventsStandalone; RunThen; Fire 0; Deliver SIGTERM]);
    [apply Reachable_initial | reflexivity].
Defined.

(** The registry of the fixture with two rates, after a start with
    [runImmediately] whose second immediate run threw. *)
Lemma Reachable_jobs_wf_witness :
  Forall (job_wf (testScheduler scheduleFunctionTwoRates [] true))
    [MkJob "*/1 * * * *" "schedule-function" fixtureInput ConfigLog].
Proof.
  apply (Reachable_jobs_wf (invoker:=scripted) (testScheduler scheduleFunctionTwoRates [] true)
           (MkProcess (Failed (InvocationError "boom"))
              [Log ConfigLog (schedulingMessage "schedule-function"
                                ["*/1 * * * *"; "*/2 * * * *"] fixtureInput);
               Log ConfigLog (runningMessage "schedule-function");
               Invoke "schedule-function" fixtureInput;
               ScheduleJob (MkJob "*/1 * * * *" "schedule-function" fixtureInput ConfigLog);
               Log ConfigLog (runningMessage "schedule-function");
               Invoke "schedule-function" fixtureInput] []));
    [apply scheduleFunctionTwoRates_wf |].
  apply (run_Reachable _ (initial [Returned; Threw "boom"]) [CallScheduleEvents]);
    [apply Reachable_initial | reflexivity].
Defined.

(** A whole standalone life with two firings: three transitions that are
    not firings. *)
Lemma run_control_witness :
  length (control [CallScheduleEventsStandalone; RunThen; Fire 0; Fire 0; Deliver SIGINT])
  + rank (Exited 0) <= rank Created.
Proof.
  apply (run_control (invoker:=slsRunSpy) (testScheduler scheduleFunction [] false)
           (initial ())
           [CallScheduleEventsStandalone; RunThen; Fire 0; Fire 0; Deliver SIGINT]
           (MkProcess (Exited 0)
              [Log ConfigLog startingMessage;
               Log ConfigLog (schedulingMessage "schedule-function" ["*/1 * * * *"] fixtureInput);
               ScheduleJob (MkJob "*/1 * * * *" "schedule-function" fixtureInput ConfigLog);
               Invoke "schedule-function" fixtureInput;
               Log ConfigLog (successMessage "schedule-function");
               Invoke "schedule-function" fixtureInput;
               Log ConfigLog (successMessage "schedule-function");
               Log ConfigLog (stoppingMessage "SIGINT")] ())).
  reflexivity.
Defined.

(** A scheduler constructed without [log], after a standalone start and a
    firing: its notices went to [console.log]. *)
Lemma Reachable_sinks_witness :
  ConsoleLog =
  this_log (new_OfflineScheduler
              {| config_log := None;
                 config_functionProvider := fun _ => scheduleFunction;
                 config_configOptions := {| skipFunctions := None; runImmediately := false |} |}).
Proof.
  apply (Reachable_sinks (invoker:=slsRunSpy) _
           (MkProcess Listening
              [Log ConsoleLog startingMessage;
               Log ConsoleLog (schedulingMessage "schedule-function" ["*/1 * * * *"] fixtureInput);
               ScheduleJob (MkJob "*/1 * * * *" "schedule-function" fixtureInput ConsoleLog);
               Invoke "schedule-function" fixtureInput;
               Log ConsoleLog (successMessage "schedule-function")] ())
           ConsoleLog);
    [apply scheduleFunction_wf | | by apply (bool_decide_unpack _)].
  apply (run_Reachable _ (initial ()) [CallScheduleEventsStandalone; RunThen; Fire 0]);
    [apply Reachable_initial | reflexivity].
Defined.

(** The standalone process of the fixture: its job fires twice, then
    SIGTERM arrives. *)
Lemma standalone_lifecycle_witness :
  exists fired w',
    run (invoker:=slsRunSpy) (testScheduler scheduleFunction [] false) (initial ())
        (CallScheduleEventsStandalone :: RunThen :: (Fire <$> [0; 0]) ++ [Deliver SIGTERM])
    = Some (MkProcess (Exited 0)
              (banner (testScheduler scheduleFunction [] false)
                 ++ emitted (scheduleEvents (invoker:=slsRunSpy)
                               (testScheduler scheduleFunction [] false) ())
                 ++ fired ++ stopNotice (testScheduler scheduleFunction [] false) SIGTERM)
              w') /\
    invocations fired =
    invocationOf
      <$> omap (fun i => jobs (emitted (scheduleEvents (invoker:=slsRunSpy)
                                          (testScheduler scheduleFunction [] false) ())) !! i)
               [0; 0].
Proof.
  apply (standalone_lifecycle (invoker:=slsRunSpy) (testScheduler scheduleFunction [] false)
           () [0; 0] SIGTERM); [reflexivity|].
  repeat constructor.
Defined.

(** The two jobs of the fixture with two rates fire in the order second,
    first, second, with an invoker whose first two calls throw. *)
Lemma fire_isolation_witness :
  exists p',
    run (invoker:=scripted) (testScheduler scheduleFunctionTwoRates [] false)
        (MkProcess Scheduled
           [ScheduleJob (MkJob "*/1 * * * *" "schedule-function" fixtureInput ConfigLog);
            ScheduleJob (MkJob "*/2 * * * *" "schedule-function" fixtureInput ConfigLog)]
           [Threw "boom"; Threw "bang"])
        (Fire <$> [1; 0; 1]) = Some p' /\
    phase p' = Scheduled /\
    jobs (history p') =
    [MkJob "*/1 * * * *" "schedule-function" fixtureInput ConfigLog;
     MkJob "*/2 * * * *" "schedule-function" fixtureInput ConfigLog] /\
    invocations (history p') =
    [] ++ (invocationOf
             <$> [MkJob "*/2 * * * *" "schedule-function" fixtureInput ConfigLog;
                  MkJob "*/1 * * * *" "schedule-function" fixtureInput ConfigLog;
                  MkJob "*/2 * * * *" "schedule-function" fixtureInput ConfigLog]).
Proof.
  apply (fire_isolation (invoker:=scripted) (testScheduler scheduleFunctionTwoRates [] false)
           (MkProcess Scheduled
              [ScheduleJob (MkJob "*/1 * * * *" "schedule-function" fixtureInput ConfigLog);
               ScheduleJob (MkJob "*/2 * * * *" "schedule-function" fixtureInput ConfigLog)]
              [Threw "boom"; Threw "bang"])
           [1; 0; 1]); [reflexivity|].
  repeat constructor.
Defined.

(** A standalone life with a firing is in the language of the phase
    [Exited]. *)
Lemma run_trace_witness :
  trace_of (Exited 0) [CallScheduleEventsStandalone; RunThen; Fire 0; Deliver SIGINT].
Proof.
  apply (run_trace (invoker:=slsRunSpy) (testScheduler scheduleFunction [] false) ()
           [CallScheduleEventsStandalone; RunThen; Fire 0; Deliver SIGINT]
           (MkProcess (Exited 0)
              [Log ConfigLog startingMessage;
               Log ConfigLog (schedulingMessage "schedule-function" ["*/1 * * * *"] fixtureInput);
               ScheduleJob (MkJob "*/1 * * * *" "schedule-function" fixtureInput ConfigLog);
               Invoke "schedule-function" fixtureInput;
               Log ConfigLog (successMessage "schedule-function");
               Log ConfigLog (stoppingMessage "SIGINT")] ())).
  reflexivity.
Defined.

Lemma standalone_failure_witness :
  phase (MkProcess (Failed (InvocationError "boom"))
           [Log ConfigLog startingMessage;
            Log ConfigLog (schedulingMessage "schedule-function" ["*/1 * * * *"] fixtureInput);
            Log ConfigLog (runningMessage "schedule-function");
            Invoke "schedule-function" fixtureInput] ())
  = Failed (InvocationError "boom") /\
  [Log ConfigLog startingMessage;
   Log ConfigLog (schedulingMessage "schedule-function" ["*/1 * * * *"] fixtureInput);
   Log ConfigLog (runningMessage "schedule-function");
   Invoke "schedule-function" fixtureInput]
  = banner (testScheduler scheduleFunction [] true)
      ++ emitted (scheduleEvents (invoker:=always_throws "boom")
                    (testScheduler scheduleFunction [] true) ()) /\
  jobs [Log ConfigLog startingMessage;
        Log ConfigLog (schedulingMessage "schedule-function" ["*/1 * * * *"] fixtureInput);
        Log ConfigLog (runningMessage "schedule-function");
        Invoke "schedule-function" fixtureInput]
  = jobs (emitted (scheduleEvents (invoker:=always_throws "boom")
                     (testScheduler scheduleFunction [] true) ())) /\
  step (invoker:=always_throws "boom") (testScheduler scheduleFunction [] true)
       (MkProcess (Failed (InvocationError "boom"))
           [Log ConfigLog startingMessage;
            Log ConfigLog (schedulingMessage "schedule-function" ["*/1 * * * *"] fixtureInput);
            Log ConfigLog (runningMessage "schedule-function");
            Invoke "schedule-function" fixtureInput] ()) RunThen = None /\
  forall s,
    step (invoker:=always_throws "boom") (testScheduler scheduleFunction [] true)
       (MkProcess (Failed (InvocationError "boom"))
           [Log ConfigLog startingMessage;
            Log ConfigLog (schedulingMessage "schedule-function" ["*/1 * * * *"] fixtureInput);
            Log ConfigLog (runningMessage "schedule-function");
            Invoke "schedule-function" fixtureInput] ()) (Deliver s) = None.
Proof.
  apply (standalone_failure (invoker:=always_throws "boom")
           (testScheduler scheduleFunction [] true) ()); reflexivity.
Defined.
