(* ===== verification/Lifecycle.v ===== *)
(** * The lifecycle of the specification, and the process as its refinement

    The specification (section 4.3) gives the scheduler one state machine:
    Idle, Registering, Running (timers active), and for a standalone
    scheduler Terminating and Exited.  [Machine] is that machine with the
    one thing it owns, the set of timers: registration installs the timers
    of the resolved tasks ([tasks]: one per cron expression of every
    configuration that is not skipped), a timer that exists may fire while
    the machine is Running, and nothing else ever changes the set.

    The process of [Process] refines it.  [abstract] forgets the history
    and the world of a process and keeps the stage of its phase and its
    registry; [implements] gives the moves of the machine a transition of
    the process stands for (a start is the two moves through Registering, a
    signal the two through Terminating, the continuation that begins to
    listen none).  The simulation diagram [step_simulation] is proved for
    one transition and extended to sequences.  A start that threw has no
    counterpart in the machine: such processes are left out of the
    diagram ([sound]); what they registered is an initial segment of the
    timers of the tasks ([jobs_scheduleEvents_prefix]). *)

From Stdlib Require Import String ZArith Lia.
From stdpp Require Import base tactics option list strings.
From S2P Require Import Prelude Json Cron Serverless Effects Scheduler Fixture Resolver Engine Spec.
From S2P Require Import Process.

#[local] Open Scope js_scope.

(** ** The machine of the specification *)

Inductive Stage : Type :=
| Idle
| Registering
| Running
| Terminating
| Finished.

Inductive Move : Type :=
| Begin                  (* Start or RunStandalone is called *)
| Complete               (* registration ran to completion *)
| Occur (i : nat)        (* the timer of index [i] fires *)
| Interrupt (s : Signal) (* a termination signal arrives *)
| Leave.                 (* the orderly exit *)

#[export] Instance Stage_eq_dec : EqDecision Stage.
Proof. solve_decision. Defined.

#[export] Instance Move_eq_dec : EqDecision Move.
Proof. solve_decision. Defined.

Record Machine : Type := MkMachine {
  stage : Stage;
  timers : list Job;
}.

#[export] Instance Machine_eq_dec : EqDecision Machine.
Proof. solve_decision. Defined.

(** The machine before anything is called. *)
Definition idle : Machine := MkMachine Idle [].

Section Machine.
(** The timers registration installs. *)
Variable expected : list Job.

(** One move, when it is enabled. *)
Definition move (m : Machine) (mv : Move) : option Machine :=
  match mv, stage m with
  | Begin, Idle => Some (MkMachine Registering [])
  | Complete, Registering => Some (MkMachine Running expected)
  | Occur i, Running => if decide (i < length (timers m)) then Some m else None
  | Interrupt _, Running => Some (MkMachine Terminating (timers m))
  | Leave, Terminating => Some (MkMachine Finished (timers m))
  | _, _ => None
  end.

(** A sequence of moves. *)
Fixpoint moves (m : Machine) (mvs : list Move) : option Machine :=
  match mvs with
  | [] => Some m
  | mv :: mvs' =>
      match move m mv with
      | Some m' => moves m' mvs'
      | None => None
      end
  end.

End Machine.

(** The timers of the tasks the resolver returns: one per cron expression
    of every configuration that is not skipped. *)
Definition tasks `{normalizer : Normalizer} (this : OfflineScheduler) : list Job :=
  match resolve (functionProvider this ()) with
  | Normal configurations => flat_map (jobsOf this) configurations
  | Throw _ => []
  end.

(** ** The abstraction *)

(** The stage of a phase.  A process whose start threw never completed
    its registration; one that crashed is gone. *)
Definition stage_of (ph : Phase) : Stage :=
  match ph with
  | Created => Idle
  | Scheduled | Started | Listening => Running
  | Failed _ => Registering
  | Crashed _ | Exited _ => Finished
  end.

Definition abstract {W} (p : Process W) : Machine :=
  MkMachine (stage_of (phase p)) (jobs (history p)).

(** The moves a transition of the process stands for. *)
Definition implements (l : Label) : list Move :=
  match l with
  | CallScheduleEvents | CallScheduleEventsStandalone => [Begin; Complete]
  | RunThen => []
  | Fire i => [Occur i]
  | Deliver s => [Interrupt s; Leave]
  end.

(** The start of the process did not throw, and no exception escaped a
    callback. *)
Definition sound (ph : Phase) : bool :=
  match ph with
  | Failed _ | Crashed _ => false
  | _ => true
  end.

(** ** The machine alone *)

Section MachineFacts.
Variable expected : list Job.
Implicit Types (m : Machine) (mv : Move).

Lemma moves_app m mvs1 mvs2 :
  moves expected m (mvs1 ++ mvs2) = moves expected m mvs1 ≫= fun m' => moves expected m' mvs2.
Proof.
  revert m. induction mvs1 as [|mv mvs1 IH]; intros m; [done|]. cbn.
  by destruct (move expected m mv).
Qed.

(** After registration the timers are those of the tasks, whatever moves
    follow. *)
Lemma move_timers m mv m' :
  move expected m mv = Some m' ->
  stage m <> Idle -> stage m <> Registering ->
  timers m' = timers m /\ stage m' <> Idle /\ stage m' <> Registering.
Proof.
  destruct m as [st ts], mv, st; cbn; try done; try (by intros [= <-]).
  case_decide; [|done]. by intros [= <-].
Qed.

End MachineFacts.

(** ** The simulation *)

Section Simulation.
Context `{invoker : Invoker W} `{normalizer : Normalizer}.
Context `{!NormalizerSpec normalizer}.
Variable this : OfflineScheduler.
Hypothesis provider_wf : object_wf (functionProvider this ()).
Implicit Types (p q : Process W) (l : Label) (w : W).

(** A start that returned registered the timers of the tasks. *)
Lemma jobs_scheduleEvents_tasks w :
  outcome (scheduleEvents this w) = Normal () ->
  jobs (emitted (scheduleEvents this w)) = tasks this.
Proof.
  intros Hout.
  destruct (scheduleEvents_returned this w provider_wf Hout) as (configurations & Hres & ->).
  unfold tasks. rewrite Hres. apply jobs_startScript.
Qed.

(** The machine of a reachable process whose start did not throw: no
    timers before the start, those of the tasks ever after. *)
Lemma Shape_abstract p :
  Shape this p -> sound (phase p) = true ->
  abstract p =
  MkMachine (stage_of (phase p)) (if decide (phase p = Created) then [] else tasks this).
Proof.
  intros Hp Hsound. unfold abstract. f_equal.
  destruct Hp as [w|w0 fired w Hout Hfired|w0 w Hout|w0 fired w Hout Hfired
                 |standalone w0 e fired w Hout Hfired|w0 fired s w Hout Hfired];
    cbn [phase history] in *; try done;
    rewrite ?app_assoc, !jobs_app, ?(Fired_jobs _ _ Hfired), ?(jobs_scheduleEvents_tasks w0 Hout);
    cbn; by rewrite ?app_nil_r.
Qed.

(** A process whose start threw stays as it is. *)
Lemma step_sound p l q :
  step this p l = Some q -> sound (phase q) = true -> sound (phase p) = true.
Proof.
  intros Hstep%step_Step.
  by destruct Hstep as [p Hp|p Hp|p Hp|p i job Hp Hjob|p s Hp];
    rewrite ?after_jobCallback, ?Hp.
Qed.

Lemma run_sound p ls q :
  run this p ls = Some q -> sound (phase q) = true -> sound (phase p) = true.
Proof.
  revert p. induction ls as [|l ls IH]; cbn [run]; intros p; [by intros [= <-]|].
  destruct (step this p l) as [p1|] eqn:Hstep; [|done].
  intros Hrun Hq. eapply step_sound; [done|]. by eapply IH.
Qed.

(** The stages of a transition between sound phases are joined by the
    moves the label stands for, over any set of timers that holds the
    one that fires. *)
Lemma step_stages p l q (ts : list Job) :
  step this p l = Some q -> sound (phase q) = true ->
  (forall i, l = Fire i -> i < length ts) ->
  moves ts (MkMachine (stage_of (phase p)) (if decide (phase p = Created) then [] else ts))
        (implements l)
  = Some (MkMachine (stage_of (phase q)) ts) /\ phase q <> Created.
Proof.
  intros Hstep%step_Step Hq Hfire.
  destruct Hstep as [p Hp|p Hp|p Hp|p i job Hp Hjob|p s Hp]; cbn [after phase] in *;
    rewrite ?Hp; unfold started, exited in *; rewrite ?onTermination_run in *;
    try (destruct (outcome _); [|done]); try done.
  destruct (phase p); try done; cbn; by rewrite decide_True by eauto.
Qed.

(** The diagram for one transition: from a reachable process, a
    transition to a process whose start did not throw is matched by the
    moves the label stands for. *)
Lemma step_simulation p l q :
  Shape this p -> step this p l = Some q -> sound (phase q) = true ->
  moves (tasks this) (abstract p) (implements l) = Some (abstract q).
Proof.
  intros Hp Hstep Hq.
  assert (Shape this q) as Hshape by (eapply Shape_step; [done|by apply step_Step]).
  pose proof (step_sound p l q Hstep Hq) as Hsound.
  destruct (step_stages p l q (tasks this) Hstep Hq) as [Hmoves Hcreated].
  - intros i ->. cbn in Hstep. destruct (firing (phase p)) eqn:Hfiring; [|done].
    destruct (jobs (history p) !! i) as [job|] eqn:Hjob; [|done].
    apply lookup_lt_Some in Hjob. pose proof (Shape_abstract p Hp Hsound) as [= Hjobs].
    rewrite Hjobs in Hjob. by destruct (phase p).
  - rewrite (Shape_abstract p Hp Hsound), (Shape_abstract q Hshape Hq).
    by rewrite (decide_False (P:=phase q = Created)).
Qed.

(** The diagram extended to sequences of transitions. *)
Lemma run_simulation p ls q :
  Shape this p -> run this p ls = Some q -> sound (phase q) = true ->
  moves (tasks this) (abstract p) (flat_map implements ls) = Some (abstract q).
Proof.
  revert p. induction ls as [|l ls IH]; cbn [run flat_map]; intros p Hp.
  { by intros [= <-]. }
  destruct (step this p l) as [p1|] eqn:Hstep; [|done]. intros Hrun Hq.
  rewrite moves_app, (step_simulation p l p1 Hp Hstep (run_sound p1 ls q Hrun Hq)).
  apply IH; [|done|done]. eapply Shape_step; [done|by apply step_Step].
Qed.

End Simulation.

(** ** The process refines the machine *)

Section Refinement.
Context `{invoker : Invoker W} `{normalizer : Normalizer}.
Context `{!NormalizerSpec normalizer}.
Variable this : OfflineScheduler.
Implicit Types (p q : Process W) (w : W).

(** C10: the process refines the lifecycle of the specification.  Every
    sequence of calls, firings and signals that takes a fresh process to
    a state whose start did not throw is a sequence of moves of the
    machine from Idle: registration installs exactly the timers of the
    resolved tasks, a job fires only while the machine is Running and
    only if its timer exists, and a signal ends the machine through
    Terminating. *)
Theorem run_refines w ls q :
  object_wf (functionProvider this ()) ->
  run this (initial w) ls = Some q -> sound (phase q) = true ->
  moves (tasks this) idle (flat_map implements ls) = Some (abstract q).
Proof.
  intros Hwf Hrun Hq.
  apply (run_simulation this Hwf (initial w) ls q); [apply Shape_created|done|done].
Qed.

(** C11: the registry is the set of timers of the tasks.  In every state
    a process can reach after a start that did not throw, the registered
    jobs are exactly one per cron expression of every resolved
    configuration that is not skipped, in order: firings and signals
    register nothing (the process is started once; for a host that
    starts it again see [Restart]). *)
Theorem Reachable_timers p :
  object_wf (functionProvider this ()) ->
  Reachable this p -> sound (phase p) = true -> phase p <> Created ->
  jobs (history p) = tasks this.
Proof.
  intros Hwf Hp%Reachable_Shape Hsound Hph.
  pose proof (Shape_abstract this Hwf p Hp Hsound) as [= ->]. by rewrite decide_False.
Qed.

End Refinement.

(** ** The registry of any start *)

Section Failure.
Context `{invoker : Invoker W} `{normalizer : Normalizer}.
Context `{!NormalizerSpec normalizer}.
Variable this : OfflineScheduler.
Hypothesis provider_wf : object_wf (functionProvider this ()).
Implicit Types (p : Process W).

(** Whatever the invoker does, a start registers an initial segment of
    the timers of the tasks. *)
Lemma jobs_scheduleEvents_prefix w :
  jobs (emitted (scheduleEvents this w)) `prefix_of` tasks this.
Proof.
  unfold tasks. destruct (resolve (functionProvider this ())) as [configurations|e] eqn:Hres.
  - rewrite (scheduleEvents_Normal this configurations provider_wf Hres w), <- jobs_startScript.
    apply omap_prefix, (forEach_scheduleConfiguration_follows this configurations w).
  - by rewrite (scheduleEvents_Throw this e provider_wf Hres w).
Qed.

End Failure.

(** ** The theorems on the fixture of the test suite *)

(** A standalone life with one firing: five moves of the machine. *)
Lemma run_refines_witness :
  moves (tasks (testScheduler scheduleFunction [] false)) idle
    (flat_map implements [CallScheduleEventsStandalone; RunThen; Fire 0; Deliver SIGINT])
  = Some (MkMachine Finished
            [MkJob "*/1 * * * *" "schedule-function" fixtureInput ConfigLog]).
Proof.
  apply (run_refines (invoker:=slsRunSpy) (testScheduler scheduleFunction [] false) ()
           [CallScheduleEventsStandalone; RunThen; Fire 0; Deliver SIGINT]
           (MkProcess (Exited 0)
              [Log ConfigLog startingMessage;
               Log ConfigLog (schedulingMessage "schedule-function" ["*/1 * * * *"] fixtureInput);
               ScheduleJob (MkJob "*/1 * * * *" "schedule-function" fixtureInput ConfigLog);
               Invoke "schedule-function" fixtureInput;
               Log ConfigLog (successMessage "schedule-function");
               Log ConfigLog (stoppingMessage "SIGINT")] ()));
    [apply scheduleFunction_wf | reflexivity | reflexivity].
Defined.

(** The registry of the fixture with two rates after a start and a
    firing. *)
Lemma Reachable_timers_witness :
  [MkJob "*/1 * * * *" "schedule-function" fixtureInput ConfigLog;
   MkJob "*/2 * * * *" "schedule-function" fixtureInput ConfigLog]
  = tasks (testScheduler scheduleFunctionTwoRates [] false).
Proof.
  apply (Reachable_timers (invoker:=slsRunSpy) (testScheduler scheduleFunctionTwoRates [] false)
           (MkProcess Scheduled
              [Log ConfigLog (schedulingMessage "schedule-function"
                                ["*/1 * * * *"; "*/2 * * * *"] fixtureInput);
               ScheduleJob (MkJob "*/1 * * * *" "schedule-function" fixtureInput ConfigLog);
               ScheduleJob (MkJob "*/2 * * * *" "schedule-function" fixtureInput ConfigLog);
               Invoke "schedule-function" fixtureInput;
               Log ConfigLog (successMessage "schedule-function")] ()));
    [apply scheduleFunctionTwoRates_wf | | reflexivity | done].
  apply (run_Reachable _ (initial ()) [CallScheduleEvents; Fire 1]);
    [apply Reachable_initial | reflexivity].
Defined.

