(* ===== verification/Timer.v ===== *)
(** * When jobs are due

    [schedule.scheduleJob(c, callback)] hands the cron expression [c] to
    node-schedule, which calls [callback] at every time of the calendar
    that [c] matches.  The library is outside the repository; this file
    gives the canonical schedules of the specification (section 4.1 and
    glossary: five fields, minute, hour, day of month, month and day of
    week, with the step syntax [*/n]) their conventional meaning: a time
    matches a schedule when each of its fields matches, [*] matches every
    value and [*/n] the values of the field's range that are a multiple of
    [n] away from the first one.  A step of zero matches nothing.

    With this meaning the file says when the jobs the engine registers
    fire ([job_due]), and drives the process of [Process] by a clock:
    [tick] fires, at one time of the calendar, the jobs that are due, in
    the order of their registration, and [clock] goes through a list of
    times.  A tick is a sequence of transitions of the process, so
    everything proved of reachable states holds of a process driven by
    the clock; [clock_schedule] puts the resolver, the engine, the
    process and the clock together. *)

From Stdlib Require Import String NArith ZArith Lia.
From stdpp Require Import base tactics option list strings.
From S2P Require Import Prelude Json Cron Serverless Effects Scheduler Fixture.
From S2P Require Import Resolver Engine Spec Process.

(** A time of the calendar, to the minute. *)
Record Time : Type := MkTime {
  t_minute : N;
  t_hour : N;
  t_dayOfMonth : N;
  t_month : N;
  t_dayOfWeek : N;
}.

(** The fields of a time are within their ranges. *)
Definition time_wf (t : Time) : Prop :=
  (t_minute t < 60 /\ t_hour t < 24 /\ 1 <= t_dayOfMonth t <= 31 /\
   1 <= t_month t <= 12 /\ t_dayOfWeek t < 7)%N.

(** [*/n] in a field whose range starts at [lo]: the values [lo],
    [lo + n], [lo + 2n], ... *)
Definition step_matches (n lo v : N) : bool :=
  negb (n =? 0)%N && ((v - lo) mod n =? 0)%N.

Definition field_matches (f : CronField) (lo v : N) : bool :=
  match f with
  | Any => true
  | Every n => step_matches n lo v
  end.

(** A time matches a schedule when each field matches. *)
Definition due (c : CronSchedule) (t : Time) : bool :=
  field_matches (minute c) 0 (t_minute t)
  && field_matches (hour c) 0 (t_hour t)
  && field_matches (dayOfMonth c) 1 (t_dayOfMonth t)
  && field_matches (month c) 1 (t_month t)
  && field_matches (dayOfWeek c) 0 (t_dayOfWeek t).

(** A registered job fires at the times its cron expression matches; an
    expression that is no schedule never fires. *)
Definition job_due (job : Job) (t : Time) : bool :=
  match parse_cron (job_cron job) with
  | Some c => due c t
  | None => false
  end.

(** The positions in the registry of the jobs among [js], registered
    from position [i] on, that are due at [t]. *)
Fixpoint dueFrom (i : nat) (js : list Job) (t : Time) : list nat :=
  match js with
  | [] => []
  | job :: js' => (if job_due job t then [i] else []) ++ dueFrom (S i) js' t
  end.

(** The invocations of the clock going through the times [ts] with the
    registry [js]: at each time, the due jobs in the order of their
    registration. *)
Definition clockInvocations (js : list Job) (ts : list Time) : list (string * json) :=
  flat_map (fun t => invocationOf <$> List.filter (fun job => job_due job t) js) ts.

Section Clock.
Context `{invoker : Invoker W} `{normalizer : Normalizer}.
Variable this : OfflineScheduler.

(** The process after the clock reached [t]: the due jobs fired, in the
    order of their registration. *)
Definition tick (p : Process W) (t : Time) : option (Process W) :=
  run this p (Fire <$> dueFrom 0 (jobs (history p)) t).

(** The process after the clock went through the times [ts]. *)
Fixpoint clock (p : Process W) (ts : list Time) : option (Process W) :=
  match ts with
  | [] => Some p
  | t :: ts' =>
      match tick p t with
      | Some p' => clock p' ts'
      | None => None
      end
  end.

End Clock.

(** ** When the jobs of a rate are due *)

(** A job registered for the schedule of a rate is due by the field of
    the unit alone. *)
Lemma job_due_schedule (this : OfflineScheduler) (functionName : string) (input : json)
    (c : CronSchedule) (t : Time) :
  job_due (jobOf this functionName input (print_cron c)) t = due c t.
Proof. unfold job_due. cbn [jobOf job_cron]. by rewrite parse_print_cron. Qed.

Lemma due_schedule_of_rate (n : N) (u : RateUnit) (t : Time) :
  due (schedule_of_rate n u) t =
  match u with
  | Minute => step_matches n 0 (t_minute t)
  | Hour => step_matches n 0 (t_hour t)
  | Day => step_matches n 1 (t_dayOfMonth t)
  end.
Proof. destruct u; unfold due; cbn; by rewrite ?andb_true_r. Qed.

(** A step beyond the range of its field matches the first value only. *)
Lemma step_matches_beyond (n lo v : N) :
  (lo <= v)%N -> (v - lo < n)%N -> step_matches n lo v = bool_decide (v = lo).
Proof.
  intros Hlo Hn. unfold step_matches. rewrite N.mod_small by done.
  destruct (N.eqb_spec n 0) as [->|_]; [lia|]. cbn.
  destruct (N.eqb_spec (v - lo) 0); [rewrite bool_decide_eq_true_2 | rewrite bool_decide_eq_false_2];
    (done || lia).
Qed.

(** When the job of a rate fires.  The job the engine registers for
    the canonical schedule of [rate(<n> <unit>)] is due exactly at the
    times whose field of the unit is a multiple of [n] away from the
    field's first value, and never when [n] is zero; the other fields of
    the time play no part, so the job of a rate in hours is due at every
    minute of a matching hour, and that of a rate in days at every minute
    of a matching day. *)
Lemma job_due_rate (this : OfflineScheduler) (functionName : string) (input : json)
    (n : N) (u : RateUnit) (t : Time) :
  job_due (jobOf this functionName input (print_cron (schedule_of_rate n u))) t =
  match u with
  | Minute => step_matches n 0 (t_minute t)
  | Hour => step_matches n 0 (t_hour t)
  | Day => step_matches n 1 (t_dayOfMonth t)
  end.
Proof. by rewrite job_due_schedule, due_schedule_of_rate. Qed.

(** C32: a rate beyond its field.  At a time of the calendar, the job of
    a rate of sixty minutes or more is due at minute 0 of every hour and
    at no other minute, whatever the number: [rate(90 minutes)] fires once
    an hour, not once in ninety minutes. *)
Theorem job_due_minutes_beyond (this : OfflineScheduler) (functionName : string)
    (input : json) (n : N) (t : Time) :
  time_wf t -> (60 <= n)%N ->
  job_due (jobOf this functionName input (print_cron (schedule_of_rate n Minute))) t
  = bool_decide (t_minute t = 0%N).
Proof.
  intros (Hminute & _) Hn. rewrite job_due_schedule, due_schedule_of_rate.
  apply step_matches_beyond; lia.
Qed.

(** A step that divides the range of its field matches the multiples of
    the step on any larger count. *)
Lemma step_matches_divides (n k v : N) :
  (n | 60)%N -> step_matches n 0 v = bool_decide (((k * 60 + v) mod n = 0)%N).
Proof.
  intros [q Hq]. unfold step_matches. rewrite N.sub_0_r.
  destruct (N.eqb_spec n 0) as [->|Hn]; [lia|]. cbn [negb andb].
  rewrite Hq, N.mul_assoc, N.add_comm, N.Div0.mod_add.
  destruct (N.eqb_spec (v mod n) 0);
    [by rewrite bool_decide_eq_true_2 | by rewrite bool_decide_eq_false_2].
Qed.

(** C31: a rate in minutes that divides the hour.  The job of
    [rate(<n> minutes)], for [n] a divisor of sixty, is due exactly at the
    times whose minute of the day is a multiple of [n]: it fires every
    [n] minutes, across the hours and, a day being a multiple of the hour,
    across the days, as the rate says. *)
Theorem job_due_minutes_divides (this : OfflineScheduler) (functionName : string)
    (input : json) (n : N) (t : Time) :
  (n | 60)%N ->
  job_due (jobOf this functionName input (print_cron (schedule_of_rate n Minute))) t
  = bool_decide (((t_hour t * 60 + t_minute t) mod n = 0)%N).
Proof.
  intros Hn. rewrite job_due_schedule, due_schedule_of_rate. by apply step_matches_divides.
Qed.

(** ** The clock drives the process *)

(** The due positions are positions of the registry, and the jobs there
    are the due jobs, in order. *)
Lemma dueFrom_lookup (suffix prefix : list Job) (t : Time) :
  Forall (fun i => i < length (prefix ++ suffix)) (dueFrom (length prefix) suffix t) /\
  omap (fun i => (prefix ++ suffix) !! i) (dueFrom (length prefix) suffix t)
  = List.filter (fun job => job_due job t) suffix.
Proof.
  revert prefix. induction suffix as [|job suffix IH]; intros prefix; [done|].
  destruct (IH (prefix ++ [job])) as [Hlt Hjobs].
  rewrite <- app_assoc, (length_app prefix [job]), Nat.add_1_r in Hlt, Hjobs.
  cbn [dueFrom List.filter]. destruct (job_due job t); [|done]. cbn [app omap list_omap].
  rewrite list_lookup_middle by done. split; [|by f_equal].
  constructor; [|done]. rewrite length_app. cbn. lia.
Qed.

Section ClockFacts.
Context `{invoker : Invoker W} `{normalizer : Normalizer}.
Context `{!NormalizerSpec normalizer}.
Variable this : OfflineScheduler.
Implicit Types (p : Process W) (t : Time).

(** A tick fires the due jobs, each once.  When jobs can fire, a tick of
    the clock is a sequence of firings that is always enabled; it invokes
    the functions of exactly the registered jobs that are due at that
    time, once each and in the order of their registration, whether the
    invocations return or throw, and leaves the phase and the registry as
    they were. *)
Lemma tick_fires p t :
  firing (phase p) = true ->
  exists p',
    tick this p t = Some p' /\
    phase p' = phase p /\
    jobs (history p') = jobs (history p) /\
    invocations (history p') =
    invocations (history p)
      ++ (invocationOf <$> List.filter (fun job => job_due job t) (jobs (history p))).
Proof.
  intros Hfiring. destruct (dueFrom_lookup (jobs (history p)) [] t) as [Hlt Hdue].
  destruct (run_fires this p _ Hfiring Hlt) as (fired & w' & Hrun & Hfired & Hinv).
  eexists. split; [exact Hrun|]. cbn [phase history]. split_and!; [done|..].
  - by rewrite jobs_app, (Fired_jobs _ _ Hfired), app_nil_r.
  - rewrite invocations_app, Hinv. cbn [app] in Hdue. by rewrite Hdue.
Qed.

(** The clock never stops a process in which jobs can fire. *)
Lemma clock_fires p ts :
  firing (phase p) = true ->
  exists p',
    clock this p ts = Some p' /\
    phase p' = phase p /\
    jobs (history p') = jobs (history p) /\
    invocations (history p') =
    invocations (history p) ++ clockInvocations (jobs (history p)) ts.
Proof.
  revert p. induction ts as [|t ts IH]; intros p Hfiring.
  { exists p. by rewrite app_nil_r. }
  destruct (tick_fires p t Hfiring) as (p1 & Htick & Hphase & Hjobs & Hinv).
  destruct (IH p1) as (p' & Hclock & Hphase' & Hjobs' & Hinv'); [by rewrite Hphase|].
  exists p'. cbn [clock clockInvocations flat_map]. rewrite Htick.
  split_and!; [done|congruence|congruence|].
  rewrite Hinv', Hinv, Hjobs, <- app_assoc. done.
Qed.

(** C30: the functions run when their rates say.  For a service whose
    expressions are all valid, started embedded when no immediate
    invocation can throw, the clock may go through any times: at each
    time it fires the jobs that are due, once each and in the order of
    their registration, whether their invocations return or throw.  All
    the scheduler ever invokes is the immediate runs of the start and
    then, time after time, the functions of the due jobs among the jobs
    of the resolved configurations, each with its input. *)
Theorem clock_schedule w configurations ts :
  object_wf (functionProvider this ()) ->
  resolve (functionProvider this ()) = Normal configurations ->
  safe_start this ->
  exists p p',
    step this (initial w) CallScheduleEvents = Some p /\
    clock this p ts = Some p' /\
    phase p' = Scheduled /\
    invocations (history p') =
    flat_map (immediateRunsOf this) configurations
      ++ clockInvocations (flat_map (jobsOf this) configurations) ts.
Proof.
  intros Hwf Hres Hsafe.
  destruct (forEach_scheduleConfiguration_complete this configurations w Hsafe) as [Hout Hemit].
  set (p := MkProcess Scheduled (startScript this configurations)
              (final (forEach (scheduleConfiguration this) configurations w))).
  destruct (clock_fires p ts) as (p' & Hclock & Hphase & _ & Hinv); [done|].
  exists p, p'. split_and!; [|done|done|].
  - cbn [step initial phase]. unfold after.
    by rewrite (scheduleEvents_Normal this configurations Hwf Hres w), Hout, Hemit.
  - rewrite Hinv. unfold p. cbn [history].
    by rewrite invocations_startScript, jobs_startScript.
Qed.

(** A process driven by the clock stays among the reachable states. *)
Lemma clock_Reachable p ts p' :
  Reachable this p -> clock this p ts = Some p' -> Reachable this p'.
Proof.
  revert p. induction ts as [|t ts IH]; cbn [clock]; intros p Hp; [by intros [= <-]|].
  destruct (tick this p t) as [p1|] eqn:Htick; [|done].
  apply IH. by apply (run_Reachable this p (Fire <$> dueFrom 0 (jobs (history p)) t) p1).
Qed.

End ClockFacts.

(** ** The theorems on the fixture of the test suite *)

(** [rate(90 minutes)] at 10:00 and at 11:30. *)
Lemma job_due_minutes_beyond_witness :
  job_due (jobOf (testScheduler scheduleFunction [] false) "schedule-function" fixtureInput
             (print_cron (schedule_of_rate 90 Minute)))
          (MkTime 30 11 1 1 0)
  = bool_decide (t_minute (MkTime 30 11 1 1 0) = 0%N).
Proof.
  apply (job_due_minutes_beyond (testScheduler scheduleFunction [] false)
           "schedule-function" fixtureInput 90 (MkTime 30 11 1 1 0)); [|done].
  unfold time_wf; cbn; lia.
Defined.

(** The job of [rate(2 hours)] is due at 02:00, at 02:01 and at 02:59. *)
Example rate_hours_every_minute :
  Forall (fun m => job_due (MkJob "* */2 * * *" "f" emptyObject ConsoleLog)
                           (MkTime m 2 1 1 0) = true) [0; 1; 59]%N.
Proof. by repeat constructor. Qed.

(** The job of [rate(0 minutes)] is never due. *)
Example rate_zero_never (t : Time) :
  job_due (MkJob "*/0 * * * *" "f" emptyObject ConsoleLog) t = false.
Proof. done. Qed.

(** The fixture with two rates from 10:00 to 10:02: the job of
    [rate(1 minute)] fires three times, that of [rate(2 minute)] twice. *)
Lemma clock_schedule_witness :
  let this := testScheduler scheduleFunctionTwoRates [] false in
  let configurations :=
    [MkFunctionConfiguration fixtureInput "schedule-function" ["*/1 * * * *"; "*/2 * * * *"]] in
  let ts := [MkTime 0 10 1 1 0; MkTime 1 10 1 1 0; MkTime 2 10 1 1 0] in
  exists p p',
    step (invoker:=slsRunSpy) this (initial ()) CallScheduleEvents = Some p /\
    clock (invoker:=slsRunSpy) this p ts = Some p' /\
    phase p' = Scheduled /\
    invocations (history p') =
    flat_map (immediateRunsOf this) configurations
      ++ clockInvocations (flat_map (jobsOf this) configurations) ts.
Proof.
  intros this configurations ts.
  apply (clock_schedule (invoker:=slsRunSpy) this () configurations ts);
    [apply scheduleFunctionTwoRates_wf | reflexivity | by left].
Defined.

Example clock_schedule_count :
  length (clockInvocations
            (flat_map (jobsOf (testScheduler scheduleFunctionTwoRates [] false))
               [MkFunctionConfiguration fixtureInput "schedule-function"
                  ["*/1 * * * *"; "*/2 * * * *"]])
            [MkTime 0 10 1 1 0; MkTime 1 10 1 1 0; MkTime 2 10 1 1 0]) = 5.
Proof. reflexivity. Qed.

(** [rate(15 minutes)] at 10:45. *)
Lemma job_due_minutes_divides_witness :
  job_due (jobOf (testScheduler scheduleFunction [] false) "schedule-function" fixtureInput
             (print_cron (schedule_of_rate 15 Minute)))
          (MkTime 45 10 1 1 0)
  = bool_decide (((t_hour (MkTime 45 10 1 1 0) * 60 + t_minute (MkTime 45 10 1 1 0)) mod 15
                  = 0)%N).
Proof.
  apply (job_due_minutes_divides (testScheduler scheduleFunction [] false)
           "schedule-function" fixtureInput 15 (MkTime 45 10 1 1 0)).
  by exists 4%N.
Defined.
