(* ===== verification/Restart.v ===== *)
(** * A scheduler that is started again

    [scheduleEvents] is a public method ([src/src/scheduler.ts], line 39):
    a host that embeds the scheduler may call it again, after a start that
    returned or after one that threw.  The specification lets it (section
    3: the state is rebuilt each time scheduling is started again; section
    4.3: the calls of a host are serialized), and section 1 names
    idempotent registration among the design decisions.  The code keeps
    nothing of its own between two calls, but the timers it registered
    belong to node-schedule, and nothing cancels them (line 57 drops the
    handle): every start adds its jobs to those already there.

    [restart] is the transition function of such a host: the label
    [CallScheduleEvents], enabled in every phase of an embedded scheduler,
    and [Fire], as in [Process.step]; the runs of [Process.run] with one
    start are among its runs ([restarts_run]).  The provider is a function
    without state, so every start resolves the same tasks.

    [restart_registry] says what the registry holds after any sequence
    of starts and firings: one round of jobs per start ([round]).
    [restarts_ind] is the induction principle of the histories, and
    [orderly] the invariant it gives: however often the scheduler is
    started, it registers timers of the tasks only, invokes functions of
    the service only and writes to its own sink only.  [restarts_tick] is
    what the operator then sees: at each due time a function runs once
    for every start.  The machine of [Lifecycle] has one registration:
    [restart_outside_machine] shows that no run with a second start is a
    run of it. *)

From Stdlib Require Import String ZArith Lia.
From stdpp Require Import base tactics option list strings.
From S2P Require Import Prelude Json Cron Serverless Effects Scheduler Fixture Resolver Engine Spec.
From S2P Require Import Process Lifecycle Timer.

#[local] Open Scope js_scope.

(** The phases of a scheduler embedded in a host. *)
Definition embedded (ph : Phase) : bool :=
  match ph with
  | Created | Scheduled | Failed _ => true
  | Started | Listening | Crashed _ | Exited _ => false
  end.

(** The starts of a sequence of transitions. *)
Definition starts (ls : list Label) : nat := length (List.filter is_start ls).

Section Restart.
Context `{invoker : Invoker W} `{normalizer : Normalizer}.
Variable this : OfflineScheduler.

(** One transition of an embedded scheduler whose host may start it
    again: a call of [scheduleEvents] runs whatever came before, and
    leaves the phase its completion gives; jobs fire as in [step]. *)
Definition restart (p : Process W) (l : Label) : option (Process W) :=
  match l with
  | CallScheduleEvents =>
      if embedded (phase p)
      then Some (after p (scheduleEvents this) (started Scheduled))
      else None
  | Fire i => step this p (Fire i)
  | CallScheduleEventsStandalone | RunThen | Deliver _ => None
  end.

(** A sequence of transitions. *)
Fixpoint restarts (p : Process W) (ls : list Label) : option (Process W) :=
  match ls with
  | [] => Some p
  | l :: ls' =>
      match restart p l with
      | Some p' => restarts p' ls'
      | None => None
      end
  end.

(** What one start adds to the registry: an initial segment of the
    timers of the tasks, and all of them when no immediate run can
    throw. *)
Definition round (js : list Job) : Prop :=
  js `prefix_of` tasks this /\ (safe_start this -> js = tasks this).

(** The history of an orderly scheduler: its jobs are timers of the
    tasks, its invocations are of functions of these with their inputs,
    and its notices went to the scheduler's sink. *)
Definition orderly (es : list Effect) : Prop :=
  (forall job, job ∈ jobs es -> job ∈ tasks this) /\
  (forall f i, (f, i) ∈ invocations es ->
     exists job, job ∈ tasks this /\ job_functionName job = f /\ job_input job = i) /\
  (forall s, s ∈ sinks es -> s = this_log this).

End Restart.

(** ** One transition *)

Section RestartFacts.
Context `{invoker : Invoker W} `{normalizer : Normalizer}.
Context `{!NormalizerSpec normalizer}.
Variable this : OfflineScheduler.
Implicit Types (p q : Process W) (l : Label) (w : W).

(** A scheduler that is started once is a special case: from a fresh
    process, and for every firing, [restart] is [step]. *)
Lemma restart_step p l :
  phase p = Created \/ is_fire l = true ->
  l <> CallScheduleEventsStandalone ->
  restart this p l = step this p l.
Proof.
  intros [Hp| Hl] Hl'; destruct l; try done; cbn; by rewrite Hp.
Qed.

Lemma restarts_fires p (ks : list nat) :
  restarts this p (Fire <$> ks) = run this p (Fire <$> ks).
Proof.
  revert p. induction ks as [|k ks IH]; intros p; [done|].
  cbn [fmap list_fmap restarts run restart]. by destruct (step this p (Fire k)).
Qed.

(** The runs of [Process.run] of an embedded scheduler are runs of
    [restarts]. *)
Lemma restarts_run w (ks : list nat) :
  restarts this (initial w) (CallScheduleEvents :: (Fire <$> ks))
  = run this (initial w) (CallScheduleEvents :: (Fire <$> ks)).
Proof. cbn [restarts run restart step initial phase embedded]. apply restarts_fires. Qed.

Lemma restarts_app p ls1 ls2 :
  restarts this p (ls1 ++ ls2) = restarts this p ls1 ≫= fun q => restarts this q ls2.
Proof.
  revert p. induction ls1 as [|l ls1 IH]; intros p; [done|]. cbn.
  by destruct (restart this p l).
Qed.

(** A host can always start its scheduler again, and the scheduler stays
    embedded. *)
Lemma restart_start p :
  embedded (phase p) = true -> is_Some (restart this p CallScheduleEvents).
Proof. intros Hp. cbn. by rewrite Hp. Qed.

Lemma restart_embedded p l q :
  embedded (phase p) = true -> restart this p l = Some q -> embedded (phase q) = true.
Proof.
  intros Hp. destruct l; cbn; try done.
  - rewrite Hp. intros [= <-]. cbn. by destruct (outcome _).
  - destruct (firing (phase p)); [|done]. destruct (jobs (history p) !! i); [|done].
    intros [= <-]. by rewrite after_jobCallback.
Qed.

(** Invariants of histories.  A property of lists of effects that holds
    of the empty history, that every start keeps and that every firing of
    a registered job keeps holds of the history of every run. *)
Lemma restarts_ind (P : list Effect -> Prop) :
  P [] ->
  (forall es w, P es -> P (es ++ emitted (scheduleEvents this w))) ->
  (forall es job w, P es -> job ∈ jobs es -> P (es ++ emitted (jobCallback job w))) ->
  forall w ls p, restarts this (initial w) ls = Some p -> P (history p).
Proof.
  intros Hnil Hstart Hfire w ls. generalize (initial w), (Hnil : P (history (initial w))).
  induction ls as [|l ls IH]; cbn [restarts]; intros p Hp q; [by intros [= <-]|].
  destruct (restart this p l) as [p1|] eqn:Hstep; [|done]. apply IH.
  destruct l; cbn in Hstep; try done.
  - destruct (embedded (phase p)); [|done]. injection Hstep as <-. by apply Hstart.
  - destruct (firing (phase p)); [|done].
    destruct (jobs (history p) !! i) as [job|] eqn:Hjob; [|done]. injection Hstep as <-.
    apply Hfire; [done|]. by eapply list_elem_of_lookup_2.
Qed.

Lemma starts_cons l ls : starts (l :: ls) = (if is_start l then 1 else 0) + starts ls.
Proof. unfold starts. cbn. by destruct (is_start l). Qed.

Lemma starts_fires (ks : list nat) : starts (Fire <$> ks) = 0.
Proof. induction ks as [|k ks IH]; [done|]. by rewrite fmap_cons, starts_cons. Qed.

End RestartFacts.

(** ** The registry *)

Section Registry.
Context `{invoker : Invoker W} `{normalizer : Normalizer}.
Context `{!NormalizerSpec normalizer}.
Variable this : OfflineScheduler.
Hypothesis provider_wf : object_wf (functionProvider this ()).
Implicit Types (p q : Process W) (l : Label) (w : W) (rounds : list (list Job)).

(** When no immediate run can throw, a start registers the timers of the
    tasks: all of them when the expressions are valid, none when one is
    not. *)
Lemma jobs_scheduleEvents_safe w :
  safe_start this -> jobs (emitted (scheduleEvents this w)) = tasks this.
Proof.
  intros Hsafe. unfold tasks.
  destruct (resolve (functionProvider this ())) as [configurations|e] eqn:Hres.
  - rewrite (scheduleEvents_Normal this configurations provider_wf Hres w).
    destruct (forEach_scheduleConfiguration_complete this configurations w Hsafe) as [_ ->].
    apply jobs_startScript.
  - by rewrite (scheduleEvents_Throw this e provider_wf Hres w).
Qed.

Lemma round_scheduleEvents w : round this (jobs (emitted (scheduleEvents this w))).
Proof. split; [by apply jobs_scheduleEvents_prefix|by apply jobs_scheduleEvents_safe]. Qed.

(** One transition adds a round when it is a start and nothing when it is
    a firing. *)
Lemma restart_rounds p l q rounds :
  restart this p l = Some q ->
  jobs (history p) = concat rounds -> Forall (round this) rounds ->
  exists rounds',
    length rounds' = length rounds + starts [l] /\
    jobs (history q) = concat rounds' /\ Forall (round this) rounds'.
Proof.
  intros Hstep Hjobs Hrounds. destruct l; try done; cbn in Hstep.
  - destruct (embedded (phase p)); [|done]. injection Hstep as <-.
    exists (rounds ++ [jobs (emitted (scheduleEvents this (world p)))]). split_and!.
    + by rewrite length_app.
    + unfold after. cbn [history]. rewrite jobs_app, concat_app, Hjobs. cbn. by rewrite app_nil_r.
    + apply Forall_app. split; [done|]. constructor; [apply round_scheduleEvents|done].
  - destruct (firing (phase p)); [|done]. destruct (jobs (history p) !! i) as [job|]; [|done].
    injection Hstep as <-. exists rounds. rewrite after_jobCallback_jobs.
    split_and!; [cbn; lia|done|done].
Qed.

Lemma restarts_rounds p ls q rounds :
  restarts this p ls = Some q ->
  jobs (history p) = concat rounds -> Forall (round this) rounds ->
  exists rounds',
    length rounds' = length rounds + starts ls /\
    jobs (history q) = concat rounds' /\ Forall (round this) rounds'.
Proof.
  revert p rounds. induction ls as [|l ls IH]; cbn [restarts]; intros p rounds.
  { intros [= <-] ? ?. exists rounds. split_and!; [cbn; lia|done|done]. }
  destruct (restart this p l) as [p1|] eqn:Hstep; [|done]. intros Hrun Hjobs Hrounds.
  destruct (restart_rounds p l p1 rounds Hstep Hjobs Hrounds) as (rounds1 & Hlen1 & Hjobs1 & H1).
  destruct (IH p1 rounds1 Hrun Hjobs1 H1) as (rounds' & Hlen & ? & ?).
  exists rounds'. split_and!; [|done|done].
  rewrite Hlen, Hlen1, (starts_cons l ls). unfold starts. cbn. destruct (is_start l); cbn; lia.
Qed.

(** C14: registration is not idempotent.  After any sequence of starts
    and firings of an embedded scheduler, the registry holds one round of
    jobs for every start, in the order of the starts: each round is an
    initial segment of the timers of the tasks, and all of them when no
    immediate run can throw.  No start cancels or replaces the jobs of an
    earlier one, so a scheduler started [n] times holds every timer [n]
    times. *)
Theorem restart_registry w ls p :
  restarts this (initial w) ls = Some p ->
  exists rounds,
    length rounds = starts ls /\
    jobs (history p) = concat rounds /\
    Forall (round this) rounds.
Proof.
  intros Hrun. by apply (restarts_rounds (initial w) ls p [] Hrun).
Qed.

(** When no immediate run can throw, the registry after [n] starts is
    [n] copies of the timers of the tasks. *)
Lemma restarts_safe w ls p :
  safe_start this -> restarts this (initial w) ls = Some p ->
  jobs (history p) = concat (replicate (starts ls) (tasks this)).
Proof.
  intros Hsafe Hrun.
  destruct (restarts_rounds (initial w) ls p [] Hrun) as (rounds & Hlen & -> & Hrounds); [done..|].
  cbn in Hlen. rewrite <- Hlen. f_equal. clear Hrun Hlen.
  induction Hrounds as [|js rounds [_ Hjs] _ IH]; [done|].
  cbn. by rewrite <- IH, Hjs.
Qed.

(** Every job of the registry is a timer of the tasks. *)
Lemma restarts_jobs w ls p job :
  restarts this (initial w) ls = Some p -> job ∈ jobs (history p) -> job ∈ tasks this.
Proof.
  intros Hrun Hjob.
  destruct (restarts_rounds (initial w) ls p [] Hrun) as (rounds & _ & Hjobs & Hrounds); [done..|].
  rewrite Hjobs, elem_of_concat in Hjob. destruct Hjob as (js & Hjob & Hjs).
  rewrite Forall_forall in Hrounds. destruct (Hrounds js Hjs) as [Hprefix _].
  by eapply elem_of_prefix.
Qed.

(** The timers of the tasks are well formed. *)
Lemma tasks_job_wf job : job ∈ tasks this -> job_wf this job.
Proof.
  unfold tasks. destruct (resolve (functionProvider this ())) as [configurations|e] eqn:Hres.
  - rewrite <- jobs_startScript. apply startScript_job_wf. by apply resolve_wf.
  - by intros ?%elem_of_nil.
Qed.

(** However often a scheduler is started, its registry stays well
    formed. *)
Lemma restarts_jobs_wf w ls p :
  restarts this (initial w) ls = Some p -> Forall (job_wf this) (jobs (history p)).
Proof.
  intros Hrun. apply Forall_forall. intros job Hjob.
  by apply tasks_job_wf, (restarts_jobs w ls p).
Qed.

End Registry.

(** ** The history *)

Section History.
Context `{invoker : Invoker W} `{normalizer : Normalizer}.
Context `{!NormalizerSpec normalizer}.
Variable this : OfflineScheduler.
Hypothesis provider_wf : object_wf (functionProvider this ()).
Implicit Types (p q : Process W) (l : Label) (w : W) (es : list Effect).

(** What a start emits is an initial segment of a script that registers
    the timers of the tasks, invokes the functions of these and writes to
    the scheduler's sink. *)
Lemma scheduleEvents_tasks w :
  exists script,
    emitted (scheduleEvents this w) `prefix_of` script /\
    jobs script = tasks this /\
    (forall f i, (f, i) ∈ invocations script ->
       exists job, job ∈ tasks this /\ job_functionName job = f /\ job_input job = i) /\
    (forall s, s ∈ sinks script -> s = this_log this).
Proof.
  unfold tasks. destruct (resolve (functionProvider this ())) as [configurations|e] eqn:Hres.
  - exists (startScript this configurations). split_and!.
    + rewrite (scheduleEvents_Normal this configurations provider_wf Hres w).
      apply (forEach_scheduleConfiguration_follows this configurations w).
    + apply jobs_startScript.
    + intros f i. rewrite <- jobs_startScript. apply startScript_invocations.
    + apply sinks_startScript.
  - exists []. rewrite (scheduleEvents_Throw this e provider_wf Hres w).
    split_and!; [done|done|intros ? ? ?%elem_of_nil|intros ? ?%elem_of_nil]; done.
Qed.

Lemma orderly_start es w : orderly this es -> orderly this (es ++ emitted (scheduleEvents this w)).
Proof.
  intros (Hjobs & Hinv & Hsinks).
  destruct (scheduleEvents_tasks w) as (script & Hpre & Hscript & Hinv' & Hsinks').
  split_and!; [intros job|intros f i|intros s];
    rewrite ?jobs_app, ?invocations_app, ?sinks_app, elem_of_app; (intros [?|Hin]; [by auto|]).
  - rewrite <- Hscript. eapply elem_of_prefix; [done|by apply omap_prefix].
  - apply Hinv'. eapply elem_of_prefix; [done|by apply omap_prefix].
  - apply Hsinks'. eapply elem_of_prefix; [done|by apply omap_prefix].
Qed.

Lemma orderly_fire es job w :
  orderly this es -> job ∈ jobs es -> orderly this (es ++ emitted (jobCallback job w)).
Proof.
  intros (Hjobs & Hinv & Hsinks) Hjob. rewrite jobCallback_run. cbn [emitted].
  split_and!; [intros job'|intros f i|intros s];
    rewrite ?jobs_app, ?invocations_app, ?sinks_app, elem_of_app; (intros [?|Hin]; [by auto|]).
  - by apply elem_of_nil in Hin.
  - apply list_elem_of_singleton in Hin as [= -> ->]. exists job. auto.
  - apply list_elem_of_singleton in Hin as ->.
    by destruct (tasks_job_wf this job (Hjobs job Hjob)) as (_ & _ & _ & _ & ?).
Qed.

(** However often it is started, a scheduler stays orderly. *)
Lemma restarts_orderly w ls p : restarts this (initial w) ls = Some p -> orderly this (history p).
Proof.
  apply (restarts_ind this (orderly this)); [|apply orderly_start|apply orderly_fire].
  split_and!; [intros ?|intros ? ?|intros ?]; by intros ?%elem_of_nil.
Qed.

(** Only functions of the service that are not skipped are ever
    invoked, each with the input of one of its configurations. *)
Lemma restarts_invocations w ls p configurations f i :
  resolve (functionProvider this ()) = Normal configurations ->
  restarts this (initial w) ls = Some p -> (f, i) ∈ invocations (history p) ->
  exists fc, fc ∈ configurations /\ functionName fc = f /\ input fc = i /\
             isSkipped (configOptions this) f = false.
Proof.
  intros Hres (_ & Hinv & _)%restarts_orderly Hin.
  destruct (Hinv f i Hin) as (job & Hjob & <- & <-). unfold tasks in Hjob.
  rewrite Hres, <- jobs_startScript in Hjob.
  apply startScript_jobs in Hjob as (fc & ? & -> & -> & ?). by exists fc.
Qed.

(** Every notice goes to the sink the scheduler was constructed with. *)
Lemma restarts_sinks w ls p s :
  restarts this (initial w) ls = Some p -> s ∈ sinks (history p) -> s = this_log this.
Proof. intros (_ & _ & Hsinks)%restarts_orderly. apply Hsinks. Qed.

End History.

(** ** What the operator sees *)

Section Clock.
Context `{invoker : Invoker W} `{normalizer : Normalizer}.
Context `{!NormalizerSpec normalizer}.
Variable this : OfflineScheduler.
Hypothesis provider_wf : object_wf (functionProvider this ()).
Implicit Types (p q : Process W) (l : Label) (w : W) (t : Time).

(** After any transition jobs can fire. *)
Lemma restart_firing p l q : restart this p l = Some q -> firing (phase q) = true.
Proof.
  destruct l; cbn; try done.
  - destruct (embedded (phase p)); [|done]. intros [= <-]. cbn. by destruct (outcome _).
  - destruct (firing (phase p)) eqn:Hp; [|done]. destruct (jobs (history p) !! i); [|done].
    intros [= <-]. by rewrite after_jobCallback.
Qed.

Lemma restarts_firing p ls q :
  restarts this p ls = Some q -> ls <> [] -> firing (phase q) = true.
Proof.
  revert p. induction ls as [|l ls IH]; cbn [restarts]; intros p; [done|].
  destruct (restart this p l) as [p1|] eqn:Hstep; [|done]. intros Hrun _.
  destruct ls as [|l' ls]; [|by apply (IH p1)].
  injection Hrun as <-. by apply (restart_firing p l).
Qed.

(** Every due time runs a function once for every start.  When no
    immediate run can throw, a tick of the clock after [n] starts invokes
    the functions of the due timers of the tasks [n] times over. *)
Lemma restarts_tick w ls p t :
  safe_start this -> restarts this (initial w) ls = Some p -> ls <> [] ->
  exists p',
    tick this p t = Some p' /\
    invocations (history p') =
    invocations (history p)
      ++ concat (replicate (starts ls)
                   (invocationOf <$> List.filter (fun job => job_due job t) (tasks this))).
Proof.
  intros Hsafe Hrun Hls.
  destruct (tick_fires this p t) as (p' & Htick & _ & _ & Hinv); [by apply (restarts_firing (initial w) ls)|].
  exists p'. split; [done|].
  by rewrite Hinv, (restarts_safe this provider_wf w ls p Hsafe Hrun), fmap_filter_replicate.
Qed.

End Clock.

(** ** The machine of the specification *)

(** The lifecycle of the specification has one registration: after any
    firings, a second start is no move of the machine, so a run with two
    starts refines no run of it. *)
Lemma restart_outside_machine (expected : list Job) (ks : list nat) :
  moves expected idle
    (flat_map implements (CallScheduleEvents :: (Fire <$> ks) ++ [CallScheduleEvents]))
  = None.
Proof.
  cbn [flat_map implements app moves move idle stage].
  generalize (eq_refl : stage (MkMachine Running expected) = Running).
  generalize (MkMachine Running expected).
  induction ks as [|k ks IH]; intros [st ts] Hst; cbn in Hst; subst st; [done|].
  cbn. case_decide; [|done]. by apply IH.
Qed.

(** ** The theorems on the fixture of the test suite *)

(** Two starts of the fixture with a firing between them: two rounds of
    one job. *)
Lemma restart_registry_witness :
  exists rounds,
    length rounds = 2 /\
    [MkJob "*/1 * * * *" "schedule-function" fixtureInput ConfigLog;
     MkJob "*/1 * * * *" "schedule-function" fixtureInput ConfigLog] = concat rounds /\
    Forall (round (invoker:=slsRunSpy) (testScheduler scheduleFunction [] false)) rounds.
Proof.
  apply (restart_registry (invoker:=slsRunSpy) (testScheduler scheduleFunction [] false)
           scheduleFunction_wf () [CallScheduleEvents; Fire 0; CallScheduleEvents]
           (MkProcess Scheduled
              [Log ConfigLog (schedulingMessage "schedule-function" ["*/1 * * * *"] fixtureInput);
               ScheduleJob (MkJob "*/1 * * * *" "schedule-function" fixtureInput ConfigLog);
               Invoke "schedule-function" fixtureInput;
               Log ConfigLog (successMessage "schedule-function");
               Log ConfigLog (schedulingMessage "schedule-function" ["*/1 * * * *"] fixtureInput);
               ScheduleJob (MkJob "*/1 * * * *" "schedule-function" fixtureInput ConfigLog)] ())).
  reflexivity.
Defined.

(** The fixture started twice, then one tick of the clock: the function
    is invoked twice at the same minute. *)
Example restarts_tick_twice :
  (restarts (invoker:=slsRunSpy) (testScheduler scheduleFunction [] false) (initial ())
     [CallScheduleEvents; CallScheduleEvents]
   ≫= fun p => tick (invoker:=slsRunSpy) (testScheduler scheduleFunction [] false) p (MkTime 7 0 1 1 0))
  ≫= (fun p => Some (invocations (history p)))
  = Some [("schedule-function", fixtureInput); ("schedule-function", fixtureInput)].
Proof. reflexivity. Qed.
