(* ===== verification/Tests.v ===== *)
(** * The test suite, run on the model

    [src/tests/scheduler.spec.ts] has seven tests.  Each builds a scheduler
    over a provider and a pair of options, calls [scheduleEvents] (the last
    one [scheduleEventsStandalone]) and states expectations on three mocks:
    the [log] function, [schedule.scheduleJob] and, in one test,
    [slsInvokeFunction].  On the model the calls of the mocks are read off
    the effects of the run: [logCalls], [scheduleJobCalls] and
    [slsRunSpyCalls].  Every expectation of the suite is an [Example] of
    this file, proved by evaluation of the model. *)

From Stdlib Require Import String.
From stdpp Require Import base tactics option list strings.
From S2P Require Import Prelude Json Cron Serverless Effects Scheduler Fixture.
From S2P Require Import Resolver Engine Spec Process.

(** The effects of [scheduler.scheduleEvents()] in a test. *)
Definition scheduleEventsCalled (scheduler : OfflineScheduler) : list Effect :=
  emitted (scheduleEvents (invoker:=slsRunSpy) scheduler ()).

(** The effects of [scheduler.scheduleEventsStandalone()] in a test. *)
Definition scheduleEventsStandaloneCalled (scheduler : OfflineScheduler) : list Effect :=
  emitted (scheduleEventsStandalone (invoker:=slsRunSpy) scheduler ()).

(** The arguments of the calls of the mock [log]. *)
Definition logCalls (es : list Effect) : list string :=
  omap (fun e => match e with Log ConfigLog m => Some m | _ => None end) es.

(** The calls of the spy on [schedule.scheduleJob]. *)
Definition scheduleJobCalls (es : list Effect) : list Job := jobs es.

(** The calls of the spy on [slsInvokeFunction]. *)
Definition slsRunSpyCalls (es : list Effect) : list (string * json) := invocations es.

(** [expect(mock).toBeCalledTimes(n)]. *)
Definition toBeCalledTimes {A} (calls : list A) (n : nat) : bool :=
  bool_decide (length calls = n).

(** [expect(mock).toBeCalledWith(x)]. *)
Definition toBeCalledWith `{EqDecision A} (calls : list A) (x : A) : bool :=
  bool_decide (x ∈ calls).

(** [expect(mock).nthCalledWith(n, x)], [n] counted from 1. *)
Definition nthCalledWith `{EqDecision A} (calls : list A) (n : nat) (x : A) : bool :=
  bool_decide (calls !! pred n = Some x).

(** ** The seven tests *)

(** The scheduling notice the tests expect, for the cron expressions
    [cron]: [Scheduling [schedule-function] cron: [<cron>] input:
    {"scheduler":"1-minute"}]. *)
Definition expectedNotice (cron : string) : string :=
  "Scheduling [schedule-function] cron: [" +:+ cron +:+ "] input: {"
    +:+ dquote +:+ "scheduler" +:+ dquote +:+ ":" +:+ dquote +:+ "1-minute" +:+ dquote +:+ "}".

(** Should not schedule any jobs when no functions provided. *)
Definition test_no_functions : bool :=
  let es := scheduleEventsCalled (testScheduler [] [] false) in
  toBeCalledTimes (logCalls es) 0.

(** Should not schedule any jobs when function with no events provided. *)
Definition test_no_events : bool :=
  let es := scheduleEventsCalled (testScheduler getUserFunction [] false) in
  toBeCalledTimes (logCalls es) 0.

(** Should schedule job when function with schedule provided. *)
Definition test_schedule : bool :=
  let es := scheduleEventsCalled (testScheduler scheduleFunction [] false) in
  toBeCalledWith (logCalls es) (expectedNotice "*/1 * * * *")
  && toBeCalledTimes (scheduleJobCalls es) 1.

(** Should respect the "skipFunctions" option. *)
Definition test_skipFunctions : bool :=
  let es := scheduleEventsCalled (testScheduler scheduleFunction ["schedule-function"] false) in
  toBeCalledTimes (scheduleJobCalls es) 0.

(** Should run the function immediately when "runImmediately" option is
    set. *)
Definition test_runImmediately : bool :=
  let es := scheduleEventsCalled (testScheduler scheduleFunction [] true) in
  toBeCalledWith (logCalls es) (expectedNotice "*/1 * * * *")
  && toBeCalledTimes (slsRunSpyCalls es) 1
  && toBeCalledTimes (scheduleJobCalls es) 1.

(** Should schedule job with multiple schedules. *)
Definition test_multiple_schedules : bool :=
  let es := scheduleEventsCalled (testScheduler scheduleFunctionTwoRates [] false) in
  toBeCalledWith (logCalls es) (expectedNotice "*/1 * * * *,*/2 * * * *")
  && toBeCalledTimes (scheduleJobCalls es) 2.

(** Should schedule job in standalone process when function with schedule
    provided. *)
Definition test_standalone : bool :=
  let es := scheduleEventsStandaloneCalled (testScheduler scheduleFunction [] false) in
  nthCalledWith (logCalls es) 1
    "Starting serverless-offline-schedule in standalone process. Press CTRL+C to stop."
  && nthCalledWith (logCalls es) 2 (expectedNotice "*/1 * * * *")
  && toBeCalledTimes (scheduleJobCalls es) 1.

(** The suite. *)
Definition scheduler_spec : list bool :=
  [test_no_functions; test_no_events; test_schedule; test_skipFunctions;
   test_runImmediately; test_multiple_schedules; test_standalone].

(** ** The tests pass *)

Example test_no_functions_passes : test_no_functions = true.
Proof. reflexivity. Qed.

Example test_no_events_passes : test_no_events = true.
Proof. reflexivity. Qed.

Example test_schedule_passes : test_schedule = true.
Proof. reflexivity. Qed.

Example test_skipFunctions_passes : test_skipFunctions = true.
Proof. reflexivity. Qed.

Example test_runImmediately_passes : test_runImmediately = true.
Proof. reflexivity. Qed.

Example test_multiple_schedules_passes : test_multiple_schedules = true.
Proof. reflexivity. Qed.

Example test_standalone_passes : test_standalone = true.
Proof. reflexivity. Qed.

(** The model passes the test suite: each of the seven tests of
    [scheduler.spec.ts], run on the model with its fixture and its options,
    meets every expectation it states on the mocks. *)
Example scheduler_spec_passes : Forall (fun test => test = true) scheduler_spec.
Proof. by repeat constructor. Qed.

(** The expectations are not vacuous: the standalone test fails when the
    banner is expected second. *)
Example test_standalone_order :
  nthCalledWith
    (logCalls (scheduleEventsStandaloneCalled (testScheduler scheduleFunction [] false)))
    2 "Starting serverless-offline-schedule in standalone process. Press CTRL+C to stop."
  = false.
Proof. reflexivity. Qed.
